(** * QCircuit: a tree tensor-product-state circuit simulator

    Shallow embedding of [include/qcircuit.hpp].

    The tensor algebra (ITensor) is an external library: it is taken as an
    interface, [TensorKernel], and every function of the circuit class is
    written once, for any kernel.  A reference kernel with exact rational
    arithmetic ([Ref.kernel], further down) runs the same functions on
    concrete inputs.

    Conventions of the embedding:
    - a failing [assert] stops the program with its diagnostic: [Abort];
    - [std::vector::operator[]] outside the bounds is undefined behaviour:
      [OutOfRange], carrying the vector's name and the offending position;
    - exceptions raised inside the kernel are outside this model: kernel
      operations are total;
    - fresh index identities and the SVD draw on the kernel's hidden state
      (the id generator), threaded explicitly as a [World]. *)

From Stdlib Require Import QArith Qreduction Qabs Lia.
From stdpp Require Import base decidable option list strings.
Close Scope Q_scope.

Set Default Proof Using "Type".

(** ** Outcomes of a call *)

Inductive outcome (A : Type) : Type :=
| Ok (x : A)
| Abort (msg : string)
| OutOfRange (vec : string) (i : nat).
Arguments Ok {A} x.
Arguments Abort {A} msg.
Arguments OutOfRange {A} vec i.

Definition obind {A B} (m : outcome A) (f : A → outcome B) : outcome B :=
  match m with
  | Ok x => f x
  | Abort msg => Abort msg
  | OutOfRange vec i => OutOfRange vec i
  end.

Declare Scope outcome_scope.
Delimit Scope outcome_scope with outcome.
Notation "x <- m ;; k" := (obind m (fun x => k))
  (at level 100, m at next level, right associativity,
   format "'[v' x  <-  m  ;; '/' k ']'") : outcome_scope.
Notation "m ;;; k" := (obind m (fun _ => k))
  (at level 100, right associativity,
   format "'[v' m  ;;; '/' k ']'") : outcome_scope.
Local Open Scope outcome_scope.

(** [assert(cond)] *)
Definition assert (cond : bool) (text : string) : outcome unit :=
  if cond then Ok tt else Abort text.

(** [v[i]] read and [v[i] = x] on a [std::vector] *)
Definition vec_at {A} (name : string) (v : list A) (i : nat) : outcome A :=
  match v !! i with
  | Some x => Ok x
  | None => OutOfRange name i
  end.

Definition vec_assign {A} (name : string) (v : list A) (i : nat) (x : A)
  : outcome (list A) :=
  if decide (i < length v) then Ok (<[i:=x]> v) else OutOfRange name i.

(** ** Circuit topology *)

(** Modelled from the spec: [circuit_topology.hpp] is not among the sources;
    an element of a neighbour list is a pair [{site, link}], the site at the
    other end of an edge and the id of that edge. *)
Record Neighbor := { site : nat; link : nat }.

#[export] Instance Neighbor_eq_dec : EqDecision Neighbor.
Proof. solve_decision. Defined.

(** Modelled from the spec: [circuit_topology.hpp] is not among the sources;
    the class is used through [numberOfBits()], [numberOfLinks()] and
    [neighborsOf(i)], the ordered list of [{site, link}] pairs of the sites
    adjacent to [i]. *)
Record CircuitTopology := {
  numberOfBits : nat;
  numberOfLinks : nat;
  neighborsOf : nat → list Neighbor
}.

(** ** The tensor kernel, as the class uses it *)

(** The value that an argument list [(i1 = v1, i2 = v2, ...)] gives to the
    index [i]; 0 when it gives none. *)
Fixpoint value_at {Ix : Type} `{EqDecision Ix} (ivs : list (Ix * nat)) (i : Ix)
  : nat :=
  match ivs with
  | [] => 0
  | (x, v) :: ivs' => if decide (x = i) then v else value_at ivs' i
  end.

Class TensorKernel := {
  Index : Type;
  ITensor : Type;
  Spectrum : Type;
  Args : Type;
  Real : Type;
  Cplx : Type;
  World : Type;
  (** [Index::operator==] *)
  Index_eq_dec :: EqDecision Index;
  (** [Index(dim, tags)]: a new identity each time; [dim(i)] *)
  newIndex : nat → string → World → Index * World;
  dim : Index → nat;
  (** [ITensor()], [ITensor(i1, i2, ...)], [T.inds()] *)
  nullITensor : ITensor;
  mkITensor : list Index → ITensor;
  inds : ITensor → list Index;
  (** [T.set(i1 = v1, ..., z)] and [eltC(T, i1 = v1, ...)] *)
  tset : ITensor → list (Index * nat) → Cplx → ITensor;
  elt : ITensor → list (Index * nat) → Cplx;
  (** [A * B], [T /= r], [norm(T)], [dag(T)], [T.cplx()] *)
  tmul : ITensor → ITensor → ITensor;
  tdivr : ITensor → Real → ITensor;
  norm : ITensor → Real;
  dag : ITensor → ITensor;
  cplx : ITensor → Cplx;
  (** [prime(i)], [prime(T)], [prime(T, i, j)] *)
  primeI : Index → Index;
  primeT : ITensor → ITensor;
  primeTs : ITensor → list Index → ITensor;
  (** [commonIndex(A, B)] *)
  commonIndex : ITensor → ITensor → Index;
  (** [svd(AA, U, S, V, args)]: [U], [S], [V] are read (the one with
      indices is the template of its side) and overwritten *)
  svd : ITensor → ITensor → ITensor → ITensor → Args → World →
        Spectrum * ITensor * ITensor * ITensor * World;
  (** [Spectrum()] *)
  nullSpectrum : Spectrum;
  (** the numbers the sources write: [0], [1], [1_i], unary minus *)
  R0 : Real;
  R1 : Real;
  C0 : Cplx;
  C1 : Cplx;
  Ci : Cplx;
  Copp : Cplx → Cplx
}.

(** The same kernel with another SVD routine. *)
Definition with_svd (K : TensorKernel)
    (f : @ITensor K → @ITensor K → @ITensor K → @ITensor K → @Args K →
         @World K → @Spectrum K * @ITensor K * @ITensor K * @ITensor K * @World K)
  : TensorKernel :=
  {| Index := @Index K; ITensor := @ITensor K; Spectrum := @Spectrum K;
     Args := @Args K; Real := @Real K; Cplx := @Cplx K; World := @World K;
     Index_eq_dec := @Index_eq_dec K;
     newIndex := @newIndex K; dim := @dim K; nullITensor := @nullITensor K;
     mkITensor := @mkITensor K; inds := @inds K; tset := @tset K;
     elt := @elt K; tmul := @tmul K; tdivr := @tdivr K; norm := @norm K;
     dag := @dag K; cplx := @cplx K; primeI := @primeI K;
     primeT := @primeT K; primeTs := @primeTs K;
     commonIndex := @commonIndex K; svd := f;
     nullSpectrum := @nullSpectrum K;
     R0 := @R0 K; R1 := @R1 K; C0 := @C0 K; C1 := @C1 K; Ci := @Ci K;
     Copp := @Copp K |}.

(** ** The circuit state: the data members of [class QCircuit] *)

Record QCircuitOf (Ix T : Type) := mkQCircuit {
  topology : CircuitTopology;
  a : list Ix;
  s : list Ix;
  M : list T;
  Psi : T;
  cursor : nat * nat
}.
Arguments mkQCircuit {Ix T}.
Arguments topology {Ix T}.
Arguments a {Ix T}.
Arguments s {Ix T}.
Arguments M {Ix T}.
Arguments Psi {Ix T}.
Arguments cursor {Ix T}.

Abbreviation QCircuit := (QCircuitOf Index ITensor).

(** ** The class, over any kernel *)

Section Circuit.
Context {K : TensorKernel}.

(** [size()] *)
Definition size (c : QCircuit) : nat := numberOfBits (topology c).

(** *** Constructor *)

(** [for (i = 0; i < n; i++) v.emplace_back(dim, tag);] *)
Fixpoint emplace_indices (n dim : nat) (tag : string) (v : list Index) (w : World)
  : list Index * World :=
  match n with
  | 0 => (v, w)
  | S n' =>
      let '(ix, w') := newIndex dim tag w in
      emplace_indices n' dim tag (v ++ [ix]) w'
  end.

(** [a[n0.link], a[n1.link], ...], read from left to right *)
Fixpoint link_indices (av : list Index) (l : list Neighbor) : outcome (list Index) :=
  match l with
  | [] => Ok []
  | n :: l' =>
      x <- vec_at "a" av (link n) ;;
      xs <- link_indices av l' ;;
      Ok (x :: xs)
  end.

(** [(i1 = 1, i2 = 1, ...)] *)
Definition all_ones (ixs : list Index) : list (Index * nat) :=
  map (fun ix => (ix, 1)) ixs.

(** One turn of the loop that fills [M]: the [switch] on the number of
    neighbours has the same three statements in each of its cases 1, 2, 3. *)
Definition init_site (topo : CircuitTopology) (av sv : list Index)
    (init_qbits : list (Cplx * Cplx)) (Mv : list ITensor) (i : nat)
  : outcome (list ITensor) :=
  let neighbors := neighborsOf topo i in
  match length neighbors with
  | 1 | 2 | 3 =>
      (* M.emplace_back(s[i], a[neighbors[0].link], ...) *)
      si <- vec_at "s" sv i ;;
      ls <- link_indices av neighbors ;;
      let Mv := (Mv ++ [mkITensor (si :: ls)]) in
      (* M[i].set(s[i]=1, a[...]=1, ..., init_qbits[i].first) *)
      t <- vec_at "M" Mv i ;;
      q <- vec_at "init_qbits" init_qbits i ;;
      Mv <- vec_assign "M" Mv i (tset t ((si, 1) :: all_ones ls) (fst q)) ;;
      (* M[i].set(s[i]=2, a[...]=1, ..., init_qbits[i].second) *)
      t <- vec_at "M" Mv i ;;
      q <- vec_at "init_qbits" init_qbits i ;;
      vec_assign "M" Mv i (tset t ((si, 2) :: all_ones ls) (snd q))
  | _ => Abort "false"
  end.

(** [for (i = from; i < from + n; i++) { ... }] *)
Fixpoint init_sites (topo : CircuitTopology) (av sv : list Index)
    (init_qbits : list (Cplx * Cplx)) (n from : nat) (Mv : list ITensor)
  : outcome (list ITensor) :=
  match n with
  | 0 => Ok Mv
  | S n' =>
      Mv <- init_site topo av sv init_qbits Mv from ;;
      init_sites topo av sv init_qbits n' (S from) Mv
  end.

Definition QCircuit_new (topo : CircuitTopology)
    (init_qbits : list (Cplx * Cplx)) (physical_indices : list Index) (w : World)
  : outcome (QCircuit * World) :=
  (* a(), s(physical_indices), topology(topology) *)
  let sv := physical_indices in
  let '(av, w) := emplace_indices (numberOfLinks topo) 1 "LinkInd" [] w in
  let '(sv, w) :=
    match sv with
    | [] => emplace_indices (numberOfBits topo) 2 "SiteInd" sv w
    | _ => (sv, w)
    end in
  Mv <- init_sites topo av sv init_qbits (numberOfBits topo) 0 [] ;;
  let cur := (0, 1) in
  m0 <- vec_at "M" Mv (fst cur) ;;
  m1 <- vec_at "M" Mv (snd cur) ;;
  Ok (mkQCircuit topo av sv Mv (tmul m0 m1) cur, w).

(** *** The pieces shared by [decomposePsi] and [shift_to] *)

(** [std::find_if(list.begin(), list.end(), pred)] followed by [*itr];
    dereferencing [end()] is undefined. *)
Fixpoint find_if (pred : Neighbor → bool) (l : list Neighbor) (pos : nat)
  : outcome Neighbor :=
  match l with
  | [] => OutOfRange "list" pos
  | x :: l' => if pred x then Ok x else find_if pred l' (S pos)
  end.

(** [std::remove_if] and the copy of [begin, pend) into [newlist] *)
Fixpoint remove_if (pred : Neighbor → bool) (l : list Neighbor) : list Neighbor :=
  match l with
  | [] => []
  | x :: l' => if pred x then remove_if pred l' else x :: remove_if pred l'
  end.

(** [for (auto&& i : list) { if (i.site == x) link_ind = i.link; }] *)
Fixpoint last_link (x : nat) (l : list Neighbor) (link_ind : nat) : nat :=
  match l with
  | [] => link_ind
  | i :: l' => last_link x l' (if site i =? x then link i else link_ind)
  end.

(** [for (auto&& i : neighbors) { if (i.site == ind) { flag = v; break; } }] *)
Fixpoint scan_flag (ind : nat) (l : list Neighbor) (v flag : nat) : nat :=
  match l with
  | [] => flag
  | i :: l' => if site i =? ind then v else scan_flag ind l' v flag
  end.

(** [switch (newlist.size())]: the template of one side of the SVD *)
Definition side_template (c : QCircuit) (at_site : nat) (newlist : list Neighbor)
  : outcome ITensor :=
  match newlist with
  | [] =>
      si <- vec_at "s" (s c) at_site ;;
      Ok (mkITensor [si])
  | [n0] =>
      si <- vec_at "s" (s c) at_site ;;
      a0 <- vec_at "a" (a c) (link n0) ;;
      Ok (mkITensor [si; a0])
  | [n0; n1] =>
      si <- vec_at "s" (s c) at_site ;;
      a0 <- vec_at "a" (a c) (link n0) ;;
      a1 <- vec_at "a" (a c) (link n1) ;;
      Ok (mkITensor [si; a0; a1])
  | _ => Abort "false"
  end.

(** *** [void decomposePsi(Args args)] *)

Definition decomposePsi (args : Args) (c : QCircuit) (w : World)
  : outcome (unit * QCircuit * World) :=
  let first := fst (cursor c) in
  let second := snd (cursor c) in
  let list := neighborsOf (topology c) first in
  second_itr <- find_if (fun x => site x =? second) list 0 ;;
  let link_ind := link second_itr in
  let newlist := remove_if (fun t => site t =? second) list in
  U <- side_template c first newlist ;;
  let '(spec, U, Sv, V, w) := svd (Psi c) U nullITensor nullITensor args w in
  av <- vec_assign "a" (a c) link_ind (commonIndex U Sv) ;;
  let Sv := tdivr Sv (norm Sv) in
  Mv <- vec_assign "M" (M c) first U ;;
  Mv <- vec_assign "M" Mv second (tmul Sv V) ;;
  Ok (tt, mkQCircuit (topology c) av (s c) Mv (Psi c) (cursor c), w).

(** *** [Spectrum shift_to(size_t ind, const Args& args)] *)

Definition shift_to (ind : nat) (args : Args) (c : QCircuit) (w : World)
  : outcome (Spectrum * QCircuit * World) :=
  let first := fst (cursor c) in
  let second := snd (cursor c) in
  assert (negb (ind =? first)) "ind != cursor.first" ;;;
  assert (negb (ind =? second)) "ind != cursor.second" ;;;
  let flag := 0 in
  let flag := scan_flag ind (neighborsOf (topology c) first) 1 flag in
  let flag := scan_flag ind (neighborsOf (topology c) second) 2 flag in
  match flag with
  | 1 =>
      let list := neighborsOf (topology c) second in
      let link_ind := last_link first list 0 in
      let newlist := remove_if (fun t => site t =? first) list in
      V <- side_template c second newlist ;;
      let '(spec, U, Sv, V, w) := svd (Psi c) nullITensor nullITensor V args w in
      av <- vec_assign "a" (a c) link_ind (commonIndex Sv V) ;;
      let Sv := tdivr Sv (norm Sv) in
      Mv <- vec_assign "M" (M c) second V ;;
      m <- vec_at "M" Mv ind ;;
      let psi := tmul (tmul m U) Sv in
      Ok (spec, mkQCircuit (topology c) av (s c) Mv psi (ind, first), w)
  | 2 =>
      let list := neighborsOf (topology c) first in
      let link_ind := last_link second list 0 in
      let newlist := remove_if (fun t => site t =? second) list in
      U <- side_template c first newlist ;;
      let '(spec, U, Sv, V, w) := svd (Psi c) U nullITensor nullITensor args w in
      av <- vec_assign "a" (a c) link_ind (commonIndex U Sv) ;;
      let Sv := tdivr Sv (norm Sv) in
      Mv <- vec_assign "M" (M c) first U ;;
      m <- vec_at "M" Mv ind ;;
      let psi := tmul (tmul Sv V) m in
      Ok (spec, mkQCircuit (topology c) av (s c) Mv psi (second, ind), w)
  | _ => Abort "cannot move to this direction"
  end.

(** *** [void apply(const ITensor& op)] *)

(** The body of the loop over [op.inds()]: the four comparisons are joined by
    [||], so [s[cursor.second]] is read only when the first one fails. *)
Definition check_elem (c : QCircuit) (elem : Index) : outcome unit :=
  sf <- vec_at "s" (s c) (fst (cursor c)) ;;
  if bool_decide (elem = sf) then Ok tt else
  ss <- vec_at "s" (s c) (snd (cursor c)) ;;
  assert (bool_decide (elem = ss) || bool_decide (elem = primeI sf)
          || bool_decide (elem = primeI ss))
    ("elem == s[cursor.first] || elem == s[cursor.second] || "
     ++ "elem == prime(s[cursor.first]) || elem == prime(s[cursor.second])").

Fixpoint check_elems (c : QCircuit) (l : list Index) : outcome unit :=
  match l with
  | [] => Ok tt
  | elem :: l' => check_elem c elem ;;; check_elems c l'
  end.

Definition apply (op : ITensor) (c : QCircuit) : outcome (unit * QCircuit) :=
  assert (length (inds op) =? 4) "op.inds().size() == 4" ;;;
  check_elems c (inds op) ;;;
  sf <- vec_at "s" (s c) (fst (cursor c)) ;;
  ss <- vec_at "s" (s c) (snd (cursor c)) ;;
  let psi := tmul op (primeTs (Psi c) [sf; ss]) in
  Ok (tt, mkQCircuit (topology c) (a c) (s c) (M c) psi (cursor c)).

(** *** [normalize], [primeAll] and the accessors *)

Definition normalize (c : QCircuit) : QCircuit :=
  mkQCircuit (topology c) (a c) (s c) (M c)
    (tdivr (Psi c) (norm (Psi c))) (cursor c).

Definition primeAll (c : QCircuit) : QCircuit :=
  mkQCircuit (topology c) (map primeI (a c)) (map primeI (s c))
    (map primeT (M c)) (primeT (Psi c)) (cursor c).

Definition Mref (c : QCircuit) (i : nat) : outcome ITensor :=
  assert (i <? size c) "0 <= i && i < this->size()" ;;;
  vec_at "M" (M c) i.

Definition site_ref (c : QCircuit) (i : nat) : outcome Index :=
  assert (i <? size c) "0 <= i && i < this->size()" ;;;
  vec_at "s" (s c) i.

(** ** The one-site gates written entry by entry *)

Definition Id (sx : Index) : ITensor :=
  let ret := mkITensor [sx; primeI sx] in
  let ret := tset ret [(sx, 1); (primeI sx, 1)] C1 in
  let ret := tset ret [(sx, 2); (primeI sx, 2)] C1 in
  ret.

Definition X (sx : Index) : ITensor :=
  let ret := mkITensor [sx; primeI sx] in
  let ret := tset ret [(sx, 1); (primeI sx, 2)] C1 in
  let ret := tset ret [(sx, 2); (primeI sx, 1)] C1 in
  ret.

Definition Y (sx : Index) : ITensor :=
  let ret := mkITensor [sx; primeI sx] in
  let ret := tset ret [(sx, 1); (primeI sx, 2)] (Copp Ci) in
  let ret := tset ret [(sx, 2); (primeI sx, 1)] Ci in
  ret.

Definition Z (sx : Index) : ITensor :=
  let ret := mkITensor [sx; primeI sx] in
  let ret := tset ret [(sx, 1); (primeI sx, 1)] C1 in
  let ret := tset ret [(sx, 2); (primeI sx, 2)] (Copp C1) in
  ret.

(** ** [overlap]: both circuits are passed by value *)

(** [for (i = from; i < from + n; i++)
       ret_t = dag(circuit1.Mref(i)) * op[i] * ret_t * circuit2.Mref(i);] *)
Fixpoint overlap_loop (circuit1 circuit2 : QCircuit) (op : list ITensor)
    (n from : nat) (ret_t : ITensor) : outcome ITensor :=
  match n with
  | 0 => Ok ret_t
  | S n' =>
      m1 <- Mref circuit1 from ;;
      o <- vec_at "op" op from ;;
      m2 <- Mref circuit2 from ;;
      overlap_loop circuit1 circuit2 op n' (S from)
        (tmul (tmul (tmul (dag m1) o) ret_t) m2)
  end.

(** [ret_t.cplx()]: the kernel gives the entry of a tensor that has no
    index; on a tensor that has one it raises its error, which nothing
    catches. *)
Definition cplx_or_stop (t : ITensor) : outcome Cplx :=
  match inds t with
  | [] => Ok (cplx t)
  | _ :: _ => Abort "cplx() of an ITensor that is not a scalar"
  end.

Definition overlap (circuit1 : QCircuit) (op : list ITensor) (circuit2 : QCircuit)
    (args : Args) (w : World) : outcome (Cplx * World) :=
  assert ((length op =? size circuit1) && (length op =? size circuit2))
    "op.size() == circuit1.size() && op.size() == circuit2.size()" ;;;
  r1 <- decomposePsi args circuit1 w ;;
  let '(_, circuit1, w) := r1 in
  r2 <- decomposePsi args circuit2 w ;;
  let '(_, circuit2, w) := r2 in
  let circuit2 := primeAll circuit2 in
  m1 <- Mref circuit1 0 ;;
  o <- vec_at "op" op 0 ;;
  m2 <- Mref circuit2 0 ;;
  let ret_t := tmul (tmul (dag m1) o) m2 in
  ret_t <- overlap_loop circuit1 circuit2 op (size circuit1 - 1) 1 ret_t ;;
  z <- cplx_or_stop ret_t ;;
  Ok (z, w).

End Circuit.

(** ** The projector gates, each made by one [set] *)

Section Projectors.
Context {K : TensorKernel}.

(** [|0><0|] *)
Definition proj_0 (sx : Index) : ITensor :=
  let ret := mkITensor [sx; primeI sx] in
  let ret := tset ret [(sx, 1); (primeI sx, 1)] C1 in
  ret.

(** [|1><1|] *)
Definition proj_1 (sx : Index) : ITensor :=
  let ret := mkITensor [sx; primeI sx] in
  let ret := tset ret [(sx, 2); (primeI sx, 2)] C1 in
  ret.

(** [|1><0|] *)
Definition proj_0_to_1 (sx : Index) : ITensor :=
  let ret := mkITensor [sx; primeI sx] in
  let ret := tset ret [(sx, 2); (primeI sx, 1)] C1 in
  ret.

(** [|0><1|] *)
Definition proj_1_to_0 (sx : Index) : ITensor :=
  let ret := mkITensor [sx; primeI sx] in
  let ret := tset ret [(sx, 1); (primeI sx, 2)] C1 in
  ret.

End Projectors.

(** ** The gates written as sums and products *)

(** What these gates use beside the kernel: the sum and the difference of
    two tensors on the same indices ([operator+], [operator-]), the product
    of a real and a tensor, the real [1.0/sqrt(2.0)], and the arithmetic of
    the entries. *)
Class TensorLinear (K : TensorKernel) := {
  tadd : ITensor → ITensor → ITensor;
  tsub : ITensor → ITensor → ITensor;
  tscale : Real → ITensor → ITensor;
  inv_sqrt2 : Real;
  Cadd : Cplx → Cplx → Cplx;
  Csub : Cplx → Cplx → Cplx;
  Cmul : Cplx → Cplx → Cplx;
  Cscale : Real → Cplx → Cplx
}.

Module Gate.
Section Gate.
Context {K : TensorKernel} {L : TensorLinear K}.

(** [(1.0/sqrt(2.0))*(proj_0(s) + proj_0_to_1(s))
     + (1.0/sqrt(2.0))*(proj_1(s) - proj_1_to_0(s))] *)
Definition H (sx : Index) : ITensor :=
  tadd (tscale inv_sqrt2 (tadd (proj_0 sx) (proj_0_to_1 sx)))
       (tscale inv_sqrt2 (tsub (proj_1 sx) (proj_1_to_0 sx))).

(** [proj_0(s1)*Id(s2) + proj_1(s1)*X(s2)] *)
Definition CNOT (s1 s2 : Index) : ITensor :=
  tadd (tmul (proj_0 s1) (Id s2)) (tmul (proj_1 s1) (X s2)).

(** [proj_0(s1)*Id(s2) + proj_1(s1)*Y(s2)] *)
Definition CY (s1 s2 : Index) : ITensor :=
  tadd (tmul (proj_0 s1) (Id s2)) (tmul (proj_1 s1) (Y s2)).

(** [proj_0(s1)*Id(s2) + proj_1(s1)*Z(s2)] *)
Definition CZ (s1 s2 : Index) : ITensor :=
  tadd (tmul (proj_0 s1) (Id s2)) (tmul (proj_1 s1) (Z s2)).

End Gate.
End Gate.

(** ** A reference kernel

    Named-index tensors with exact entries: a real is a rational in lowest
    terms, a complex number a pair of them, a tensor the list of its
    indices with a sparse table from index values (in the order of the
    indices, starting at 1) to entries.  Contraction, priming, conjugation
    and element access cover every tensor.  The norm is exact when it is
    rational, and the SVD is exact on tensors whose matrix (rows: the indices
    of the [U] side, columns: the others) has real entries with at most one
    nonzero entry per row and per column; outside of that the routine
    returns null tensors.  Index identities come from a counter. *)

Module Ref.

Record index := mkIndex {
  ix_id : nat;
  ix_dim : nat;
  ix_plev : nat;
  ix_tag : string
}.

#[export] Instance index_eq_dec : EqDecision index.
Proof. solve_decision. Defined.

Definition null_index : index := mkIndex 0 0 0 "".

Definition new_index (dim : nat) (tag : string) (w : nat) : index * nat :=
  (mkIndex (S w) dim 0 tag, S w).

Definition prime_index (i : index) : index :=
  mkIndex (ix_id i) (ix_dim i) (S (ix_plev i)) (ix_tag i).

(** *** Numbers *)

Definition real : Type := Q.
Definition complex : Type := Q * Q.

Definition c0 : complex := (0, 0)%Q.
Definition c1 : complex := (1, 0)%Q.
Definition ci : complex := (0, 1)%Q.
Definition copp (z : complex) : complex := (Qred (- fst z), Qred (- snd z)).
Definition cconj (z : complex) : complex := (fst z, Qred (- snd z)).
Definition cadd (x y : complex) : complex :=
  (Qred (fst x + fst y), Qred (snd x + snd y)).
Definition cmul (x y : complex) : complex :=
  (Qred (fst x * fst y - snd x * snd y), Qred (fst x * snd y + snd x * fst y)).
Definition cdivr (z : complex) (r : real) : complex :=
  (Qred (fst z / r), Qred (snd z / r)).
Definition cnorm2 (z : complex) : Q := (fst z * fst z + snd z * snd z)%Q.
Definition cnonzero (z : complex) : bool :=
  negb (Qeq_bool (fst z) 0 && Qeq_bool (snd z) 0).

(** The square root of a rational that has a rational one, else 0. *)
Definition exact_sqrt (q : Q) : Q :=
  let q := Qred q in
  let r := (Z.sqrt (Qnum q) # Pos.sqrt (Qden q))%Q in
  if Qeq_bool (r * r) q then Qred r else 0%Q.

(** *** Tensors *)

Definition entry : Type := list nat * complex.

Inductive tensor : Type :=
| Null
| Tens (ix : list index) (el : list entry).

Definition is_null (t : tensor) : bool :=
  match t with Null => true | Tens _ _ => false end.

Definition tensor_inds (t : tensor) : list index :=
  match t with Null => [] | Tens ix _ => ix end.

(** the value an entry key gives to index [i] *)
Fixpoint val_of (ix : list index) (k : list nat) (i : index) : nat :=
  match ix, k with
  | x :: ix', v :: k' => if decide (x = i) then v else val_of ix' k' i
  | _, _ => 0
  end.

Definition key_of (ix : list index) (ivs : list (index * nat)) : list nat :=
  map (value_at ivs) ix.

Fixpoint key_ok (ix : list index) (k : list nat) : bool :=
  match ix, k with
  | [], [] => true
  | x :: ix', v :: k' => (1 <=? v) && (v <=? ix_dim x) && key_ok ix' k'
  | _, _ => false
  end.

Fixpoint lookup_entry (k : list nat) (el : list entry) : complex :=
  match el with
  | [] => c0
  | (k', z) :: el' => if decide (k' = k) then z else lookup_entry k el'
  end.

Definition tensor_elt (t : tensor) (ivs : list (index * nat)) : complex :=
  match t with
  | Null => c0
  | Tens ix el => lookup_entry (key_of ix ivs) el
  end.

Definition tensor_set (t : tensor) (ivs : list (index * nat)) (z : complex)
  : tensor :=
  match t with
  | Null => Null
  | Tens ix el =>
      let k := key_of ix ivs in
      if key_ok ix k
      then Tens ix ((k, z) :: filter (fun e => fst e ≠ k) el)
      else t
  end.

(** add an entry into a table, summing on equal keys *)
Fixpoint acc_add (e : entry) (el : list entry) : list entry :=
  match el with
  | [] => [e]
  | e' :: el' =>
      if decide (fst e' = fst e)
      then (fst e', cadd (snd e') (snd e)) :: el'
      else e' :: acc_add e el'
  end.

Definition collect (el : list entry) : list entry :=
  filter (fun e => cnonzero (snd e) = true)
    (fold_left (fun acc e => acc_add e acc) el []).

Definition in_list (l : list index) (i : index) : bool := bool_decide (i ∈ l).

(** contraction over the indices the two tensors share *)
Definition tensor_mul (x y : tensor) : tensor :=
  match x, y with
  | Tens ia ea, Tens ib eb =>
      let shared := filter (fun i => in_list ib i = true) ia in
      let ra := filter (fun i => in_list ib i = false) ia in
      let rb := filter (fun i => in_list ia i = false) ib in
      let products :=
        ka ← ea;
        kb ← eb;
        if forallb (fun i => val_of ia (fst ka) i =? val_of ib (fst kb) i) shared
        then [((map (val_of ia (fst ka)) ra ++ map (val_of ib (fst kb)) rb)%list,
               cmul (snd ka) (snd kb))]
        else [] in
      Tens (ra ++ rb) (collect products)
  | _, _ => Null
  end.

Definition map_entries (f : complex → complex) (t : tensor) : tensor :=
  match t with
  | Null => Null
  | Tens ix el => Tens ix (map (fun e => (fst e, f (snd e))) el)
  end.

Definition tensor_divr (t : tensor) (r : real) : tensor :=
  map_entries (fun z => cdivr z r) t.

Definition tensor_dag (t : tensor) : tensor := map_entries cconj t.

Definition sumsq (el : list entry) : Q :=
  fold_right (fun e acc => (cnorm2 (snd e) + acc)%Q) 0%Q el.

Definition tensor_norm (t : tensor) : real :=
  match t with
  | Null => 0%Q
  | Tens _ el => exact_sqrt (sumsq el)
  end.

Definition tensor_cplx (t : tensor) : complex :=
  match t with
  | Tens [] el => lookup_entry [] el
  | _ => c0
  end.

Definition map_inds (f : index → index) (t : tensor) : tensor :=
  match t with
  | Null => Null
  | Tens ix el => Tens (map f ix) el
  end.

Definition tensor_prime (t : tensor) : tensor := map_inds prime_index t.

Definition tensor_prime_some (t : tensor) (l : list index) : tensor :=
  map_inds (fun i => if in_list l i then prime_index i else i) t.

Definition common_index (x y : tensor) : index :=
  match filter (fun i => in_list (tensor_inds y) i = true) (tensor_inds x) with
  | i :: _ => i
  | [] => null_index
  end.

(** *** The SVD on its exact domain *)

Record spectrum := mkSpectrum { truncerr : Q; eigs : list Q }.
Record args := mkArgs { maxdim : nat; cutoff : Q }.

Definition null_spectrum : spectrum := mkSpectrum 0 [].

(** a nonzero matrix entry: row key, column key, value *)
Definition row : Type := list nat * list nat * Q.

Fixpoint insert_desc (r : row) (l : list row) : list row :=
  match l with
  | [] => [r]
  | r' :: l' =>
      if Qle_bool (Qabs (snd r)) (Qabs (snd r'))
      then r' :: insert_desc r l'
      else r :: l
  end.

Definition sort_desc (l : list row) : list row :=
  fold_left (fun acc r => insert_desc r acc) l [].

Definition weight (ps : list Q) : Q := Qred (fold_right Qplus 0%Q ps).

(** how many singular values stay: at most [maxdim], at least one, and the
    fewest whose discarded weight is within [cutoff] of the total *)
Definition keep_count (ar : args) (ps : list Q) : nat :=
  let m0 := Nat.min (Nat.max 1 (maxdim ar)) (length ps) in
  let bound := (cutoff ar * weight ps)%Q in
  default m0
    (head (filter (fun m => Qle_bool (weight (drop m ps)) bound = true)
             (seq 1 m0))).

Definition sign (z : Q) : Q := if Qle_bool 0 z then 1%Q else (-1)%Q.

(** the entries that the [j]-th kept matrix entry gives to [U], [S] and [V]:
    its row with the new index of [U] at [j + 1], its absolute value on the
    diagonal, its column with the new index of [V] at [j + 1] and its sign *)
Definition u_entry (j : nat) (r : row) : entry :=
  ((fst (fst r) ++ [S j])%list, c1).
Definition s_entry (j : nat) (r : row) : entry :=
  ([S j; S j], (Qred (Qabs (snd r)), 0%Q)).
Definition v_entry (j : nat) (r : row) : entry :=
  ((snd (fst r) ++ [S j])%list, (sign (snd r), 0%Q)).

Definition tensor_svd (AA U Sv V : tensor) (ar : args) (w : nat)
  : spectrum * tensor * tensor * tensor * nat :=
  let outside := (null_spectrum, Null, Null, Null, w) in
  match AA with
  | Null => outside
  | Tens ia ea =>
      let L := tensor_inds (if is_null U then V else U) in
      let Linds := filter (fun i => in_list L i = true) ia in
      let Rinds := filter (fun i => in_list L i = false) ia in
      let '(Ui, Vi) := if is_null U then (Rinds, Linds) else (Linds, Rinds) in
      let nz := filter (fun e => cnonzero (snd e) = true) ea in
      let rows : list row :=
        map (fun e => (map (val_of ia (fst e)) Ui, map (val_of ia (fst e)) Vi,
                       fst (snd e))) nz in
      if negb (bool_decide (rows = []))
         && forallb (fun e => Qeq_bool (snd (snd e)) 0) nz
         && bool_decide (NoDup (map (fun r : row => fst (fst r)) rows))
         && bool_decide (NoDup (map (fun r : row => snd (fst r)) rows))
      then
        let sorted := sort_desc rows in
        let ps := map (fun r : row => Qred (snd r * snd r)) sorted in
        let m := keep_count ar ps in
        let kept := take m sorted in
        let '(u, w) := new_index m "Link,U" w in
        let '(v, w) := new_index m "Link,V" w in
        let Ut := Tens (Ui ++ [u]) (imap u_entry kept) in
        let St := Tens [u; v] (imap s_entry kept) in
        let Vt := Tens (Vi ++ [v]) (imap v_entry kept) in
        (mkSpectrum (Qred (weight (drop m ps) / weight ps)) (take m ps),
         Ut, St, Vt, w)
      else outside
  end.

#[export] Instance kernel : TensorKernel := {|
  Index := index; ITensor := tensor; Spectrum := spectrum; Args := args;
  Real := real; Cplx := complex; World := nat;
  Index_eq_dec := index_eq_dec;
  newIndex := new_index; dim := ix_dim; nullITensor := Null;
  mkITensor := fun ix => Tens ix []; inds := tensor_inds;
  tset := tensor_set; elt := tensor_elt;
  tmul := tensor_mul; tdivr := tensor_divr; norm := tensor_norm;
  dag := tensor_dag; cplx := tensor_cplx;
  primeI := prime_index; primeT := tensor_prime; primeTs := tensor_prime_some;
  commonIndex := common_index; svd := tensor_svd;
  nullSpectrum := null_spectrum;
  R0 := 0%Q; R1 := 1%Q; C0 := c0; C1 := c1; Ci := ci; Copp := copp
|}.

(** *** Sums, differences and multiples *)

Definition csub (x y : complex) : complex :=
  (Qred (fst x - fst y), Qred (snd x - snd y)).
Definition cscale (r : real) (z : complex) : complex :=
  (Qred (r * fst z), Qred (r * snd z)).

(** entry by entry, over the keys that either table has *)
Definition combine_entries (f : complex → complex → complex)
    (ea eb : list entry) : list entry :=
  map (fun k => (k, f (lookup_entry k ea) (lookup_entry k eb)))
      (map fst ea ++ map fst eb).

Definition tensor_combine (f : complex → complex → complex) (x y : tensor)
  : tensor :=
  match x, y with
  | Tens ia ea, Tens ib eb =>
      if decide (ia = ib) then Tens ia (combine_entries f ea eb) else Null
  | _, _ => Null
  end.

Definition tensor_add : tensor → tensor → tensor := tensor_combine cadd.
Definition tensor_sub : tensor → tensor → tensor := tensor_combine csub.
Definition tensor_scale (r : real) (t : tensor) : tensor :=
  map_entries (cscale r) t.

(** No rational has the square 1/2: the reference kernel takes 7/10 for
    [1.0/sqrt(2.0)]. *)
#[export] Instance linear : TensorLinear kernel := {|
  tadd := tensor_add; tsub := tensor_sub; tscale := tensor_scale;
  inv_sqrt2 := (7 # 10)%Q;
  Cadd := cadd; Csub := csub; Cmul := cmul; Cscale := cscale
|}.

End Ref.

(** ** Vocabulary of the properties *)

(** [j] is listed among the neighbours of [i]. *)
Definition adjacent (t : CircuitTopology) (i j : nat) : Prop :=
  j ∈ site <$> neighborsOf t i.

#[export] Instance adjacent_dec t i j : Decision (adjacent t i j).
Proof. unfold adjacent. apply _. Defined.

(** [e] is the link the topology gives to the edge from [i] to [j]. *)
Definition link_between (t : CircuitTopology) (i j e : nat) : Prop :=
  Build_Neighbor j e ∈ neighborsOf t i.

#[export] Instance link_between_dec t i j e : Decision (link_between t i j e).
Proof. unfold link_between. apply _. Defined.

(** What the class expects of a topology: every site has one to three
    neighbours, each listed once; sites and links are in range; and an edge
    is listed at both of its ends, with the same link. *)
Record topology_ok (t : CircuitTopology) : Prop := {
  topo_degree : ∀ i, i < numberOfBits t →
    1 ≤ length (neighborsOf t i) ∧ length (neighborsOf t i) ≤ 3;
  topo_sites : ∀ i n, i < numberOfBits t → n ∈ neighborsOf t i →
    site n < numberOfBits t;
  topo_links : ∀ i n, i < numberOfBits t → n ∈ neighborsOf t i →
    link n < numberOfLinks t;
  topo_simple : ∀ i, i < numberOfBits t → NoDup (site <$> neighborsOf t i);
  topo_undirected : ∀ i n, i < numberOfBits t → n ∈ neighborsOf t i →
    link_between t (site n) i (link n)
}.

(** The contracted configuration: the vectors have the sizes the
    constructor gives them and the cursor lies on an edge. *)
Record state_ok {Ix T : Type} (c : QCircuitOf Ix T) : Prop := {
  ok_topology : topology_ok (topology c);
  ok_a : length (a c) = numberOfLinks (topology c);
  ok_s : numberOfBits (topology c) ≤ length (s c);
  ok_M : length (M c) = numberOfBits (topology c);
  ok_first : fst (cursor c) < numberOfBits (topology c);
  ok_second : snd (cursor c) < numberOfBits (topology c);
  ok_edge : adjacent (topology c) (fst (cursor c)) (snd (cursor c))
}.

(** [ixs] is [s[x]] followed by the link indices of the neighbours of [x],
    in the topology's order, the neighbour [y] left out. *)
Definition side_indices {Ix T : Type} (c : QCircuitOf Ix T) (x y : nat)
    (ixs : list Ix) : Prop :=
  ∃ sx ls,
    s c !! x = Some sx ∧
    Forall2 (fun n l => a c !! link n = Some l)
      (filter (fun n => site n ≠ y) (neighborsOf (topology c) x)) ls ∧
    ixs = sx :: ls.

(** The tensor the constructor's loop leaves at a site with site index [si],
    link indices [ls] and amplitudes [q]. *)
Definition site_tensor `{K : TensorKernel} (si : Index) (ls : list Index)
    (q : Cplx * Cplx) : ITensor :=
  tset (tset (mkITensor (si :: ls)) ((si, 1) :: all_ones ls) (fst q))
       ((si, 2) :: all_ones ls) (snd q).

(** What a call of [decomposePsi(args)] in world [w] comes to: [Psi] is
    factored with the side of [first] as the template of [U]; the link of the
    cursor edge is bound to the index [U] and [S] share, [M[first]] becomes
    [U] and [M[second]] becomes [(S / norm S) * V]; the cursor, [Psi] and the
    site indices stay. *)
Definition refactored `{K : TensorKernel} (c : QCircuit) (args : Args) (w : World)
  : Prop :=
  let first := fst (cursor c) in
  let second := snd (cursor c) in
  ∃ ixs e,
    side_indices c first second ixs ∧
    link_between (topology c) first second e ∧
    ∀ spec U Sv V w',
      svd (Psi c) (mkITensor ixs) nullITensor nullITensor args w
        = (spec, U, Sv, V, w') →
      decomposePsi args c w =
        Ok (tt,
            mkQCircuit (topology c)
              (<[e := commonIndex U Sv]> (a c))
              (s c)
              (<[second := tmul (tdivr Sv (norm Sv)) V]> (<[first := U]> (M c)))
              (Psi c)
              (cursor c),
            w').

(** Case A of [shift_to(ind, args)]: [Psi] is factored with the side of
    [second] as the template of [V]; the link of the cursor edge is bound to
    the index [S] and [V] share, [M[second]] becomes [V], the new [Psi] is
    [M[ind] * U * (S / norm S)] and the cursor [(ind, first)]. *)
Definition shifted_through_first `{K : TensorKernel} (c : QCircuit) (ind : nat)
    (args : Args) (w : World) : Prop :=
  let first := fst (cursor c) in
  let second := snd (cursor c) in
  ∃ ixs e m,
    side_indices c second first ixs ∧
    link_between (topology c) first second e ∧
    link_between (topology c) second first e ∧
    M c !! ind = Some m ∧
    ∀ spec U Sv V w',
      svd (Psi c) nullITensor nullITensor (mkITensor ixs) args w
        = (spec, U, Sv, V, w') →
      shift_to ind args c w =
        Ok (spec,
            mkQCircuit (topology c)
              (<[e := commonIndex Sv V]> (a c))
              (s c)
              (<[second := V]> (M c))
              (tmul (tmul m U) (tdivr Sv (norm Sv)))
              (ind, first),
            w').

(** Case B: the mirror image, with the side of [first] as the template of
    [U]; [M[first]] becomes [U], the new [Psi] is [(S / norm S) * V * M[ind]]
    and the cursor [(second, ind)]. *)
Definition shifted_through_second `{K : TensorKernel} (c : QCircuit) (ind : nat)
    (args : Args) (w : World) : Prop :=
  let first := fst (cursor c) in
  let second := snd (cursor c) in
  ∃ ixs e m,
    side_indices c first second ixs ∧
    link_between (topology c) first second e ∧
    link_between (topology c) second first e ∧
    M c !! ind = Some m ∧
    ∀ spec U Sv V w',
      svd (Psi c) (mkITensor ixs) nullITensor nullITensor args w
        = (spec, U, Sv, V, w') →
      shift_to ind args c w =
        Ok (spec,
            mkQCircuit (topology c)
              (<[e := commonIndex U Sv]> (a c))
              (s c)
              (<[first := U]> (M c))
              (tmul (tmul (tdivr Sv (norm Sv)) V) m)
              (second, ind),
            w').

(** The same kernel, its SVD reporting [g spec] where it reported [spec]. *)
Definition with_spectrum (K : TensorKernel) (g : @Spectrum K → @Spectrum K)
  : TensorKernel :=
  with_svd K (fun AA U Sv V args w =>
    let '(spec, U', Sv', V', w') := @svd K AA U Sv V args w in
    (g spec, U', Sv', V', w')).

(** Boolean forms of the two conditions, to check them by evaluation. *)
Definition site_okb (t : CircuitTopology) (i : nat) : bool :=
  let l := neighborsOf t i in
  (1 <=? length l) && (length l <=? 3)
  && forallb (fun n => (site n <? numberOfBits t) && (link n <? numberOfLinks t)
                       && bool_decide (link_between t (site n) i (link n))) l
  && bool_decide (NoDup (site <$> l)).

Definition topology_okb (t : CircuitTopology) : bool :=
  forallb (site_okb t) (seq 0 (numberOfBits t)).

Definition state_okb {Ix T : Type} (c : QCircuitOf Ix T) : bool :=
  let t := topology c in
  let first := fst (cursor c) in
  let second := snd (cursor c) in
  topology_okb t
  && (length (a c) =? numberOfLinks t)
  && (numberOfBits t <=? length (s c))
  && (length (M c) =? numberOfBits t)
  && (first <? numberOfBits t) && (second <? numberOfBits t)
  && bool_decide (adjacent t first second).

(** Laws of the tensor algebra that some properties lean on: a product
    carries the indices that its factors do not share; priming a selection
    of indices replaces exactly those. *)
Definition contraction_index_law (K : TensorKernel) : Prop :=
  ∀ x y : ITensor, inds x ≠ [] → inds y ≠ [] →
    inds (tmul x y) =
      filter (fun i => i ∉ inds y) (inds x) ++ filter (fun i => i ∉ inds x) (inds y).

Definition priming_index_law (K : TensorKernel) : Prop :=
  ∀ (t : ITensor) (l : list Index),
    inds (primeTs t l) =
      (fun i => if decide (i ∈ l) then primeI i else i) <$> inds t.

(** Setting and reading entries: an argument list fits a tensor when it
    gives every index of the tensor a value within its dimension, and two
    argument lists name the same entry when they agree on the tensor's
    indices.  A new tensor has the indices it was made with and zero
    entries; [set] keeps the indices, writes the entry it names and leaves
    the others; priming keeps the dimension and changes the index. *)
Definition fits `{K : TensorKernel} (t : ITensor) (ivs : list (Index * nat))
  : Prop :=
  Forall (fun i => 1 ≤ value_at ivs i ∧ value_at ivs i ≤ dim i) (inds t).

Definition same_entry `{K : TensorKernel} (t : ITensor)
    (ivs ivs' : list (Index * nat)) : Prop :=
  Forall (fun i => value_at ivs i = value_at ivs' i) (inds t).

Record element_laws (K : TensorKernel) : Prop := {
  inds_mkITensor : ∀ ixs : list Index, inds (mkITensor ixs) = ixs;
  inds_tset : ∀ (t : ITensor) ivs z, inds (tset t ivs z) = inds t;
  elt_mkITensor : ∀ (ixs : list Index) ivs, elt (mkITensor ixs) ivs = C0;
  elt_tset_same : ∀ (t : ITensor) ivs ivs' z,
    inds t ≠ [] → fits t ivs → same_entry t ivs ivs' →
    elt (tset t ivs z) ivs' = z;
  elt_tset_other : ∀ (t : ITensor) ivs ivs' z,
    inds t ≠ [] → fits t ivs → ¬ same_entry t ivs ivs' →
    elt (tset t ivs z) ivs' = elt t ivs';
  dim_primeI : ∀ i : Index, dim (primeI i) = dim i;
  primeI_fresh : ∀ i : Index, primeI i ≠ i
}.

(** The entry of a one-site operator on [{sx, prime(sx)}], read as a matrix:
    with the unprimed index as the row, or with the primed index as the row. *)
Definition entry_row_unprimed `{K : TensorKernel} (t : ITensor) (sx : Index)
    (r c : nat) : Cplx :=
  elt t [(sx, r); (primeI sx, c)].

Definition entry_row_primed `{K : TensorKernel} (t : ITensor) (sx : Index)
    (r c : nat) : Cplx :=
  elt t [(primeI sx, r); (sx, c)].

(** The constructor's loop can fill site [i]: it has one to three
    neighbours and their links are in range. *)
Definition site_ready (topo : CircuitTopology) (i : nat) : Prop :=
  (1 ≤ length (neighborsOf topo i) ∧ length (neighborsOf topo i) ≤ 3) ∧
  ∀ n, n ∈ neighborsOf topo i → link n < numberOfLinks topo.

#[export] Instance site_ready_dec topo i : Decision (site_ready topo i).
Proof.
  unfold site_ready.
  apply and_dec; [apply _|].
  destruct (decide (Forall (fun n => link n < numberOfLinks topo)
                      (neighborsOf topo i))) as [H|H].
  - left. by apply Forall_forall.
  - right. intros H'. apply H. by apply Forall_forall.
Defined.

(** [m] is the tensor the constructor leaves at site [i]: on [s[i]] and the
    link indices of the neighbours of [i] in the topology's order, with the
    amplitudes [q[i]]. *)
Definition built_site `{K : TensorKernel} (topo : CircuitTopology)
    (av sv : list Index) (q : list (Cplx * Cplx)) (i : nat) (m : ITensor) : Prop :=
  ∃ si ls qi,
    sv !! i = Some si ∧
    Forall2 (fun n l => av !! link n = Some l) (neighborsOf topo i) ls ∧
    q !! i = Some qi ∧
    m = site_tensor si ls qi.

(** The one-site gates that are written entry by entry. *)
Definition one_site_gates `{K : TensorKernel} : list (Index → ITensor) :=
  [Id; X; Y; Z; proj_0; proj_1; proj_0_to_1; proj_1_to_0].

(** What [overlap] contracts, read along the three vectors: the product
    [dag(M1[0]) * op[0] * M2[0]] of the first site, then for each further site
    [dag(M1[i]) * op[i] * ret_t * M2[i]], in the order of the loop. *)
Fixpoint overlap_rest `{K : TensorKernel} (M1 op M2 : list ITensor)
    (ret_t : ITensor) : ITensor :=
  match M1, op, M2 with
  | m1 :: M1', o :: op', m2 :: M2' =>
      overlap_rest M1' op' M2' (tmul (tmul (tmul (dag m1) o) ret_t) m2)
  | _, _, _ => ret_t
  end.

Definition overlap_chain `{K : TensorKernel} (M1 op M2 : list ITensor)
  : option ITensor :=
  match M1, op, M2 with
  | m1 :: M1', o :: op', m2 :: M2' =>
      Some (overlap_rest M1' op' M2' (tmul (tmul (dag m1) o) m2))
  | _, _, _ => None
  end.

(** The tensors that are written entry by entry. *)
Inductive made `{K : TensorKernel} : ITensor → Prop :=
| made_new (ixs : list Index) : made (mkITensor ixs)
| made_set (t : ITensor) ivs z : made t → made (tset t ivs z).

(** The values the entries of the gates take. *)
Definition gate_values `{K : TensorKernel} : list Cplx :=
  [C0; C1; Copp C1; Ci; Copp Ci].

(** Laws of the sums, multiples and products of tensors: a sum, a
    difference or a multiple has the indices of its operand and is taken
    entry by entry; the product of two tensors that share no index is their
    outer product; and the arithmetic of 0 and 1 on the entries of the
    gates. *)
Record linear_laws (K : TensorKernel) (L : TensorLinear K) : Prop := {
  inds_tadd : ∀ x y : ITensor,
    inds x ≠ [] → inds x = inds y → inds (tadd x y) = inds x;
  inds_tsub : ∀ x y : ITensor,
    inds x ≠ [] → inds x = inds y → inds (tsub x y) = inds x;
  inds_tscale : ∀ (r : Real) (x : ITensor), inds (tscale r x) = inds x;
  elt_tadd : ∀ (x y : ITensor) q,
    inds x ≠ [] → inds x = inds y →
    elt (tadd x y) q = Cadd (elt x q) (elt y q);
  elt_tsub : ∀ (x y : ITensor) q,
    inds x ≠ [] → inds x = inds y →
    elt (tsub x y) q = Csub (elt x q) (elt y q);
  elt_tscale : ∀ (r : Real) (x : ITensor) q,
    elt (tscale r x) q = Cscale r (elt x q);
  elt_outer : ∀ (x y : ITensor) q,
    made x → made y → inds x ≠ [] → inds y ≠ [] →
    (∀ i, i ∈ inds x → i ∉ inds y) →
    elt (tmul x y) q = Cmul (elt x q) (elt y q);
  Cadd_C0_r : ∀ z, z ∈ gate_values → Cadd z C0 = z;
  Cadd_C0_l : ∀ z, z ∈ gate_values → Cadd C0 z = z;
  Csub_C0_r : ∀ z, z ∈ gate_values → Csub z C0 = z;
  Csub_C0_C1 : Csub C0 C1 = Copp C1;
  Cmul_C1_l : ∀ z, z ∈ gate_values → Cmul C1 z = z;
  Cmul_C0_l : ∀ z, Cmul C0 z = C0;
  Cscale_C0 : ∀ r, Cscale r C0 = C0;
  Cadd_scaled_r : ∀ r z, Cadd (Cscale r z) C0 = Cscale r z;
  Cadd_scaled_l : ∀ r z, Cadd C0 (Cscale r z) = Cscale r z
}.

(** A table of the reference kernel as [set] leaves it: one entry for a key,
    each key an argument list read along the indices. *)
Definition Ref_tidy (t : Ref.tensor) : Prop :=
  match t with
  | Ref.Null => True
  | Ref.Tens ix el =>
      NoDup (map fst el) ∧
      Forall (fun e => ∃ ivs, fst e = Ref.key_of ix ivs) el
  end.

(** The two-site gates that apply a one-site gate to the second site when
    the first is in its state 1. *)
Definition controlled_gates `{K : TensorKernel} `{L : !TensorLinear K}
  : list (Index → Index → ITensor) :=
  [Gate.CNOT; Gate.CY; Gate.CZ].

(** ** Concrete circuits on the reference kernel *)

Module Scenario.
Import Ref.

(** two sites joined by link 0 *)
Definition chain2 : CircuitTopology :=
  {| numberOfBits := 2; numberOfLinks := 1;
     neighborsOf := fun i =>
       match i with
       | 0 => [Build_Neighbor 1 0]
       | 1 => [Build_Neighbor 0 0]
       | _ => []
       end |}.

(** the chain 0 - 1 - 2 *)
Definition chain3 : CircuitTopology :=
  {| numberOfBits := 3; numberOfLinks := 2;
     neighborsOf := fun i =>
       match i with
       | 0 => [Build_Neighbor 1 0]
       | 1 => [Build_Neighbor 0 0; Build_Neighbor 2 1]
       | 2 => [Build_Neighbor 1 1]
       | _ => []
       end |}.

(** the chain 0 - 1 - 2 - 3 *)
Definition chain4 : CircuitTopology :=
  {| numberOfBits := 4; numberOfLinks := 3;
     neighborsOf := fun i =>
       match i with
       | 0 => [Build_Neighbor 1 0]
       | 1 => [Build_Neighbor 0 0; Build_Neighbor 2 1]
       | 2 => [Build_Neighbor 1 1; Build_Neighbor 3 2]
       | 3 => [Build_Neighbor 2 2]
       | _ => []
       end |}.

(** the chain 2 - 0 - 1 *)
Definition fork3 : CircuitTopology :=
  {| numberOfBits := 3; numberOfLinks := 2;
     neighborsOf := fun i =>
       match i with
       | 0 => [Build_Neighbor 1 0; Build_Neighbor 2 1]
       | 1 => [Build_Neighbor 0 0]
       | 2 => [Build_Neighbor 0 1]
       | _ => []
       end |}.

(** the amplitudes of |0> *)
Definition ket0 : complex * complex := (c1, c0).

Definition built (r : outcome (QCircuitOf index tensor * nat))
  : QCircuitOf index tensor :=
  match r with
  | Ok (c, _) => c
  | _ => mkQCircuit chain2 [] [] [] Null (0, 0)
  end.

(** |00> on [chain2], |000> on [chain3] and on [fork3] *)
Definition chain2_state : QCircuitOf index tensor :=
  built (QCircuit_new chain2 [ket0; ket0] [] 0).
Definition chain3_state : QCircuitOf index tensor :=
  built (QCircuit_new chain3 [ket0; ket0; ket0] [] 0).
Definition fork3_state : QCircuitOf index tensor :=
  built (QCircuit_new fork3 [ket0; ket0; ket0] [] 0).
Definition chain4_state : QCircuitOf index tensor :=
  built (QCircuit_new chain4 [ket0; ket0; ket0; ket0] [] 0).

(** the site indices the constructor makes on [chain2] *)
Definition site0 : index := mkIndex 2 2 0 "SiteInd".
Definition site1 : index := mkIndex 3 2 0 "SiteInd".

(** A two-site gate with rational entries: the rotation that takes |00> to
    (3/5)|00> + (4/5)|11> and |11> to -(4/5)|00> + (3/5)|11>, the identity
    on |01> and |10>. *)
Definition rot (s0 s1 : index) : tensor :=
  let p0 := prime_index s0 in
  let p1 := prime_index s1 in
  let t := Tens [s0; s1; p0; p1] [] in
  let t := tensor_set t [(s0, 1); (s1, 1); (p0, 1); (p1, 1)] (3 # 5, 0)%Q in
  let t := tensor_set t [(s0, 2); (s1, 2); (p0, 1); (p1, 1)] (4 # 5, 0)%Q in
  let t := tensor_set t [(s0, 1); (s1, 1); (p0, 2); (p1, 2)] (- 4 # 5, 0)%Q in
  let t := tensor_set t [(s0, 2); (s1, 2); (p0, 2); (p1, 2)] (3 # 5, 0)%Q in
  let t := tensor_set t [(s0, 1); (s1, 2); (p0, 1); (p1, 2)] (1, 0)%Q in
  let t := tensor_set t [(s0, 2); (s1, 1); (p0, 2); (p1, 1)] (1, 0)%Q in
  t.

(** (3/5)|00> + (4/5)|11>: [apply(rot)] on |00> *)
Definition entangled_state : QCircuitOf index tensor :=
  match apply (rot site0 site1) chain2_state with
  | Ok (_, c) => c
  | _ => chain2_state
  end.

(** [op * prime(Psi, s0, s1)] for that gate on |00> *)
Definition rotated_Psi : tensor :=
  tensor_mul (rot site0 site1)
    (tensor_prime_some (Psi chain2_state) [site0; site1]).

(** three site indices, one more than [chain2] has sites *)
Definition three_indices : list index := [site0; site1; prime_index site0].

(** [decomposePsi] on it, keeping at most [m] singular values; the state the
    call leaves; the weight its SVD reports as discarded *)
Definition truncated_run (m : nat)
  : outcome (unit * QCircuitOf index tensor * nat) :=
  decomposePsi (mkArgs m 0) entangled_state 3.

Definition truncated_state (m : nat) : QCircuitOf index tensor :=
  match truncated_run m with
  | Ok (_, c, _) => c
  | _ => entangled_state
  end.

Definition discarded_weight (m : nat) : Q :=
  truncerr (tensor_svd (Psi entangled_state) (Tens [site0] []) Null Null
              (mkArgs m 0) 3).1.1.1.1.

(** the cursor after a walk: [shift_to] each site of the list in turn *)
Fixpoint walk (sites : list nat) (c : QCircuitOf index tensor) (w : nat)
  : outcome (nat * nat) :=
  match sites with
  | [] => Ok (cursor c)
  | ind :: sites' =>
      obind (shift_to ind (mkArgs 2 0) c w)
        (fun r => walk sites' r.1.2 r.2)
  end.

(** the product of the two factors under the cursor *)
Definition stored_product (c : QCircuitOf index tensor) : tensor :=
  tensor_mul (default Null (M c !! fst (cursor c)))
             (default Null (M c !! snd (cursor c))).

(** a centre, site 1, with four neighbours *)
Definition star5 : CircuitTopology :=
  {| numberOfBits := 5; numberOfLinks := 4;
     neighborsOf := fun i =>
       match i with
       | 0 => [Build_Neighbor 1 0]
       | 1 => [Build_Neighbor 0 0; Build_Neighbor 2 1;
               Build_Neighbor 3 2; Build_Neighbor 4 3]
       | 2 => [Build_Neighbor 1 1]
       | 3 => [Build_Neighbor 1 2]
       | 4 => [Build_Neighbor 1 3]
       | _ => []
       end |}.


(** the chain 0 - 2 - 1, whose sites 0 and 1 are not neighbours *)
Definition apart3 : CircuitTopology :=
  {| numberOfBits := 3; numberOfLinks := 2;
     neighborsOf := fun i =>
       match i with
       | 0 => [Build_Neighbor 2 0]
       | 1 => [Build_Neighbor 2 1]
       | 2 => [Build_Neighbor 0 0; Build_Neighbor 1 1]
       | _ => []
       end |}.

(** the result of a [shift_to]: spectrum, circuit and world *)
Definition shifted (r : outcome (spectrum * QCircuitOf index tensor * nat))
  : spectrum * QCircuitOf index tensor * nat :=
  match r with
  | Ok x => x
  | _ => (null_spectrum, chain2_state, 0)
  end.

(** [shift_to(2)] on |000> over [chain3] *)
Definition chain3_moved : spectrum * QCircuitOf index tensor * nat :=
  shifted (shift_to 2 (mkArgs 2 0) chain3_state 5).

(** the amplitudes of |1>, and |10> on [chain2] *)
Definition ket1 : complex * complex := (c0, c1).
Definition one_zero_state : QCircuitOf index tensor :=
  built (QCircuit_new chain2 [ket1; ket0] [] 0).

(** [Psi] after [apply(op)], the null tensor if the call stops *)
Definition Psi_after (op : tensor) (c : QCircuitOf index tensor) : tensor :=
  match apply op c with
  | Ok (_, c') => Psi c'
  | _ => Null
  end.

(** the site indices the constructor makes on [chain3] and on [fork3] *)
Definition site3_0 : index := mkIndex 3 2 0 "SiteInd".

(** 2|000> on [fork3]: the amplitudes of site 0 are (2, 0) *)
Definition fork3_doubled : QCircuitOf index tensor :=
  built (QCircuit_new fork3 [((2, 0)%Q, c0); ket0; ket0] [] 0).

(** the state of [chain2] whose first site has the amplitudes (0, 0): [Psi]
    is zero; the factors [S] and [V] its SVD gives *)
Definition zero_state : QCircuitOf index tensor :=
  built (QCircuit_new chain2 [(c0, c0); ket0] [] 0).
Definition zero_S : tensor :=
  (tensor_svd (Psi zero_state) (Tens [site0] []) Null Null (mkArgs 2 0) 3).1.1.2.
Definition zero_V : tensor :=
  (tensor_svd (Psi zero_state) (Tens [site0] []) Null Null (mkArgs 2 0) 3).1.2.

(** what [decomposePsi] leaves of it *)
Definition zero_refactored : QCircuitOf index tensor :=
  match decomposePsi (mkArgs 2 0) zero_state 3 with
  | Ok (_, c, _) => c
  | _ => zero_state
  end.



(** [Id(s[i])] for every site *)
Definition identities (c : QCircuitOf index tensor) : list tensor :=
  map (Id (K := kernel)) (s c).

(** a second |00> on [chain2], built after the first: its indices are new *)
Definition chain2_again : QCircuitOf index tensor :=
  built (QCircuit_new chain2 [ket0; ket0] [] 3).

End Scenario.

(** Closes a goal that a decision procedure settles by evaluation. *)
Ltac by_evaluation := apply (bool_decide_unpack _); vm_compute; exact I.

(** ** The vector and list helpers *)

Section Helpers.
Context {A : Type}.

Lemma vec_at_Some name (v : list A) i x :
  v !! i = Some x → vec_at name v i = Ok x.
Proof. unfold vec_at. by intros ->. Qed.

Lemma vec_at_None name (v : list A) i :
  length v ≤ i → vec_at name v i = OutOfRange name i.
Proof. intros H. unfold vec_at. by rewrite (lookup_ge_None_2 v i H). Qed.

Lemma vec_assign_lt name (v : list A) i x :
  i < length v → vec_assign name v i x = Ok (<[i:=x]> v).
Proof. intros H. unfold vec_assign. by rewrite decide_True. Qed.

Lemma vec_assign_ge name (v : list A) i x :
  length v ≤ i → vec_assign name v i x = OutOfRange name i.
Proof. intros H. unfold vec_assign. rewrite decide_False; [done | lia]. Qed.

End Helpers.

Lemma remove_if_filter y l :
  remove_if (fun t => site t =? y) l = filter (fun n => site n ≠ y) l.
Proof.
  induction l as [|n l IH]; [done|]. simpl.
  destruct (Nat.eqb_spec (site n) y) as [E|E].
  - rewrite filter_cons_False; [done | by intros H; apply H].
  - rewrite filter_cons_True; [by rewrite IH | done].
Qed.

Lemma scan_flag_hit ind l v flag :
  ind ∈ site <$> l → scan_flag ind l v flag = v.
Proof.
  induction l as [|n l IH]; simpl; [by intros ?%elem_of_nil|].
  intros [E|H]%elem_of_cons.
  - by rewrite E, Nat.eqb_refl.
  - destruct (site n =? ind); [done | by apply IH].
Qed.

Lemma scan_flag_miss ind l v flag :
  ind ∉ site <$> l → scan_flag ind l v flag = flag.
Proof.
  induction l as [|n l IH]; simpl; [done|].
  intros H. apply not_elem_of_cons in H as [H1 H2].
  destruct (Nat.eqb_spec (site n) ind) as [E|E]; [congruence | by apply IH].
Qed.

Lemma last_link_miss x l d :
  x ∉ site <$> l → last_link x l d = d.
Proof.
  revert d. induction l as [|n l IH]; simpl; intros d H; [done|].
  apply not_elem_of_cons in H as [H1 H2].
  destruct (Nat.eqb_spec (site n) x) as [E|E]; [congruence | by apply IH].
Qed.

Lemma last_link_unique x e l d :
  NoDup (site <$> l) → Build_Neighbor x e ∈ l → last_link x l d = e.
Proof.
  revert d. induction l as [|n l IH]; simpl; intros d Hnd Hin.
  - by apply elem_of_nil in Hin.
  - apply NoDup_cons in Hnd as [Hn Hnd].
    apply elem_of_cons in Hin as [<-|Hin].
    + simpl. rewrite Nat.eqb_refl. by apply last_link_miss.
    + destruct (Nat.eqb_spec (site n) x) as [E|E]; [|by apply IH].
      exfalso. apply Hn. rewrite E.
      change x with (site (Build_Neighbor x e)). by apply list_elem_of_fmap_2.
Qed.

Lemma find_if_unique x e l pos :
  NoDup (site <$> l) → Build_Neighbor x e ∈ l →
  find_if (fun n => site n =? x) l pos = Ok (Build_Neighbor x e).
Proof.
  revert pos. induction l as [|n l IH]; simpl; intros pos Hnd Hin.
  - by apply elem_of_nil in Hin.
  - apply NoDup_cons in Hnd as [Hn Hnd].
    apply elem_of_cons in Hin as [<-|Hin].
    + simpl. by rewrite Nat.eqb_refl.
    + destruct (Nat.eqb_spec (site n) x) as [E|E]; [|by apply IH].
      exfalso. apply Hn. rewrite E.
      change x with (site (Build_Neighbor x e)). by apply list_elem_of_fmap_2.
Qed.

Lemma filter_drops_neighbor y e (l : list Neighbor) :
  Build_Neighbor y e ∈ l →
  length (filter (fun n => site n ≠ y) l) < length l.
Proof.
  intros Hin. apply (length_filter_lt _ _ _ Hin). simpl. by intros H.
Qed.

(** ** The boolean checks are sound *)

Lemma topology_okb_sound t : topology_okb t = true → topology_ok t.
Proof.
  unfold topology_okb. rewrite forallb_forall. intros H.
  assert (Hi : ∀ i, i < numberOfBits t → site_okb t i = true).
  { intros i Hi. apply H, in_seq. lia. }
  clear H.
  split; intros i;
    [intros Hlt | intros n Hlt Hn | intros n Hlt Hn | intros Hlt
     | intros n Hlt Hn];
    specialize (Hi i Hlt); unfold site_okb in Hi;
    rewrite !andb_true_iff in Hi; destruct Hi as [[[Hlo Hhi] Hall] Hnd].
  - apply Nat.leb_le in Hlo, Hhi. done.
  - rewrite forallb_forall in Hall. apply list_elem_of_In, Hall in Hn.
    rewrite !andb_true_iff in Hn. destruct Hn as [[Hn _] _].
    by apply Nat.ltb_lt in Hn.
  - rewrite forallb_forall in Hall. apply list_elem_of_In, Hall in Hn.
    rewrite !andb_true_iff in Hn. destruct Hn as [[_ Hn] _].
    by apply Nat.ltb_lt in Hn.
  - by apply bool_decide_eq_true in Hnd.
  - rewrite forallb_forall in Hall. apply list_elem_of_In, Hall in Hn.
    rewrite !andb_true_iff in Hn. destruct Hn as [_ Hn].
    by apply bool_decide_eq_true in Hn.
Qed.

Lemma state_okb_sound {Ix T : Type} (c : QCircuitOf Ix T) :
  state_okb c = true → state_ok c.
Proof.
  unfold state_okb. rewrite !andb_true_iff.
  intros [[[[[[Ht Ha] Hs] HM] Hf] Hsd] He].
  split.
  - by apply topology_okb_sound.
  - by apply Nat.eqb_eq.
  - by apply Nat.leb_le.
  - by apply Nat.eqb_eq.
  - by apply Nat.ltb_lt.
  - by apply Nat.ltb_lt.
  - by apply bool_decide_eq_true in He.
Qed.

(** ** Edges of an accepted topology *)

Lemma adjacent_link t i j : adjacent t i j → ∃ e, link_between t i j e.
Proof.
  intros (n & -> & Hn)%list_elem_of_fmap_1. exists (link n).
  unfold link_between. by destruct n.
Qed.

Lemma link_adjacent t i j e : link_between t i j e → adjacent t i j.
Proof.
  intros H. unfold adjacent.
  change j with (site (Build_Neighbor j e)). by apply list_elem_of_fmap_2.
Qed.

Lemma link_back t i j e :
  topology_ok t → i < numberOfBits t →
  link_between t i j e → link_between t j i e.
Proof. intros Ht Hi H. apply (topo_undirected t Ht i _ Hi H). Qed.

Lemma cursor_edge {Ix T : Type} (c : QCircuitOf Ix T) :
  state_ok c →
  ∃ e, link_between (topology c) (fst (cursor c)) (snd (cursor c)) e ∧
       link_between (topology c) (snd (cursor c)) (fst (cursor c)) e.
Proof.
  intros Hok. destruct (adjacent_link _ _ _ (ok_edge c Hok)) as [e He].
  exists e. split; [done|].
  by apply (link_back _ _ _ _ (ok_topology c Hok) (ok_first c Hok)).
Qed.

(** ** [decomposePsi] and [shift_to] on a contracted configuration *)

Section Runs.
Context {K : TensorKernel}.


Lemma link_indices_exist (av : list Index) (nl : list Neighbor) :
  (∀ n, n ∈ nl → link n < length av) →
  ∃ ls, Forall2 (fun n l => av !! link n = Some l) nl ls.
Proof.
  induction nl as [|n nl IH]; intros H.
  - exists []. constructor.
  - destruct IH as [ls Hls].
    { intros m Hm. apply H. by right. }
    destruct (lookup_lt_is_Some_2 av (link n)) as [l Hl].
    { apply H. by left. }
    exists (l :: ls). by constructor.
Qed.

Lemma side_template_ok (c : QCircuit) x nl sx ls :
  s c !! x = Some sx →
  Forall2 (fun n l => a c !! link n = Some l) nl ls →
  length nl ≤ 2 →
  side_template c x nl = Ok (mkITensor (sx :: ls)).
Proof.
  intros Hs Hls Hlen. unfold side_template.
  rewrite (vec_at_Some _ _ _ _ Hs).
  destruct Hls as [|n0 l0 nl ls H0 Hls]; [done|].
  destruct Hls as [|n1 l1 nl ls H1 Hls];
    [by simpl; rewrite (vec_at_Some _ _ _ _ H0)|].
  destruct Hls as [|n2 l2 nl ls H2 Hls]; [|simpl in Hlen; lia].
  simpl. by rewrite (vec_at_Some _ _ _ _ H0), (vec_at_Some _ _ _ _ H1).
Qed.

(** On a contracted configuration the side of [x] facing away from a
    neighbour [y] has at most two links, all of them bound. *)
Lemma side_indices_exist (c : QCircuit) x y e :
  state_ok c → x < numberOfBits (topology c) →
  link_between (topology c) x y e →
  length (filter (fun n => site n ≠ y) (neighborsOf (topology c) x)) ≤ 2 ∧
  ∃ ixs, side_indices c x y ixs.
Proof.
  intros Hok Hx He. pose proof (ok_topology c Hok) as Ht.
  split.
  - pose proof (filter_drops_neighbor _ _ _ He).
    destruct (topo_degree _ Ht x Hx). lia.
  - destruct (lookup_lt_is_Some_2 (s c) x) as [sx Hsx].
    { pose proof (ok_s c Hok). lia. }
    destruct (link_indices_exist (a c)
      (filter (fun n => site n ≠ y) (neighborsOf (topology c) x))) as [ls Hls].
    { intros n [_ Hn]%list_elem_of_filter. rewrite (ok_a c Hok).
      by apply (topo_links _ Ht x). }
    exists (sx :: ls), sx, ls. done.
Qed.

Lemma decomposePsi_run (c : QCircuit) args w :
  state_ok c → refactored c args w.
Proof.
  intros Hok. pose proof (ok_topology c Hok) as Ht.
  destruct (cursor_edge c Hok) as (e & He & _).
  destruct (side_indices_exist c _ _ e Hok (ok_first c Hok) He)
    as (Hlen & ixs & Hixs).
  exists ixs, e. split; [done|]. split; [done|].
  intros spec U Sv V w' Hsvd.
  destruct Hixs as (sx & ls & Hsx & Hls & ->).
  unfold decomposePsi.
  rewrite (find_if_unique _ e);
    [| apply (topo_simple _ Ht), (ok_first c Hok) | apply He].
  simpl. rewrite remove_if_filter.
  rewrite (side_template_ok c _ _ sx ls) by done.
  simpl. rewrite Hsvd.
  rewrite vec_assign_lt.
  2:{ rewrite (ok_a c Hok). apply (topo_links _ Ht _ _ (ok_first c Hok) He). }
  simpl. rewrite vec_assign_lt by (rewrite (ok_M c Hok); apply (ok_first c Hok)).
  simpl. rewrite vec_assign_lt; [done|].
  rewrite length_insert, (ok_M c Hok). apply (ok_second c Hok).
Qed.

Lemma shift_to_run_A (c : QCircuit) ind args w :
  state_ok c →
  ind ≠ fst (cursor c) → ind ≠ snd (cursor c) →
  adjacent (topology c) (fst (cursor c)) ind →
  ¬ adjacent (topology c) (snd (cursor c)) ind →
  shifted_through_first c ind args w.
Proof.
  intros Hok Hf Hs Hadj Hnadj. pose proof (ok_topology c Hok) as Ht.
  destruct (cursor_edge c Hok) as (e & He1 & He2).
  destruct (side_indices_exist c _ _ e Hok (ok_second c Hok) He2)
    as (Hlen & ixs & Hixs).
  assert (Hind : ind < numberOfBits (topology c)).
  { apply list_elem_of_fmap_1 in Hadj as (n & -> & Hn).
    apply (topo_sites _ Ht _ _ (ok_first c Hok) Hn). }
  destruct (lookup_lt_is_Some_2 (M c) ind) as [m Hm].
  { by rewrite (ok_M c Hok). }
  exists ixs, e, m. do 4 (split; [done|]).
  intros spec U Sv V w' Hsvd.
  destruct Hixs as (sx & ls & Hsx & Hls & ->).
  unfold shift_to.
  rewrite (proj2 (Nat.eqb_neq _ _) Hf), (proj2 (Nat.eqb_neq _ _) Hs). simpl.
  rewrite (scan_flag_hit _ _ _ _ Hadj), (scan_flag_miss _ _ _ _ Hnadj).
  rewrite (last_link_unique _ e);
    [| apply (topo_simple _ Ht), (ok_second c Hok) | apply He2].
  rewrite remove_if_filter.
  rewrite (side_template_ok c _ _ sx ls) by done.
  simpl. rewrite Hsvd.
  rewrite vec_assign_lt.
  2:{ rewrite (ok_a c Hok). apply (topo_links _ Ht _ _ (ok_first c Hok) He1). }
  simpl. rewrite vec_assign_lt by (rewrite (ok_M c Hok); apply (ok_second c Hok)).
  simpl. rewrite (vec_at_Some _ _ _ m); [done|].
  by rewrite list_lookup_insert_ne.
Qed.

Lemma shift_to_run_B (c : QCircuit) ind args w :
  state_ok c →
  ind ≠ fst (cursor c) → ind ≠ snd (cursor c) →
  adjacent (topology c) (snd (cursor c)) ind →
  shifted_through_second c ind args w.
Proof.
  intros Hok Hf Hs Hadj. pose proof (ok_topology c Hok) as Ht.
  destruct (cursor_edge c Hok) as (e & He1 & He2).
  destruct (side_indices_exist c _ _ e Hok (ok_first c Hok) He1)
    as (Hlen & ixs & Hixs).
  assert (Hind : ind < numberOfBits (topology c)).
  { apply list_elem_of_fmap_1 in Hadj as (n & -> & Hn).
    apply (topo_sites _ Ht _ _ (ok_second c Hok) Hn). }
  destruct (lookup_lt_is_Some_2 (M c) ind) as [m Hm].
  { by rewrite (ok_M c Hok). }
  exists ixs, e, m. do 4 (split; [done|]).
  intros spec U Sv V w' Hsvd.
  destruct Hixs as (sx & ls & Hsx & Hls & ->).
  unfold shift_to.
  rewrite (proj2 (Nat.eqb_neq _ _) Hf), (proj2 (Nat.eqb_neq _ _) Hs). simpl.
  rewrite (scan_flag_hit _ _ 2 _ Hadj).
  rewrite (last_link_unique _ e);
    [| apply (topo_simple _ Ht), (ok_first c Hok) | apply He1].
  rewrite remove_if_filter.
  rewrite (side_template_ok c _ _ sx ls) by done.
  simpl. rewrite Hsvd.
  rewrite vec_assign_lt.
  2:{ rewrite (ok_a c Hok). apply (topo_links _ Ht _ _ (ok_first c Hok) He1). }
  simpl. rewrite vec_assign_lt by (rewrite (ok_M c Hok); apply (ok_first c Hok)).
  simpl. rewrite (vec_at_Some _ _ _ m); [done|].
  by rewrite list_lookup_insert_ne.
Qed.

End Runs.

(** ** The constructor *)

Section Constructor.
Context {K : TensorKernel}.

Lemma emplace_indices_length n dim tag (v : list Index) w :
  length (emplace_indices n dim tag v w).1 = length v + n.
Proof.
  revert v w. induction n as [|n IH]; intros v w; simpl; [lia|].
  destruct (newIndex dim tag w) as [ix w']. rewrite IH, length_app. simpl. lia.
Qed.

Lemma link_indices_ok (av : list Index) nl ls :
  Forall2 (fun n l => av !! link n = Some l) nl ls →
  link_indices av nl = Ok ls.
Proof.
  induction 1 as [|n l nl ls Hl _ IH]; [done|].
  simpl. by rewrite (vec_at_Some _ _ _ _ Hl), IH.
Qed.

Lemma init_site_pushed topo av sv init_qbits (Mv : list ITensor) i si ls :
  1 ≤ length (neighborsOf topo i) ∧ length (neighborsOf topo i) ≤ 3 →
  length Mv = i →
  sv !! i = Some si →
  Forall2 (fun n l => av !! link n = Some l) (neighborsOf topo i) ls →
  init_site topo av sv init_qbits Mv i =
    match init_qbits !! i with
    | Some q => Ok (Mv ++ [site_tensor si ls q])
    | None => OutOfRange "init_qbits" i
    end.
Proof.
  intros [Hlo Hhi] HM Hs Hls. unfold init_site.
  destruct (length (neighborsOf topo i)) as [|[|[|[|?]]]] eqn:E; try lia.
  all: rewrite (vec_at_Some _ _ _ _ Hs); simpl;
    rewrite (link_indices_ok _ _ _ Hls); simpl;
    rewrite (vec_at_Some _ (Mv ++ _) i (mkITensor (si :: ls)))
      by (subst i; apply list_lookup_middle; done); simpl;
    unfold vec_at at 1; destruct (init_qbits !! i) as [q|] eqn:Eq; [|done]; simpl;
    rewrite vec_assign_lt by (rewrite length_app; simpl; lia); simpl;
    subst i; rewrite insert_app_r_alt, Nat.sub_diag by done; simpl;
    rewrite (vec_at_Some _ (Mv ++ _) (length Mv) _)
      by (apply list_lookup_middle; done); simpl;
    unfold vec_at; rewrite Eq; simpl;
    rewrite vec_assign_lt by (rewrite length_app; simpl; lia);
    rewrite insert_app_r_alt, Nat.sub_diag by done; done.
Qed.

Lemma init_site_no_site topo av sv init_qbits (Mv : list ITensor) i :
  1 ≤ length (neighborsOf topo i) ∧ length (neighborsOf topo i) ≤ 3 →
  length sv ≤ i →
  init_site topo av sv init_qbits Mv i = OutOfRange "s" i.
Proof.
  intros [Hlo Hhi] Hs. unfold init_site.
  destruct (length (neighborsOf topo i)) as [|[|[|[|?]]]]; try lia.
  all: by rewrite (vec_at_None _ _ _ Hs).
Qed.

Lemma init_site_ext topo av sv q1 q2 (Mv : list ITensor) i :
  q1 !! i = q2 !! i →
  init_site topo av sv q1 Mv i = init_site topo av sv q2 Mv i.
Proof. intros H. unfold init_site, vec_at. by rewrite H. Qed.

Lemma init_sites_ext topo av sv q1 q2 n from (Mv : list ITensor) :
  (∀ i, from ≤ i < from + n → q1 !! i = q2 !! i) →
  init_sites topo av sv q1 n from Mv = init_sites topo av sv q2 n from Mv.
Proof.
  revert from Mv. induction n as [|n IH]; intros from Mv H; [done|].
  simpl. rewrite (init_site_ext _ _ _ q1 q2) by (apply H; lia).
  destruct (init_site topo av sv q2 Mv from); [|done..].
  simpl. apply IH. intros i Hi. apply H. lia.
Qed.

Lemma init_sites_app topo av sv q n1 n2 from (Mv : list ITensor) :
  init_sites topo av sv q (n1 + n2) from Mv =
  obind (init_sites topo av sv q n1 from Mv)
        (init_sites topo av sv q n2 (from + n1)).
Proof.
  revert from Mv. induction n1 as [|n1 IH]; intros from Mv; simpl.
  - by rewrite Nat.add_0_r.
  - destruct (init_site topo av sv q Mv from); [|done..].
    simpl. rewrite IH. by replace (S from + n1) with (from + S n1) by lia.
Qed.

(** The loop runs through every site whose degree is accepted and whose
    indices and amplitudes are there. *)
Lemma init_sites_ok topo av sv q n from (Mv : list ITensor) :
  topology_ok topo → length av = numberOfLinks topo →
  from + n ≤ numberOfBits topo →
  from + n ≤ length sv → from + n ≤ length q →
  length Mv = from →
  ∃ Mv', init_sites topo av sv q n from Mv = Ok Mv' ∧ length Mv' = from + n.
Proof.
  intros Ht Ha. revert from Mv. induction n as [|n IH]; intros from Mv HN Hs Hq HM.
  - exists Mv. split; [done | lia].
  - simpl.
    destruct (lookup_lt_is_Some_2 sv from) as [si Hsi]; [lia|].
    destruct (lookup_lt_is_Some_2 q from) as [qi Hqi]; [lia|].
    destruct (link_indices_exist av (neighborsOf topo from)) as [ls Hls].
    { intros m Hm. rewrite Ha. apply (topo_links _ Ht from); [lia | done]. }
    rewrite (init_site_pushed _ _ _ _ _ _ si ls), Hqi;
      [| apply (topo_degree _ Ht); lia | done..].
    simpl. destruct (IH (S from) (Mv ++ [site_tensor si ls qi])) as (Mv' & E & L);
      [lia.. | rewrite length_app; simpl; lia |].
    exists Mv'. split; [done | lia].
Qed.

(** It stops at the first site whose site index is missing ... *)
Lemma init_sites_short_s topo av sv q n :
  topology_ok topo → length av = numberOfLinks topo →
  n ≤ numberOfBits topo →
  length sv < n → length sv ≤ length q →
  init_sites topo av sv q n 0 [] = OutOfRange "s" (length sv).
Proof.
  intros Ht Ha HN Hs Hq.
  replace n with (length sv + (n - length sv)) by lia.
  rewrite init_sites_app.
  destruct (init_sites_ok topo av sv q (length sv) 0 []) as (Mv' & -> & _);
    [done | done | simpl; lia.. | done |].
  simpl. destruct (n - length sv) as [|d] eqn:E; [lia|].
  simpl. rewrite init_site_no_site; [done | | done].
  apply (topo_degree _ Ht). lia.
Qed.

(** ... or whose amplitudes are missing. *)
Lemma init_sites_short_q topo av sv q n :
  topology_ok topo → length av = numberOfLinks topo →
  n ≤ numberOfBits topo →
  length q < n → length q < length sv →
  init_sites topo av sv q n 0 [] = OutOfRange "init_qbits" (length q).
Proof.
  intros Ht Ha HN Hq Hs.
  replace n with (length q + (n - length q)) by lia.
  rewrite init_sites_app.
  destruct (init_sites_ok topo av sv q (length q) 0 []) as (Mv' & -> & HM);
    [done | done | simpl; lia.. | done |].
  simpl. destruct (n - length q) as [|d] eqn:E; [lia|].
  simpl.
  destruct (lookup_lt_is_Some_2 sv (length q)) as [si Hsi]; [lia|].
  destruct (link_indices_exist av (neighborsOf topo (length q))) as [ls Hls].
  { intros m Hm. rewrite Ha. apply (topo_links _ Ht (length q)); [lia | done]. }
  rewrite (init_site_pushed _ _ _ _ _ _ si ls);
    [| apply (topo_degree _ Ht); lia | done..].
  by rewrite (lookup_ge_None_2 q (length q)).
Qed.

Lemma QCircuit_new_take topo q (phys : list Index) w :
  numberOfBits topo ≤ length q →
  QCircuit_new topo q phys w = QCircuit_new topo (take (numberOfBits topo) q) phys w.
Proof.
  intros Hq. unfold QCircuit_new.
  destruct (emplace_indices (numberOfLinks topo) 1 "LinkInd" [] w) as [av w1].
  destruct (match phys with
            | [] => emplace_indices (numberOfBits topo) 2 "SiteInd" phys w1
            | _ :: _ => (phys, w1)
            end) as [sv w2].
  rewrite (init_sites_ext _ _ _ q (take (numberOfBits topo) q)); [done|].
  intros i Hi. by rewrite lookup_take_lt by lia.
Qed.

Lemma QCircuit_new_ok topo q (phys : list Index) w :
  topology_ok topo → 2 ≤ numberOfBits topo →
  numberOfBits topo ≤ length q →
  phys = [] ∨ numberOfBits topo ≤ length phys →
  ∃ c w',
    QCircuit_new topo q phys w = Ok (c, w') ∧
    topology c = topo ∧ cursor c = (0, 1) ∧
    length (a c) = numberOfLinks topo ∧
    numberOfBits topo ≤ length (s c) ∧
    length (M c) = numberOfBits topo ∧
    (phys ≠ [] → s c = phys).
Proof.
  intros Ht HN Hq Hphys. unfold QCircuit_new.
  pose proof (emplace_indices_length (numberOfLinks topo) 1 "LinkInd" [] w) as La.
  destruct (emplace_indices (numberOfLinks topo) 1 "LinkInd" [] w) as [av w1].
  simpl in La.
  assert (∃ sv w2,
    match phys with
    | [] => emplace_indices (numberOfBits topo) 2 "SiteInd" phys w1
    | _ :: _ => (phys, w1)
    end = (sv, w2) ∧ numberOfBits topo ≤ length sv ∧ (phys ≠ [] → sv = phys))
    as (sv & w2 & -> & Ls & Hsv).
  { destruct phys as [|p phys].
    - pose proof (emplace_indices_length (numberOfBits topo) 2 "SiteInd" [] w1) as L.
      destruct (emplace_indices (numberOfBits topo) 2 "SiteInd" [] w1) as [sv w2].
      exists sv, w2. simpl in L. split; [done|]. split; [lia | done].
    - exists (p :: phys), w1. destruct Hphys as [?|?]; [done|]. done. }
  destruct (init_sites_ok topo av sv q (numberOfBits topo) 0 []) as (Mv & -> & LM);
    [done | done | simpl; lia.. | done |].
  simpl in *.
  destruct (lookup_lt_is_Some_2 Mv 0) as [m0 H0]; [lia|].
  destruct (lookup_lt_is_Some_2 Mv 1) as [m1 H1]; [lia|].
  rewrite (vec_at_Some _ _ _ _ H0). simpl. rewrite (vec_at_Some _ _ _ _ H1). simpl.
  eexists _, _. split; [done|]. simpl. done.
Qed.

Lemma QCircuit_new_short_s topo q (phys : list Index) w :
  topology_ok topo →
  phys ≠ [] → length phys < numberOfBits topo → length phys ≤ length q →
  QCircuit_new topo q phys w = OutOfRange "s" (length phys).
Proof.
  intros Ht Hne Hlt Hq. unfold QCircuit_new.
  pose proof (emplace_indices_length (numberOfLinks topo) 1 "LinkInd" [] w) as La.
  destruct (emplace_indices (numberOfLinks topo) 1 "LinkInd" [] w) as [av w1].
  destruct phys as [|p phys]; [done|].
  by rewrite init_sites_short_s.
Qed.

Lemma QCircuit_new_short_q topo q (phys : list Index) w :
  topology_ok topo →
  length q < numberOfBits topo →
  phys = [] ∨ length q < length phys →
  QCircuit_new topo q phys w = OutOfRange "init_qbits" (length q).
Proof.
  intros Ht Hlt Hphys. unfold QCircuit_new.
  pose proof (emplace_indices_length (numberOfLinks topo) 1 "LinkInd" [] w) as La.
  destruct (emplace_indices (numberOfLinks topo) 1 "LinkInd" [] w) as [av w1].
  simpl in La.
  destruct phys as [|p phys].
  - pose proof (emplace_indices_length (numberOfBits topo) 2 "SiteInd" [] w1) as L.
    destruct (emplace_indices (numberOfBits topo) 2 "SiteInd" [] w1) as [sv w2].
    simpl in L. rewrite init_sites_short_q; [done.. | lia].
  - destruct Hphys as [?|?]; [done|]. by rewrite init_sites_short_q.
Qed.

End Constructor.

(** ** [apply] *)

Section Apply.
Context {K : TensorKernel}.

Lemma check_elems_ok (c : QCircuit) sf ss l :
  s c !! fst (cursor c) = Some sf →
  s c !! snd (cursor c) = Some ss →
  (∀ i, i ∈ l → i ∈ [sf; ss; primeI sf; primeI ss]) →
  check_elems c l = Ok tt.
Proof.
  intros Hf Hs. induction l as [|i l IH]; intros Hl; [done|].
  simpl. unfold check_elem.
  rewrite (vec_at_Some _ _ _ _ Hf). simpl.
  assert (Hi : i ∈ [sf; ss; primeI sf; primeI ss]) by (apply Hl; by left).
  assert (Hrest : check_elems c l = Ok tt) by (apply IH; intros j Hj; apply Hl; by right).
  destruct (bool_decide_reflect (i = sf)) as [E|E]; [done|].
  rewrite (vec_at_Some _ _ _ _ Hs). simpl.
  replace (bool_decide (i = ss) || bool_decide (i = primeI sf)
           || bool_decide (i = primeI ss)) with true; [done|].
  symmetry. rewrite !orb_true_iff, !bool_decide_eq_true.
  rewrite !elem_of_cons, elem_of_nil in Hi.
  destruct Hi as [Hi|[Hi|[Hi|[Hi|[]]]]];
    [done | by left; left | by left; right | by right].
Qed.

Lemma apply_run (c : QCircuit) op sf ss :
  s c !! fst (cursor c) = Some sf →
  s c !! snd (cursor c) = Some ss →
  length (inds op) = 4 →
  (∀ i, i ∈ inds op → i ∈ [sf; ss; primeI sf; primeI ss]) →
  apply op c =
    Ok (tt, mkQCircuit (topology c) (a c) (s c) (M c)
              (tmul op (primeTs (Psi c) [sf; ss])) (cursor c)).
Proof.
  intros Hf Hs Hlen Hin. unfold apply.
  rewrite Hlen. simpl.
  rewrite (check_elems_ok c sf ss) by done. simpl.
  by rewrite (vec_at_Some _ _ _ _ Hf), (vec_at_Some _ _ _ _ Hs).
Qed.

End Apply.

(** ** The contracted configuration is kept *)

Section Invariant.
Context {K : TensorKernel}.

Lemma shift_to_abort (c : QCircuit) ind args w :
  ind = fst (cursor c) ∨ ind = snd (cursor c) ∨
  (¬ adjacent (topology c) (fst (cursor c)) ind ∧
   ¬ adjacent (topology c) (snd (cursor c)) ind) →
  ∃ msg, shift_to ind args c w = Abort msg.
Proof.
  intros H. unfold shift_to.
  destruct (Nat.eqb_spec ind (fst (cursor c))) as [E1|E1]; simpl; [by eexists|].
  destruct (Nat.eqb_spec ind (snd (cursor c))) as [E2|E2]; simpl; [by eexists|].
  destruct H as [H|[H|[H1 H2]]]; [done..|].
  rewrite (scan_flag_miss _ _ _ _ H2), (scan_flag_miss _ _ _ _ H1). by eexists.
Qed.

Lemma QCircuit_new_state_ok topo q (phys : list Index) w :
  topology_ok topo → 2 ≤ numberOfBits topo →
  numberOfBits topo ≤ length q →
  phys = [] ∨ numberOfBits topo ≤ length phys →
  adjacent topo 0 1 →
  ∃ c w', QCircuit_new topo q phys w = Ok (c, w') ∧ state_ok c.
Proof.
  intros Ht HN Hq Hphys Hadj.
  destruct (QCircuit_new_ok topo q phys w Ht HN Hq Hphys)
    as (c & w' & Hrun & Htopo & Hcur & Ha & Hs & HM & _).
  exists c, w'. split; [done|].
  split; rewrite ?Htopo, ?Hcur; simpl; (done || lia).
Qed.

Lemma decomposePsi_state_ok (c : QCircuit) args w r c' w' :
  state_ok c → decomposePsi args c w = Ok (r, c', w') → state_ok c'.
Proof.
  intros Hok Hrun.
  destruct (decomposePsi_run c args w Hok) as (ixs & e & _ & _ & Hc').
  destruct (svd (Psi c) (mkITensor ixs) nullITensor nullITensor args w)
    as [[[[spec U] Sv] V] w0].
  rewrite (Hc' _ _ _ _ _ eq_refl) in Hrun. injection Hrun as _ <- _.
  destruct Hok. split; simpl; rewrite ?length_insert; done.
Qed.

Lemma apply_state_ok (c : QCircuit) op r c' :
  state_ok c → apply op c = Ok (r, c') → state_ok c'.
Proof.
  intros Hok. unfold apply.
  destruct (assert _ _); [|done..]. simpl.
  destruct (check_elems _ _); [|done..]. simpl.
  destruct (vec_at _ _ (fst _)); [|done..]. simpl.
  destruct (vec_at _ _ (snd _)); [|done..]. simpl.
  intros [= _ <-]. by destruct Hok.
Qed.

Lemma shift_to_state_ok (c : QCircuit) ind args w spec c' w' :
  state_ok c → shift_to ind args c w = Ok (spec, c', w') → state_ok c'.
Proof.
  intros Hok Hrun. pose proof (ok_topology c Hok) as Ht.
  destruct (decide (ind = fst (cursor c))) as [E1|E1].
  { destruct (shift_to_abort c ind args w) as [msg E]; [by left | congruence]. }
  destruct (decide (ind = snd (cursor c))) as [E2|E2].
  { destruct (shift_to_abort c ind args w) as [msg E]; [by right; left | congruence]. }
  destruct (decide (adjacent (topology c) (snd (cursor c)) ind)) as [A2|A2].
  - destruct (shift_to_run_B c ind args w Hok E1 E2 A2)
      as (ixs & e & m & _ & _ & _ & _ & Hc').
    destruct (svd (Psi c) (mkITensor ixs) nullITensor nullITensor args w)
      as [[[[sp U] Sv] V] w0].
    rewrite (Hc' _ _ _ _ _ eq_refl) in Hrun. injection Hrun as _ <- _.
    assert (ind < numberOfBits (topology c)).
    { apply list_elem_of_fmap_1 in A2 as (n & -> & Hn).
      apply (topo_sites _ Ht _ _ (ok_second c Hok) Hn). }
    destruct Hok. split; simpl; rewrite ?length_insert; done.
  - destruct (decide (adjacent (topology c) (fst (cursor c)) ind)) as [A1|A1].
    + destruct (shift_to_run_A c ind args w Hok E1 E2 A1 A2)
        as (ixs & e & m & _ & _ & _ & _ & Hc').
      destruct (svd (Psi c) nullITensor nullITensor (mkITensor ixs) args w)
        as [[[[sp U] Sv] V] w0].
      rewrite (Hc' _ _ _ _ _ eq_refl) in Hrun. injection Hrun as _ <- _.
      assert (ind < numberOfBits (topology c)).
      { apply list_elem_of_fmap_1 in A1 as (n & -> & Hn).
        apply (topo_sites _ Ht _ _ (ok_first c Hok) Hn). }
      assert (adjacent (topology c) ind (fst (cursor c))).
      { destruct (adjacent_link _ _ _ A1) as [e1 He1].
        apply (link_adjacent _ _ _ e1).
        by apply (link_back _ _ _ _ Ht (ok_first c Hok)). }
      destruct Hok. split; simpl; rewrite ?length_insert; done.
    + destruct (shift_to_abort c ind args w) as [msg E]; [|congruence].
      right. right. done.
Qed.

End Invariant.

(** ** The reference kernel obeys the laws of indices *)

Section RefIndexLaws.
Import Ref.

Lemma ref_contraction_index : contraction_index_law kernel.
Proof.
  intros x y Hx Hy. simpl in *.
  destruct x as [|ia ea]; [done|]. destruct y as [|ib eb]; [done|].
  simpl. f_equal; apply list_filter_iff; intros i; unfold in_list;
    by rewrite bool_decide_eq_false.
Qed.

Lemma ref_priming_index : priming_index_law kernel.
Proof.
  intros t l. simpl. destruct t as [|ix el]; [done|]. simpl.
  induction ix as [|i ix IH]; [done|]. simpl. rewrite IH. f_equal.
  unfold in_list, bool_decide, decide_rel, decide.
  by destruct (list_elem_of_dec i l).
Qed.

End RefIndexLaws.

(** ** The reference kernel obeys the laws of entries *)

Section RefElements.
Import Ref.

Lemma prime_index_neq sx : prime_index sx ≠ sx.
Proof. destruct sx. unfold prime_index. simpl. intros [=]. lia. Qed.

Lemma key_ok_fits ix ivs :
  Forall (fun i => 1 ≤ value_at ivs i ∧ value_at ivs i ≤ ix_dim i) ix →
  key_ok ix (key_of ix ivs) = true.
Proof.
  induction 1 as [|i ix [H1 H2] _ IH]; [done|].
  unfold key_of in *. cbn [map key_ok]. rewrite IH, andb_true_r.
  by rewrite (proj2 (Nat.leb_le _ _) H1), (proj2 (Nat.leb_le _ _) H2).
Qed.

Lemma key_of_same ix ivs ivs' :
  Forall (fun i => value_at ivs i = value_at ivs' i) ix ↔
  key_of ix ivs = key_of ix ivs'.
Proof.
  unfold key_of. induction ix as [|i ix IH]; simpl.
  - split; [done | constructor].
  - rewrite Forall_cons, IH. split.
    + by intros [-> ->].
    + intros [= H1 H2]. done.
Qed.

Lemma lookup_entry_filter k k' (el : list entry) :
  k' ≠ k →
  lookup_entry k' (filter (fun e => fst e ≠ k) el) = lookup_entry k' el.
Proof.
  intros Hk. induction el as [|[k0 z0] el IH]; [done|].
  destruct (decide (k0 = k)) as [->|Hk0].
  - rewrite filter_cons_False by (simpl; by intros H).
    cbn [lookup_entry]. by rewrite decide_False.
  - rewrite filter_cons_True by done. cbn [lookup_entry].
    destruct (decide (k0 = k')); [done | apply IH].
Qed.

Lemma ref_element_laws : element_laws kernel.
Proof.
  split; unfold fits, same_entry;
    cbv [elt tset inds dim mkITensor primeI C0 kernel tensor_elt tensor_inds].
  - done.
  - intros [|ix el] ivs z; [done|]. unfold tensor_set. by destruct (key_ok _ _).
  - done.
  - intros [|ix el] ivs ivs' z Hne Hfit Hsame; [done|]. unfold tensor_set.
    rewrite (key_ok_fits _ _ Hfit). cbn [lookup_entry fst].
    apply key_of_same in Hsame. by rewrite decide_True.
  - intros [|ix el] ivs ivs' z Hne Hfit Hdiff; [done|]. unfold tensor_set.
    rewrite (key_ok_fits _ _ Hfit). cbn [lookup_entry fst].
    assert (Hk : key_of ix ivs ≠ key_of ix ivs').
    { intros E. by apply Hdiff, key_of_same. }
    rewrite decide_False by done. by apply lookup_entry_filter.
  - done.
  - apply prime_index_neq.
Qed.

End RefElements.

(** ** Gates made by two [set]s *)

Section Gates.
Context {K : TensorKernel}.

Lemma value_at_pair (x y : Index) u v :
  x ≠ y → value_at [(x, u); (y, v)] x = u ∧ value_at [(x, u); (y, v)] y = v.
Proof.
  intros H. simpl. rewrite (decide_True (P := x = x)) by done.
  rewrite (decide_False (P := x = y)) by done.
  by rewrite (decide_True (P := y = y)) by done.
Qed.

(** The entries of a tensor on [{sx, prime(sx)}] made by two [set]s. *)
Lemma two_sets_entry (sx : Index) u1 v1 z1 u2 v2 z2 q :
  element_laws K →
  1 ≤ u1 ≤ dim sx → 1 ≤ v1 ≤ dim sx → 1 ≤ u2 ≤ dim sx → 1 ≤ v2 ≤ dim sx →
  elt (tset (tset (mkITensor [sx; primeI sx]) [(sx, u1); (primeI sx, v1)] z1)
         [(sx, u2); (primeI sx, v2)] z2) q =
  if decide ((value_at q sx, value_at q (primeI sx)) = (u2, v2)) then z2
  else if decide ((value_at q sx, value_at q (primeI sx)) = (u1, v1)) then z1
  else C0.
Proof.
  intros L Hu1 Hv1 Hu2 Hv2.
  assert (Hp : sx ≠ primeI sx) by (intros E; by apply (primeI_fresh K L sx)).
  pose proof (dim_primeI K L sx) as Hd.
  set (t0 := mkITensor [sx; primeI sx]).
  set (t1 := tset t0 [(sx, u1); (primeI sx, v1)] z1).
  assert (I0 : inds t0 = [sx; primeI sx]) by apply (inds_mkITensor K L).
  assert (I1 : inds t1 = [sx; primeI sx]).
  { unfold t1. by rewrite (inds_tset K L). }
  assert (Hfit : ∀ (t : ITensor) u v, inds t = [sx; primeI sx] →
            1 ≤ u ≤ dim sx → 1 ≤ v ≤ dim sx →
            fits t [(sx, u); (primeI sx, v)]).
  { intros t u v It Hu Hv. unfold fits. rewrite It.
    rewrite !Forall_cons, Forall_nil.
    destruct (value_at_pair sx (primeI sx) u v Hp) as [-> ->].
    rewrite Hd. lia. }
  assert (Hsame : ∀ (t : ITensor) u v, inds t = [sx; primeI sx] →
            (same_entry t [(sx, u); (primeI sx, v)] q ↔
             (value_at q sx, value_at q (primeI sx)) = (u, v))).
  { intros t u v It. unfold same_entry. rewrite It.
    rewrite !Forall_cons, Forall_nil.
    destruct (value_at_pair sx (primeI sx) u v Hp) as [-> ->]. split.
    - by intros (-> & -> & _).
    - by intros [= -> ->]. }
  destruct (decide (_ = (u2, v2))) as [E2|E2].
  - apply (elt_tset_same K L); [by rewrite I1 | by apply Hfit | by apply Hsame].
  - rewrite (elt_tset_other K L);
      [| by rewrite I1 | by apply Hfit | by rewrite Hsame].
    unfold t1. destruct (decide (_ = (u1, v1))) as [E1|E1].
    + apply (elt_tset_same K L); [by rewrite I0 | by apply Hfit | by apply Hsame].
    + rewrite (elt_tset_other K L);
        [| by rewrite I0 | by apply Hfit | by rewrite Hsame].
      apply (elt_mkITensor K L).
Qed.

End Gates.

(** ** The indices of a primed product *)

Section ApplyIdx.
Context {K : TensorKernel}.

Lemma primed_product_indices (op psi : ITensor) (sf ss : Index) :
  contraction_index_law K → priming_index_law K →
  inds op ≡ₚ [sf; ss; primeI sf; primeI ss] →
  NoDup [sf; ss; primeI sf; primeI ss] →
  sf ∈ inds psi → ss ∈ inds psi →
  primeI sf ∉ inds psi → primeI ss ∉ inds psi →
  ∀ i, i ∈ inds (tmul op (primeTs psi [sf; ss])) ↔ i ∈ inds psi.
Proof.
  intros Hmul Hprime Hop Hnd Hsf Hss Hpf Hps i.
  assert (HO : ∀ j, j ∈ inds op ↔ j = sf ∨ j = ss ∨ j = primeI sf ∨ j = primeI ss).
  { intros j. rewrite Hop, !elem_of_cons, elem_of_nil. tauto. }
  apply NoDup_cons in Hnd as [N1 Hnd]. apply NoDup_cons in Hnd as [N2 Hnd].
  apply NoDup_cons in Hnd as [N3 _].
  rewrite !not_elem_of_cons in N1. rewrite !not_elem_of_cons in N2.
  rewrite !not_elem_of_cons in N3.
  destruct N1 as (N12 & N13 & N14 & _). destruct N2 as (N23 & N24 & _).
  destruct N3 as (N34 & _).
  set (rho := fun i : Index => if decide (i ∈ [sf; ss]) then primeI i else i).
  assert (HP : ∀ j, j ∈ inds (primeTs psi [sf; ss]) ↔ ∃ x, j = rho x ∧ x ∈ inds psi).
  { intros j. rewrite Hprime. apply list_elem_of_fmap. }
  assert (Rf : rho sf = primeI sf).
  { unfold rho. rewrite decide_True; [done | by left]. }
  assert (Rs : rho ss = primeI ss).
  { unfold rho. rewrite decide_True; [done | by right; left]. }
  assert (Ro : ∀ x, x ≠ sf → x ≠ ss → rho x = x).
  { intros x H1 H2. unfold rho. rewrite decide_False; [done|].
    rewrite !elem_of_cons, elem_of_nil. tauto. }
  rewrite Hmul.
  2:{ intros E. specialize (HO sf). rewrite E, elem_of_nil in HO. tauto. }
  2:{ intros E. specialize (HP (primeI sf)). rewrite E, elem_of_nil in HP.
      apply HP. exists sf. by rewrite Rf. }
  rewrite elem_of_app, !list_elem_of_filter, HO, HP.
  split.
  - intros [[Hn Hi]|[Hn (x & -> & Hx)]].
    + destruct Hi as [-> | [-> | [-> | ->]]]; [done | done | |].
      * exfalso. apply Hn. exists sf. by rewrite Rf.
      * exfalso. apply Hn. exists ss. by rewrite Rs.
    + destruct (decide (x = sf)) as [->|D1]; [rewrite Rf in Hn; tauto|].
      destruct (decide (x = ss)) as [->|D2]; [rewrite Rs in Hn; tauto|].
      by rewrite Ro.
  - intros Hi.
    destruct (decide (i = sf)) as [->|D1]; [|destruct (decide (i = ss)) as [->|D2]].
    + left. split; [|tauto]. intros (x & E & Hx).
      destruct (decide (x = sf)) as [->|X1]; [rewrite Rf in E; done|].
      destruct (decide (x = ss)) as [->|X2]; [rewrite Rs in E; done|].
      rewrite Ro in E by done. done.
    + left. split; [|tauto]. intros (x & E & Hx).
      destruct (decide (x = sf)) as [->|X1]; [rewrite Rf in E; done|].
      destruct (decide (x = ss)) as [->|X2]; [rewrite Rs in E; done|].
      rewrite Ro in E by done. done.
    + right. split.
      * intros [?|[?|[->| ->]]]; done.
      * exists i. by rewrite Ro.
Qed.
End ApplyIdx.

(** ** Runs on the reference kernel *)

(** The cursor walks down the chain 0 - 1 - 2 - 3 and back. *)
Example walk_down_chain4 :
  Scenario.walk [2; 3] Scenario.chain4_state 7 = Ok (2, 3) ∧
  Scenario.walk [2; 3; 1; 0] Scenario.chain4_state 7 = Ok (0, 1).
Proof. split; vm_compute; reflexivity. Qed.

(** On (3/5)|00> + (4/5)|11>: the norm is 1, Z x Z has mean 1 and Z x Id
    has mean 9/25 - 16/25. *)
Example overlap_on_entangled_state :
  overlap (K := Ref.kernel) Scenario.entangled_state
    [Id (K := Ref.kernel) Scenario.site0; Id (K := Ref.kernel) Scenario.site1]
    Scenario.entangled_state (Ref.mkArgs 2 0) 3 = Ok ((1%Q, 0%Q), 7) ∧
  overlap (K := Ref.kernel) Scenario.entangled_state
    [Z (K := Ref.kernel) Scenario.site0; Z (K := Ref.kernel) Scenario.site1]
    Scenario.entangled_state (Ref.mkArgs 2 0) 3 = Ok ((1%Q, 0%Q), 7) ∧
  overlap (K := Ref.kernel) Scenario.entangled_state
    [Z (K := Ref.kernel) Scenario.site0; Id (K := Ref.kernel) Scenario.site1]
    Scenario.entangled_state (Ref.mkArgs 2 0) 3 = Ok (((-7 # 25)%Q, 0%Q), 7).
Proof. repeat split; vm_compute; reflexivity. Qed.

(** The SVD of the reference kernel gives back the tensor it factors. *)
Example svd_rebuilds_entangled_Psi :
  Scenario.truncated_run 2 = Ok (tt, Scenario.truncated_state 2, 5) ∧
  Scenario.stored_product (Scenario.truncated_state 2)
    = Psi Scenario.entangled_state.
Proof. split; vm_compute; reflexivity. Qed.

(** ** The properties of the cursor operations *)

Lemma side_indices_unique {Ix T : Type} (c : QCircuitOf Ix T) x y ixs ixs' :
  side_indices c x y ixs → side_indices c x y ixs' → ixs = ixs'.
Proof.
  intros (sx & ls & Hsx & Hls & ->) (sx' & ls' & Hsx' & Hls' & ->).
  f_equal; [congruence|].
  revert ls' Hls'. induction Hls as [|n l nl ls Hl _ IH]; intros ls' Hls'.
  - by inversion Hls'.
  - inversion Hls' as [|? l' ? ls0 Hl' Hls0]; subst. f_equal; [congruence|].
    by apply IH.
Qed.

(** C1 — [shift_to]: on a contracted configuration, for a site [ind] that is
    not under the cursor, if [ind] is a neighbour of [cursor.first] (and not
    of [cursor.second]) the call factors [Psi] with [V] templated on
    [s[second]] and the links of [second] other than the cursor edge, rebinds
    the link of the cursor edge to [commonIndex(S, V)], normalises [S],
    stores [M[second] = V], sets [Psi = M[ind] * U * S] and moves the cursor
    to [(ind, first)]; if [ind] is a neighbour of [cursor.second] the mirror
    steps run, ending with [M[first] = U], [Psi = S * V * M[ind]] and the
    cursor [(second, ind)]. *)
Theorem shift_to_moves_cursor `{K : TensorKernel} (c : QCircuit) (ind : nat)
    (args : Args) (w : World) :
  state_ok c →
  ind ≠ fst (cursor c) → ind ≠ snd (cursor c) →
  (adjacent (topology c) (fst (cursor c)) ind →
   ¬ adjacent (topology c) (snd (cursor c)) ind →
   shifted_through_first c ind args w) ∧
  (adjacent (topology c) (snd (cursor c)) ind →
   shifted_through_second c ind args w).
Proof.
  intros Hok Hf Hs. split.
  - intros H1 H2. by apply shift_to_run_A.
  - intros H2. by apply shift_to_run_B.
Qed.

Lemma shift_to_moves_cursor_witness :
  shifted_through_first (K := Ref.kernel)
    Scenario.fork3_state 2 (Ref.mkArgs 2 0) 5 ∧
  shifted_through_second (K := Ref.kernel)
    Scenario.chain3_state 2 (Ref.mkArgs 2 0) 5.
Proof.
  split.
  - apply (shift_to_moves_cursor (K := Ref.kernel)
             Scenario.fork3_state 2 (Ref.mkArgs 2 0) 5).
    + apply state_okb_sound. vm_compute. reflexivity.
    + vm_compute. lia.
    + vm_compute. lia.
    + unfold adjacent. by_evaluation.
    + unfold adjacent. by_evaluation.
  - apply (shift_to_moves_cursor (K := Ref.kernel)
             Scenario.chain3_state 2 (Ref.mkArgs 2 0) 5).
    + apply state_okb_sound. vm_compute. reflexivity.
    + vm_compute. lia.
    + vm_compute. lia.
    + unfold adjacent. by_evaluation.
Defined.

(** C2 (as amended) — [decomposePsi]: on a contracted configuration the
    call factors [Psi] with [U] templated on [s[first]] and the links of
    [first] other than the one to [second], rebinds the link between [first]
    and [second] to the index [U] and [S] share, divides [S] by its norm,
    stores [M[first] = U] and [M[second] = (S / norm S) * V], and leaves the
    cursor as it was.  Nothing is said of the norm of what is stored. *)
Theorem decomposePsi_refactors `{K : TensorKernel} (c : QCircuit) (args : Args)
    (w : World) :
  state_ok c →
  refactored c args w ∧
  ∀ ixs spec U Sv V w',
    side_indices c (fst (cursor c)) (snd (cursor c)) ixs →
    svd (Psi c) (mkITensor ixs) nullITensor nullITensor args w
      = (spec, U, Sv, V, w') →
    ∃ c',
      decomposePsi args c w = Ok (tt, c', w') ∧
      cursor c' = cursor c ∧
      M c' !! snd (cursor c) = Some (tmul (tdivr Sv (norm Sv)) V) ∧
      (fst (cursor c) ≠ snd (cursor c) → M c' !! fst (cursor c) = Some U).
Proof.
  intros Hok. pose proof (decomposePsi_run c args w Hok) as Hrun.
  split; [done|].
  intros ixs spec U Sv V w' Hixs Hsvd.
  destruct Hrun as (ixs' & e & Hixs' & He & Hrun).
  rewrite (side_indices_unique c _ _ _ _ Hixs' Hixs) in Hrun.
  eexists. split; [exact (Hrun _ _ _ _ _ Hsvd)|]. simpl.
  split; [done|]. split.
  - apply list_lookup_insert_eq. rewrite length_insert, (ok_M c Hok).
    apply (ok_second c Hok).
  - intros Hne. rewrite list_lookup_insert_ne by done.
    apply list_lookup_insert_eq. rewrite (ok_M c Hok). apply (ok_first c Hok).
Qed.

Lemma decomposePsi_refactors_witness :
  refactored (K := Ref.kernel) Scenario.fork3_doubled (Ref.mkArgs 2 0) 5 ∧
  ∃ c' U Sv V,
    decomposePsi (K := Ref.kernel) (Ref.mkArgs 2 0) Scenario.fork3_doubled 5
      = Ok (tt, c', 7) ∧
    cursor c' = (0, 1) ∧
    M c' !! 1 = Some (Ref.tensor_mul (Ref.tensor_divr Sv (Ref.tensor_norm Sv)) V) ∧
    M c' !! 0 = Some U ∧
    Ref.tensor_inds U
      = [Scenario.site3_0; Ref.mkIndex 2 1 0 "LinkInd";
         Ref.mkIndex 6 1 0 "Link,U"] ∧
    Ref.tensor_norm Sv = 2%Q.
Proof.
  assert (Hok : state_ok Scenario.fork3_doubled).
  { apply state_okb_sound. vm_compute. reflexivity. }
  destruct (decomposePsi_refactors (K := Ref.kernel)
              Scenario.fork3_doubled (Ref.mkArgs 2 0) 5 Hok)
    as [Hrun Hstored].
  split; [exact Hrun|].
  destruct (Hstored [Scenario.site3_0; Ref.mkIndex 2 1 0 "LinkInd"]
              (Ref.tensor_svd (Psi Scenario.fork3_doubled)
                 (Ref.Tens [Scenario.site3_0; Ref.mkIndex 2 1 0 "LinkInd"] [])
                 Ref.Null Ref.Null (Ref.mkArgs 2 0) 5).1.1.1.1
              (Ref.tensor_svd (Psi Scenario.fork3_doubled)
                 (Ref.Tens [Scenario.site3_0; Ref.mkIndex 2 1 0 "LinkInd"] [])
                 Ref.Null Ref.Null (Ref.mkArgs 2 0) 5).1.1.1.2
              (Ref.tensor_svd (Psi Scenario.fork3_doubled)
                 (Ref.Tens [Scenario.site3_0; Ref.mkIndex 2 1 0 "LinkInd"] [])
                 Ref.Null Ref.Null (Ref.mkArgs 2 0) 5).1.1.2
              (Ref.tensor_svd (Psi Scenario.fork3_doubled)
                 (Ref.Tens [Scenario.site3_0; Ref.mkIndex 2 1 0 "LinkInd"] [])
                 Ref.Null Ref.Null (Ref.mkArgs 2 0) 5).1.2
              7)
    as (c' & Hrun' & Hcur & HM1 & HM0).
  - exists Scenario.site3_0, [Ref.mkIndex 2 1 0 "LinkInd"].
    split; [vm_compute; reflexivity|].
    split; [|reflexivity]. vm_compute. repeat constructor.
  - vm_compute. reflexivity.
  - eexists c', _, _, _. split; [exact Hrun'|].
    split; [exact Hcur|]. split; [exact HM1|].
    split; [apply HM0; vm_compute; lia|].
    split; vm_compute; reflexivity.
Defined.

(** C2, the claim as stated fails: the constructor builds a contracted
    configuration from the amplitudes (0, 0) for site 0; its [Psi] is zero,
    the singular values that [decomposePsi] divides by their norm have the
    norm zero, and what the division leaves has not the norm one. *)
Lemma decomposePsi_divides_by_a_zero_norm :
  state_ok Scenario.zero_state ∧
  Psi Scenario.zero_state = Ref.Tens [Scenario.site0; Scenario.site1] [] ∧
  side_indices Scenario.zero_state 0 1 [Scenario.site0] ∧
  (∃ c' w',
     decomposePsi (K := Ref.kernel) (Ref.mkArgs 2 0) Scenario.zero_state 3
       = Ok (tt, c', w') ∧
     M c' !! 1 =
       Some (Ref.tensor_mul
               (Ref.tensor_divr Scenario.zero_S
                  (Ref.tensor_norm Scenario.zero_S))
               Scenario.zero_V)) ∧
  Ref.tensor_norm Scenario.zero_S = 0%Q ∧
  Ref.tensor_norm
    (Ref.tensor_divr Scenario.zero_S (Ref.tensor_norm Scenario.zero_S))
    ≠ 1%Q.
Proof.
  split; [apply state_okb_sound; vm_compute; reflexivity|].
  split; [vm_compute; reflexivity|].
  split.
  { exists Scenario.site0, []. split; [vm_compute; reflexivity|].
    split; [|reflexivity]. vm_compute. constructor. }
  split.
  { exists Scenario.zero_refactored, 3. split; vm_compute; reflexivity. }
  split; [vm_compute; reflexivity|].
  vm_compute. discriminate.
Qed.

(** C3 (as amended) — [decomposePsi] is a [void] function: the spectrum that
    the SVD reports is dropped, so that nothing of the call, neither what it
    returns nor the state it leaves, depends on it. *)
Theorem decomposePsi_drops_spectrum (K : TensorKernel)
    (g : @Spectrum K → @Spectrum K) (args : @Args K)
    (c : QCircuitOf (@Index K) (@ITensor K)) (w : @World K) :
  decomposePsi (K := with_spectrum K g) args c w
  = decomposePsi (K := K) args c w.
Proof.
  unfold decomposePsi. simpl.
  destruct (find_if _ _ _) as [nb| |]; [|done..]. simpl.
  change (@side_template (with_spectrum K g)) with (@side_template K).
  destruct (side_template _ _ _) as [U| |]; [|done..]. simpl.
  by destruct (@svd K (Psi c) U nullITensor nullITensor args w)
    as [[[[spec U'] Sv] V] w'].
Qed.

(** C3, the claim as stated fails: on (3/5)|00> + (4/5)|11> the call that
    keeps one singular value discards the weight 9/25, the call that keeps
    two discards nothing, and both return the same (empty) value. *)
Lemma decomposePsi_returns_no_spectrum :
  Scenario.truncated_run 1 = Ok (tt, Scenario.truncated_state 1, 5) ∧
  Scenario.truncated_run 2 = Ok (tt, Scenario.truncated_state 2, 5) ∧
  side_indices Scenario.entangled_state 0 1 [Scenario.site0] ∧
  Scenario.discarded_weight 1 = (9 # 25)%Q ∧
  Scenario.discarded_weight 2 = 0%Q ∧
  ¬ ∃ report : unit → Q, ∀ m r c' w',
      Scenario.truncated_run m = Ok (r, c', w') →
      report r = Scenario.discarded_weight m.
Proof.
  assert (R1 : Scenario.truncated_run 1 = Ok (tt, Scenario.truncated_state 1, 5))
    by (vm_compute; reflexivity).
  assert (R2 : Scenario.truncated_run 2 = Ok (tt, Scenario.truncated_state 2, 5))
    by (vm_compute; reflexivity).
  assert (H1 : Scenario.discarded_weight 1 = (9 # 25)%Q) by (vm_compute; reflexivity).
  assert (H2 : Scenario.discarded_weight 2 = 0%Q) by (vm_compute; reflexivity).
  do 2 (split; [done|]). split; [|split; [done|split; [done|]]].
  - exists Scenario.site0, []. split; [vm_compute; reflexivity|].
    split; [|reflexivity]. vm_compute. constructor.
  - intros [report Hr].
    apply Hr in R1. apply Hr in R2. rewrite H1 in R1. rewrite H2 in R2.
    rewrite R1 in R2. discriminate R2.
Qed.

(** C4 (as amended) — [decomposePsi] on a contracted configuration runs to
    its end, and leaves [Psi] the tensor it was before the call and the
    cursor where it was: [Psi] is not computed again from the factors the
    call stores. *)
Theorem decomposePsi_keeps_Psi `{K : TensorKernel} (c : QCircuit) (args : Args)
    (w : World) :
  state_ok c →
  ∃ c' w',
    decomposePsi args c w = Ok (tt, c', w') ∧
    Psi c' = Psi c ∧ cursor c' = cursor c.
Proof.
  intros Hok. destruct (decomposePsi_run c args w Hok) as (ixs & e & _ & _ & Hrun).
  destruct (svd (Psi c) (mkITensor ixs) nullITensor nullITensor args w)
    as [[[[spec U] Sv] V] w'].
  eexists _, _. split; [exact (Hrun _ _ _ _ _ eq_refl)|]. done.
Qed.

Lemma decomposePsi_keeps_Psi_witness :
  ∃ c' w',
    decomposePsi (K := Ref.kernel) (Ref.mkArgs 1 0) Scenario.entangled_state 3
      = Ok (tt, c', w') ∧
    Psi c' = Psi Scenario.entangled_state ∧
    cursor c' = cursor Scenario.entangled_state.
Proof.
  apply (decomposePsi_keeps_Psi (K := Ref.kernel)
           Scenario.entangled_state (Ref.mkArgs 1 0) 3).
  apply state_okb_sound. vm_compute. reflexivity.
Defined.

(** C4, the claim as stated fails: after [decomposePsi] with one singular
    value kept on (3/5)|00> + (4/5)|11>, [Psi] still has the entry 3/5 at
    |00>, where the product of the stored factors has 0. *)
Lemma decomposePsi_leaves_Psi_stale :
  state_ok Scenario.entangled_state ∧
  Scenario.truncated_run 1 = Ok (tt, Scenario.truncated_state 1, 5) ∧
  is_Some (M (Scenario.truncated_state 1) !! 0) ∧
  is_Some (M (Scenario.truncated_state 1) !! 1) ∧
  Ref.tensor_elt (Psi (Scenario.truncated_state 1))
    [(Scenario.site0, 1); (Scenario.site1, 1)] = ((3 # 5)%Q, 0%Q) ∧
  Ref.tensor_elt (Scenario.stored_product (Scenario.truncated_state 1))
    [(Scenario.site0, 1); (Scenario.site1, 1)] = (0%Q, 0%Q) ∧
  Psi (Scenario.truncated_state 1)
    ≠ Scenario.stored_product (Scenario.truncated_state 1).
Proof.
  split; [apply state_okb_sound; vm_compute; reflexivity|].
  split; [vm_compute; reflexivity|].
  split; [vm_compute; by eexists|].
  split; [vm_compute; by eexists|].
  split; [vm_compute; reflexivity|].
  split; [vm_compute; reflexivity|].
  vm_compute. discriminate.
Qed.

(** C5 — [shift_to] towards a site that is under the cursor, or that is a
    neighbour of neither end of it, stops on a failing assertion and returns
    no spectrum. *)
Theorem shift_to_rejects `{K : TensorKernel} (c : QCircuit) (ind : nat)
    (args : Args) (w : World) :
  ind = fst (cursor c) ∨ ind = snd (cursor c) ∨
  (¬ adjacent (topology c) (fst (cursor c)) ind ∧
   ¬ adjacent (topology c) (snd (cursor c)) ind) →
  ∃ msg, shift_to ind args c w = Abort msg.
Proof. apply shift_to_abort. Qed.

Lemma shift_to_rejects_witness :
  (∃ msg, shift_to (K := Ref.kernel) 0 (Ref.mkArgs 2 0) Scenario.chain4_state 7
          = Abort msg) ∧
  (∃ msg, shift_to (K := Ref.kernel) 1 (Ref.mkArgs 2 0) Scenario.chain4_state 7
          = Abort msg) ∧
  (∃ msg, shift_to (K := Ref.kernel) 3 (Ref.mkArgs 2 0) Scenario.chain4_state 7
          = Abort msg).
Proof.
  split; [|split].
  - apply (shift_to_rejects (K := Ref.kernel) Scenario.chain4_state 0).
    left. vm_compute. reflexivity.
  - apply (shift_to_rejects (K := Ref.kernel) Scenario.chain4_state 1).
    right. left. vm_compute. reflexivity.
  - apply (shift_to_rejects (K := Ref.kernel) Scenario.chain4_state 3).
    right. right. unfold adjacent. split; by_evaluation.
Defined.

(** ** The properties of construction, gates and [apply] *)

(** C6 (as amended) — the constructor never compares the number of
    amplitudes with the number [N] of sites.  On a topology the class accepts,
    of two sites or more, what it does follows from the lengths of the two
    lists alone.  With no site indices supplied, or with [N] of them or more:
    a list of at least [N] amplitudes builds a circuit, the one its first [N]
    entries build; a list of fewer makes the loop over the sites read
    [init_qbits] past its end, at the position of its length, which is
    undefined behaviour and not a failing assertion.  With a list of site
    indices that is not empty and has fewer than [N]: the loop reads [s] past
    its end, at the position of that list's length, when the amplitudes reach
    that far, and reads [init_qbits] past its end, at the position of its
    length, when they do not. *)
Theorem constructor_ignores_amplitude_count `{K : TensorKernel}
    (topo : CircuitTopology) (init_qbits : list (Cplx * Cplx))
    (physical_indices : list Index) (w : World) :
  topology_ok topo →
  2 ≤ numberOfBits topo →
  (physical_indices = [] ∨ numberOfBits topo ≤ length physical_indices →
   (numberOfBits topo ≤ length init_qbits →
    ∃ c w',
      QCircuit_new topo init_qbits physical_indices w = Ok (c, w') ∧
      QCircuit_new topo (take (numberOfBits topo) init_qbits) physical_indices w
        = Ok (c, w')) ∧
   (length init_qbits < numberOfBits topo →
    QCircuit_new topo init_qbits physical_indices w
      = OutOfRange "init_qbits" (length init_qbits))) ∧
  (physical_indices ≠ [] → length physical_indices < numberOfBits topo →
   (length physical_indices ≤ length init_qbits →
    QCircuit_new topo init_qbits physical_indices w
      = OutOfRange "s" (length physical_indices)) ∧
   (length init_qbits < length physical_indices →
    QCircuit_new topo init_qbits physical_indices w
      = OutOfRange "init_qbits" (length init_qbits))).
Proof.
  intros Ht HN. split.
  - intros Hphys. split.
    + intros Hq.
      destruct (QCircuit_new_ok topo init_qbits physical_indices w Ht HN Hq Hphys)
        as (c & w' & Hrun & _).
      exists c, w'. split; [done|]. by rewrite <- QCircuit_new_take.
    + intros Hq.
      assert (Hp : physical_indices = [] ∨
                   length init_qbits < length physical_indices).
      { destruct Hphys as [Hp|Hp]; [by left | right; lia]. }
      by apply QCircuit_new_short_q.
  - intros Hne Hlt. split.
    + intros Hq. by apply QCircuit_new_short_s.
    + intros Hq. apply QCircuit_new_short_q; [done | lia | by right].
Qed.

Lemma constructor_ignores_amplitude_count_witness :
  (∃ c w',
     QCircuit_new (K := Ref.kernel) Scenario.chain2
       [Scenario.ket0; Scenario.ket0; Scenario.ket0] [] 0 = Ok (c, w') ∧
     QCircuit_new (K := Ref.kernel) Scenario.chain2
       [Scenario.ket0; Scenario.ket0] [] 0 = Ok (c, w')) ∧
  QCircuit_new (K := Ref.kernel) Scenario.chain2 [Scenario.ket0] [] 0
    = OutOfRange "init_qbits" 1 ∧
  QCircuit_new (K := Ref.kernel) Scenario.chain2
    [Scenario.ket0; Scenario.ket0; Scenario.ket0] [Scenario.site0] 0
    = OutOfRange "s" 1 ∧
  QCircuit_new (K := Ref.kernel) Scenario.chain2 [Scenario.ket0]
    [Scenario.site0] 0
    = OutOfRange "s" 1 ∧
  QCircuit_new (K := Ref.kernel) Scenario.chain2 [] [Scenario.site0] 0
    = OutOfRange "init_qbits" 0.
Proof.
  assert (Ht : topology_ok Scenario.chain2)
    by (apply topology_okb_sound; vm_compute; reflexivity).
  assert (HN : 2 ≤ numberOfBits Scenario.chain2) by (simpl; lia).
  destruct (constructor_ignores_amplitude_count (K := Ref.kernel)
              Scenario.chain2 [Scenario.ket0; Scenario.ket0; Scenario.ket0]
              [] 0 Ht HN) as [[H1 _] _]; [by left|].
  destruct (constructor_ignores_amplitude_count (K := Ref.kernel)
              Scenario.chain2 [Scenario.ket0] [] 0 Ht HN) as [[_ H2] _];
    [by left|].
  destruct (constructor_ignores_amplitude_count (K := Ref.kernel)
              Scenario.chain2 [Scenario.ket0; Scenario.ket0; Scenario.ket0]
              [Scenario.site0] 0 Ht HN) as [_ H3].
  destruct (constructor_ignores_amplitude_count (K := Ref.kernel)
              Scenario.chain2 [Scenario.ket0] [Scenario.site0] 0 Ht HN)
    as [_ H4].
  destruct (constructor_ignores_amplitude_count (K := Ref.kernel)
              Scenario.chain2 [] [Scenario.site0] 0 Ht HN) as [_ H5].
  split; [apply H1; simpl; lia|].
  split; [apply H2; simpl; lia|].
  split; [apply H3; [done | simpl; lia | simpl; lia]|].
  split; [apply H4; [done | simpl; lia | simpl; lia]|].
  apply H5; [done | simpl; lia | simpl; lia].
Defined.

(** C6, the claim as stated fails: three amplitudes for the two sites of
    [chain2] build a circuit. *)
Lemma constructor_accepts_longer_amplitude_list :
  length [Scenario.ket0; Scenario.ket0; Scenario.ket0]
    ≠ numberOfBits Scenario.chain2 ∧
  QCircuit_new (K := Ref.kernel) Scenario.chain2
    [Scenario.ket0; Scenario.ket0; Scenario.ket0] [] 0
  = Ok (Scenario.chain2_state, 3).
Proof. split; [simpl; lia | vm_compute; reflexivity]. Qed.

(** C7 (as amended) — for a kernel that obeys the laws of entries, [Y(sx)]
    is a tensor over [{sx, prime(sx)}] whose only entries that are not zero
    are, with the UNPRIMED index as the row and the primed one as the column,
    (2,1) = +i and (1,2) = -i; read with the primed index as the row, they
    are (2,1) = -i and (1,2) = +i. *)
Theorem Y_entries `{K : TensorKernel} (sx : Index) :
  element_laws K →
  2 ≤ dim sx →
  inds (Y sx) = [sx; primeI sx] ∧
  entry_row_unprimed (Y sx) sx 2 1 = Ci ∧
  entry_row_unprimed (Y sx) sx 1 2 = Copp Ci ∧
  (∀ r c, (r, c) ≠ (2, 1) → (r, c) ≠ (1, 2) →
     entry_row_unprimed (Y sx) sx r c = C0) ∧
  entry_row_primed (Y sx) sx 2 1 = Copp Ci ∧
  entry_row_primed (Y sx) sx 1 2 = Ci.
Proof.
  intros L Hd.
  assert (Hp : sx ≠ primeI sx) by (intros E; by apply (primeI_fresh K L sx)).
  assert (Hp' : primeI sx ≠ sx) by done.
  assert (Hentry : ∀ q,
    elt (Y sx) q =
    if decide ((value_at q sx, value_at q (primeI sx)) = (2, 1)) then Ci
    else if decide ((value_at q sx, value_at q (primeI sx)) = (1, 2))
         then Copp Ci else C0).
  { intros q. unfold Y. apply two_sets_entry; (done || lia). }
  assert (Hrow : ∀ r c,
    value_at [(sx, r); (primeI sx, c)] sx = r ∧
    value_at [(sx, r); (primeI sx, c)] (primeI sx) = c).
  { intros r c. by apply value_at_pair. }
  assert (Hcol : ∀ r c,
    value_at [(primeI sx, r); (sx, c)] sx = c ∧
    value_at [(primeI sx, r); (sx, c)] (primeI sx) = r).
  { intros r c. destruct (value_at_pair (primeI sx) sx r c Hp'). done. }
  unfold entry_row_unprimed, entry_row_primed.
  split; [unfold Y; by rewrite !(inds_tset K L), (inds_mkITensor K L)|].
  split; [rewrite Hentry; by destruct (Hrow 2 1) as [-> ->]|].
  split; [rewrite Hentry; by destruct (Hrow 1 2) as [-> ->]|].
  split; [|split].
  - intros r c H1 H2. rewrite Hentry. destruct (Hrow r c) as [-> ->].
    rewrite decide_False by done. by rewrite decide_False by done.
  - rewrite Hentry. by destruct (Hcol 2 1) as [-> ->].
  - rewrite Hentry. by destruct (Hcol 1 2) as [-> ->].
Qed.

Lemma Y_entries_witness :
  Ref.tensor_inds (Y (K := Ref.kernel) Scenario.site0)
    = [Scenario.site0; Ref.prime_index Scenario.site0] ∧
  entry_row_unprimed (K := Ref.kernel)
    (Y (K := Ref.kernel) Scenario.site0) Scenario.site0 2 1 = Ref.ci ∧
  entry_row_unprimed (K := Ref.kernel)
    (Y (K := Ref.kernel) Scenario.site0) Scenario.site0 1 2
    = Ref.copp Ref.ci ∧
  (∀ r c, (r, c) ≠ (2, 1) → (r, c) ≠ (1, 2) →
     entry_row_unprimed (K := Ref.kernel)
       (Y (K := Ref.kernel) Scenario.site0) Scenario.site0 r c = Ref.c0) ∧
  entry_row_primed (K := Ref.kernel)
    (Y (K := Ref.kernel) Scenario.site0) Scenario.site0 2 1
    = Ref.copp Ref.ci ∧
  entry_row_primed (K := Ref.kernel)
    (Y (K := Ref.kernel) Scenario.site0) Scenario.site0 1 2 = Ref.ci.
Proof.
  apply (Y_entries (K := Ref.kernel) Scenario.site0).
  - exact ref_element_laws.
  - simpl. lia.
Defined.

(** C7, the claim as stated fails: with the primed index as the row, the
    entry (2,1) of [Y] is -i and the entry (1,2) is +i. *)
Lemma Y_primed_row_is_transposed :
  entry_row_primed (K := Ref.kernel)
    (Y (K := Ref.kernel) Scenario.site0) Scenario.site0 2 1
    = Ref.copp Ref.ci ∧
  entry_row_primed (K := Ref.kernel)
    (Y (K := Ref.kernel) Scenario.site0) Scenario.site0 2 1 ≠ Ref.ci ∧
  entry_row_primed (K := Ref.kernel)
    (Y (K := Ref.kernel) Scenario.site0) Scenario.site0 1 2
    ≠ Ref.copp Ref.ci.
Proof. split; [|split]; vm_compute; [reflexivity | discriminate..]. Qed.

(** C8 — [apply]: with [sf = s[first]], [ss = s[second]] and an [op] whose
    four indices are [sf], [ss] and their primes, the call replaces [Psi] by
    [op * prime(Psi, sf, ss)] and nothing else: the site tensors, the link
    and site indices and the cursor stay, and no SVD runs (the result is the
    same whatever the kernel's SVD routine is).  The new [Psi] has the
    indices of the old one, the site indices unprimed again, by the laws of
    the tensor algebra for the indices of a product and of a priming. *)
Theorem apply_replaces_Psi_only `{K : TensorKernel} (c : QCircuit)
    (op : ITensor) (sf ss : Index) :
  s c !! fst (cursor c) = Some sf →
  s c !! snd (cursor c) = Some ss →
  inds op ≡ₚ [sf; ss; primeI sf; primeI ss] →
  apply op c =
    Ok (tt, mkQCircuit (topology c) (a c) (s c) (M c)
              (tmul op (primeTs (Psi c) [sf; ss])) (cursor c)) ∧
  (∀ f, apply (K := with_svd K f) op c = apply (K := K) op c) ∧
  (contraction_index_law K → priming_index_law K →
   NoDup [sf; ss; primeI sf; primeI ss] →
   sf ∈ inds (Psi c) → ss ∈ inds (Psi c) →
   primeI sf ∉ inds (Psi c) → primeI ss ∉ inds (Psi c) →
   ∀ i, i ∈ inds (tmul op (primeTs (Psi c) [sf; ss])) ↔ i ∈ inds (Psi c)).
Proof.
  intros Hf Hs Hop. split; [|split].
  - apply apply_run; [done | done | by rewrite Hop |].
    intros i Hi. by rewrite <- Hop.
  - done.
  - intros. by apply primed_product_indices.
Qed.

Lemma apply_replaces_Psi_only_witness :
  apply (K := Ref.kernel) (Scenario.rot Scenario.site0 Scenario.site1)
    Scenario.chain2_state =
    Ok (tt, mkQCircuit (topology Scenario.chain2_state) (a Scenario.chain2_state)
              (s Scenario.chain2_state) (M Scenario.chain2_state)
              Scenario.rotated_Psi (cursor Scenario.chain2_state)) ∧
  (∀ f, apply (K := with_svd Ref.kernel f)
          (Scenario.rot Scenario.site0 Scenario.site1) Scenario.chain2_state
        = apply (K := Ref.kernel)
            (Scenario.rot Scenario.site0 Scenario.site1) Scenario.chain2_state) ∧
  (∀ i, i ∈ Ref.tensor_inds Scenario.rotated_Psi
        ↔ i ∈ Ref.tensor_inds (Psi Scenario.chain2_state)).
Proof.
  destruct (apply_replaces_Psi_only (K := Ref.kernel) Scenario.chain2_state
              (Scenario.rot Scenario.site0 Scenario.site1)
              Scenario.site0 Scenario.site1) as (Hrun & Hsvd & Hinds).
  - vm_compute. reflexivity.
  - vm_compute. reflexivity.
  - vm_compute. reflexivity.
  - split; [exact Hrun|]. split; [exact Hsvd|].
    apply Hinds.
    + exact ref_contraction_index.
    + exact ref_priming_index.
    + by_evaluation.
    + by_evaluation.
    + by_evaluation.
    + by_evaluation.
    + by_evaluation.
Defined.

(** C10 (as amended) — the constructor adopts a supplied list of site
    indices that is not empty as it is, and never compares its length with
    the number [N] of sites.  On a topology the class accepts, with the
    amplitudes there, a list of fewer than [N] indices makes the loop over
    the sites read [s] past its end, at the position of the list's length; a
    list of [N] indices OR MORE builds a circuit whose [s] is the list. *)
Theorem constructor_adopts_physical_indices `{K : TensorKernel}
    (topo : CircuitTopology) (init_qbits : list (Cplx * Cplx))
    (physical_indices : list Index) (w : World) :
  topology_ok topo →
  physical_indices ≠ [] →
  numberOfBits topo ≤ length init_qbits →
  (length physical_indices < numberOfBits topo →
   QCircuit_new topo init_qbits physical_indices w
     = OutOfRange "s" (length physical_indices)) ∧
  (2 ≤ numberOfBits topo →
   numberOfBits topo ≤ length physical_indices →
   ∃ c w',
     QCircuit_new topo init_qbits physical_indices w = Ok (c, w') ∧
     s c = physical_indices).
Proof.
  intros Ht Hne Hq. split.
  - intros Hlt. apply QCircuit_new_short_s; [done | done | done | lia].
  - intros HN Hlen.
    destruct (QCircuit_new_ok topo init_qbits physical_indices w Ht HN Hq)
      as (c & w' & Hrun & _ & _ & _ & _ & _ & Hs); [by right|].
    exists c, w'. split; [done | by apply Hs].
Qed.

Lemma constructor_adopts_physical_indices_witness :
  QCircuit_new (K := Ref.kernel) Scenario.chain2
    [Scenario.ket0; Scenario.ket0] [Scenario.site0] 0 = OutOfRange "s" 1 ∧
  ∃ c w',
    QCircuit_new (K := Ref.kernel) Scenario.chain2
      [Scenario.ket0; Scenario.ket0] Scenario.three_indices 0 = Ok (c, w') ∧
    s c = Scenario.three_indices.
Proof.
  assert (Ht : topology_ok Scenario.chain2)
    by (apply topology_okb_sound; vm_compute; reflexivity).
  split.
  - apply (constructor_adopts_physical_indices (K := Ref.kernel) Scenario.chain2
             [Scenario.ket0; Scenario.ket0] [Scenario.site0] 0 Ht);
      [done | simpl; lia | simpl; lia].
  - apply (constructor_adopts_physical_indices (K := Ref.kernel) Scenario.chain2
             [Scenario.ket0; Scenario.ket0] Scenario.three_indices 0 Ht);
      [done | simpl; lia | simpl; lia | simpl; lia].
Defined.

(** C10, the claim as stated fails: a list of three site indices for the two
    sites of [chain2] is neither empty nor of length [N], and the constructor
    builds a circuit from it without reading any vector out of range. *)
Lemma constructor_accepts_longer_index_list :
  Scenario.three_indices ≠ [] ∧
  length Scenario.three_indices ≠ numberOfBits Scenario.chain2 ∧
  ∃ c w',
    QCircuit_new (K := Ref.kernel) Scenario.chain2
      [Scenario.ket0; Scenario.ket0] Scenario.three_indices 0 = Ok (c, w') ∧
    s c = Scenario.three_indices ∧ state_ok c.
Proof.
  split; [done|]. split; [simpl; lia|].
  exists (Scenario.built (QCircuit_new (K := Ref.kernel) Scenario.chain2
            [Scenario.ket0; Scenario.ket0] Scenario.three_indices 0)), 1.
  split; [vm_compute; reflexivity|]. split; [vm_compute; reflexivity|].
  apply state_okb_sound. vm_compute. reflexivity.
Qed.

(** * Further properties of the class *)

(** ** What the constructor builds *)

Section ConstructorContents.
Context {K : TensorKernel}.

Lemma init_sites_prefix topo av sv q n from (Mv : list ITensor) :
  length av = numberOfLinks topo →
  (∀ i, from ≤ i < from + n → site_ready topo i) →
  from + n ≤ length sv → from + n ≤ length q →
  length Mv = from →
  ∃ Mv',
    init_sites topo av sv q n from Mv = Ok (Mv ++ Mv') ∧
    length Mv' = n ∧
    ∀ j m, Mv' !! j = Some m → built_site topo av sv q (from + j) m.
Proof.
  intros Ha. revert from Mv.
  induction n as [|n IH]; intros from Mv Hready Hs Hq HM.
  - exists []. rewrite app_nil_r. split; [done|]. split; [done|].
    intros j m Hj. by rewrite lookup_nil in Hj.
  - simpl.
    destruct (Hready from) as [Hdeg Hlinks]; [lia|].
    destruct (lookup_lt_is_Some_2 sv from) as [si Hsi]; [lia|].
    destruct (lookup_lt_is_Some_2 q from) as [qi Hqi]; [lia|].
    destruct (link_indices_exist av (neighborsOf topo from)) as [ls Hls].
    { intros m Hm. rewrite Ha. by apply Hlinks. }
    rewrite (init_site_pushed _ _ _ _ _ _ si ls), Hqi by done.
    simpl.
    destruct (IH (S from) (Mv ++ [site_tensor si ls qi])) as (Mv' & E & L & C);
      [intros i Hi; apply Hready; lia | lia | lia
       | rewrite length_app; simpl; lia |].
    exists (site_tensor si ls qi :: Mv').
    split; [by rewrite E, <- app_assoc|]. split; [simpl; lia|].
    intros [|j] m Hj; simpl in Hj.
    + injection Hj as <-. rewrite Nat.add_0_r. by exists si, ls, qi.
    + replace (from + S j) with (S from + j) by lia. by apply C.
Qed.

Lemma site_indices_made topo (phys : list Index) w1 :
  ∃ sv w2,
    match phys with
    | [] => emplace_indices (numberOfBits topo) 2 "SiteInd" phys w1
    | _ :: _ => (phys, w1)
    end = (sv, w2) ∧
    (phys = [] → length sv = numberOfBits topo) ∧
    (phys ≠ [] → sv = phys ∧ w2 = w1).
Proof.
  destruct phys as [|p phys].
  - pose proof (emplace_indices_length (numberOfBits topo) 2 "SiteInd" [] w1) as L.
    destruct (emplace_indices (numberOfBits topo) 2 "SiteInd" [] w1) as [sv w2].
    exists sv, w2. simpl in L. done.
  - by exists (p :: phys), w1.
Qed.

Lemma QCircuit_new_built topo q (phys : list Index) w :
  (∀ i, i < numberOfBits topo → site_ready topo i) →
  2 ≤ numberOfBits topo →
  numberOfBits topo ≤ length q →
  phys = [] ∨ numberOfBits topo ≤ length phys →
  ∃ c w',
    QCircuit_new topo q phys w = Ok (c, w') ∧
    topology c = topo ∧ cursor c = (0, 1) ∧
    length (a c) = numberOfLinks topo ∧
    length (M c) = numberOfBits topo ∧
    (phys = [] → length (s c) = numberOfBits topo) ∧
    (phys ≠ [] → s c = phys) ∧
    (∀ i m, M c !! i = Some m → built_site topo (a c) (s c) q i m) ∧
    ∃ m0 m1, M c !! 0 = Some m0 ∧ M c !! 1 = Some m1 ∧ Psi c = tmul m0 m1.
Proof.
  intros Hready HN Hq Hphys. unfold QCircuit_new.
  pose proof (emplace_indices_length (numberOfLinks topo) 1 "LinkInd" [] w) as La.
  destruct (emplace_indices (numberOfLinks topo) 1 "LinkInd" [] w) as [av w1].
  simpl in La.
  destruct (site_indices_made topo phys w1) as (sv & w2 & -> & Hs0 & Hs1).
  assert (Ls : numberOfBits topo ≤ length sv).
  { destruct Hphys as [->|Hlen]; [by rewrite Hs0|].
    destruct phys; [simpl in Hlen; lia|]. by destruct Hs1 as [-> _]. }
  destruct (init_sites_prefix topo av sv q (numberOfBits topo) 0 [])
    as (Mv & -> & LM & HMv);
    [done | intros i Hi; apply Hready; lia | simpl; lia.. | done |].
  simpl in *.
  destruct (lookup_lt_is_Some_2 Mv 0) as [m0 H0]; [lia|].
  destruct (lookup_lt_is_Some_2 Mv 1) as [m1 H1]; [lia|].
  rewrite (vec_at_Some _ _ _ _ H0). simpl. rewrite (vec_at_Some _ _ _ _ H1). simpl.
  eexists _, _. split; [done|]. simpl.
  do 5 (split; [done|]). split; [by intros H; destruct (Hs1 H)|].
  split; [done|]. by exists m0, m1.
Qed.

Lemma QCircuit_new_bad_degree topo q (phys : list Index) w k :
  (∀ i, i < k → site_ready topo i) →
  k < numberOfBits topo →
  ¬ (1 ≤ length (neighborsOf topo k) ∧ length (neighborsOf topo k) ≤ 3) →
  k ≤ length q →
  phys = [] ∨ k ≤ length phys →
  QCircuit_new topo q phys w = Abort "false".
Proof.
  intros Hready Hk Hdeg Hq Hphys. unfold QCircuit_new.
  pose proof (emplace_indices_length (numberOfLinks topo) 1 "LinkInd" [] w) as La.
  destruct (emplace_indices (numberOfLinks topo) 1 "LinkInd" [] w) as [av w1].
  simpl in La.
  destruct (site_indices_made topo phys w1) as (sv & w2 & -> & Hs0 & Hs1).
  assert (Ls : k ≤ length sv).
  { destruct Hphys as [->|Hlen]; [rewrite Hs0 by done; lia|].
    destruct phys; [simpl in Hlen; rewrite Hs0 by done; lia|].
    by destruct Hs1 as [-> _]. }
  replace (numberOfBits topo) with (k + S (numberOfBits topo - S k)) by lia.
  rewrite init_sites_app.
  destruct (init_sites_prefix topo av sv q k 0 [])
    as (Mv & -> & LM & HMv);
    [done | intros i Hi; apply Hready; lia | simpl; lia.. | done |].
  simpl. unfold init_site.
  destruct (length (neighborsOf topo k)) as [|[|[|[|?]]]]; (done || lia).
Qed.








End ConstructorContents.

Lemma topology_ok_ready topo :
  topology_ok topo → ∀ i, i < numberOfBits topo → site_ready topo i.
Proof.
  intros Ht i Hi. split; [by apply (topo_degree _ Ht)|].
  intros n Hn. by apply (topo_links _ Ht i).
Qed.

(** X1 — the constructor on a topology the class accepts, of at least two
    sites with sites 0 and 1 neighbours, given an amplitude pair for each
    site and either no site indices or one for each site: it returns a
    circuit in the contracted configuration, on that topology, with the
    cursor on (0, 1), one link index for each link, one tensor for each site,
    and [Psi] the product [M[0] * M[1]]. *)
Theorem constructor_builds_contracted_state `{K : TensorKernel}
    (topo : CircuitTopology) (init_qbits : list (Cplx * Cplx))
    (physical_indices : list Index) (w : World) :
  topology_ok topo →
  2 ≤ numberOfBits topo →
  adjacent topo 0 1 →
  numberOfBits topo ≤ length init_qbits →
  physical_indices = [] ∨ numberOfBits topo ≤ length physical_indices →
  ∃ c w',
    QCircuit_new topo init_qbits physical_indices w = Ok (c, w') ∧
    state_ok c ∧
    topology c = topo ∧ cursor c = (0, 1) ∧
    length (a c) = numberOfLinks topo ∧
    length (M c) = numberOfBits topo ∧
    (physical_indices = [] → length (s c) = numberOfBits topo) ∧
    ∃ m0 m1, M c !! 0 = Some m0 ∧ M c !! 1 = Some m1 ∧ Psi c = tmul m0 m1.
Proof.
  intros Ht HN Hadj Hq Hphys.
  destruct (QCircuit_new_built topo init_qbits physical_indices w)
    as (c & w' & Hrun & Htopo & Hcur & Ha & HM & Hs0 & Hs1 & _ & HPsi);
    [by apply topology_ok_ready | done..|].
  exists c, w'. split; [done|].
  split; [|done].
  split; rewrite ?Htopo, ?Hcur; simpl; try (done || lia).
  destruct Hphys as [->|Hlen]; [by rewrite Hs0|].
  destruct physical_indices; [simpl in Hlen; lia|]. by rewrite Hs1.
Qed.

Lemma constructor_builds_contracted_state_witness :
  ∃ c w',
    QCircuit_new (K := Ref.kernel) Scenario.chain4
      [Scenario.ket0; Scenario.ket0; Scenario.ket0; Scenario.ket0] [] 0
      = Ok (c, w') ∧
    state_ok c ∧
    topology c = Scenario.chain4 ∧ cursor c = (0, 1) ∧
    length (a c) = 3 ∧ length (M c) = 4 ∧
    (@nil Ref.index = [] → length (s c) = 4) ∧
    ∃ m0 m1, M c !! 0 = Some m0 ∧ M c !! 1 = Some m1 ∧
             Psi c = Ref.tensor_mul m0 m1.
Proof.
  apply (constructor_builds_contracted_state (K := Ref.kernel) Scenario.chain4
           [Scenario.ket0; Scenario.ket0; Scenario.ket0; Scenario.ket0] [] 0).
  - apply topology_okb_sound. vm_compute. reflexivity.
  - simpl. lia.
  - unfold adjacent. by_evaluation.
  - simpl. lia.
  - by left.
Defined.

(** X2 — the site tensors the constructor builds: on a topology whose sites
    all have one to three neighbours with links in range, [M[i]] is the
    tensor on [s[i]] followed by the link indices [a[n.link]] of the
    neighbours [n] of [i], in the topology's order, made by the two [set]s
    of the amplitudes [init_qbits[i]]. *)
Theorem constructor_site_tensors `{K : TensorKernel}
    (topo : CircuitTopology) (init_qbits : list (Cplx * Cplx))
    (physical_indices : list Index) (w : World) :
  (∀ i, i < numberOfBits topo → site_ready topo i) →
  2 ≤ numberOfBits topo →
  numberOfBits topo ≤ length init_qbits →
  physical_indices = [] ∨ numberOfBits topo ≤ length physical_indices →
  ∃ c w',
    QCircuit_new topo init_qbits physical_indices w = Ok (c, w') ∧
    ∀ i, i < numberOfBits topo →
      ∃ m, M c !! i = Some m ∧ built_site topo (a c) (s c) init_qbits i m.
Proof.
  intros Hready HN Hq Hphys.
  destruct (QCircuit_new_built topo init_qbits physical_indices w)
    as (c & w' & Hrun & _ & _ & _ & HM & _ & _ & Hbuilt & _); [done..|].
  exists c, w'. split; [done|].
  intros i Hi. destruct (lookup_lt_is_Some_2 (M c) i) as [m Hm]; [lia|].
  exists m. split; [done | by apply Hbuilt].
Qed.

Lemma constructor_site_tensors_witness :
  ∃ c w',
    QCircuit_new (K := Ref.kernel) Scenario.fork3
      [Scenario.ket0; Scenario.ket0; Scenario.ket0] [] 0 = Ok (c, w') ∧
    ∀ i, i < 3 →
      ∃ m, M c !! i = Some m ∧
           built_site (K := Ref.kernel) Scenario.fork3 (a c) (s c)
             [Scenario.ket0; Scenario.ket0; Scenario.ket0] i m.
Proof.
  apply (constructor_site_tensors (K := Ref.kernel) Scenario.fork3
           [Scenario.ket0; Scenario.ket0; Scenario.ket0] [] 0).
  - apply topology_ok_ready, topology_okb_sound. vm_compute. reflexivity.
  - simpl. lia.
  - simpl. lia.
  - by left.
Defined.

Section SiteTensor.
Context {K : TensorKernel}.

Lemma value_at_all_ones (ls : list Index) l :
  l ∈ ls → value_at (all_ones ls) l = 1.
Proof.
  induction ls as [|x ls IH]; intros H; [by apply elem_of_nil in H|].
  simpl. destruct (decide (x = l)) as [|D]; [done|].
  apply IH. apply elem_of_cons in H as [?|?]; [congruence | done].
Qed.

Lemma value_at_site_key (si : Index) v ls :
  si ∉ ls →
  value_at ((si, v) :: all_ones ls) si = v ∧
  ∀ l, l ∈ ls → value_at ((si, v) :: all_ones ls) l = 1.
Proof.
  intros Hsi. simpl. split; [by rewrite decide_True|].
  intros l Hl. rewrite decide_False by (intros ->; done).
  by apply value_at_all_ones.
Qed.

Lemma site_key_fits (t : ITensor) (si : Index) v ls :
  inds t = si :: ls → si ∉ ls →
  1 ≤ v ≤ dim si → Forall (fun l => 1 ≤ dim l) ls →
  fits t ((si, v) :: all_ones ls).
Proof.
  intros It Hsi Hv Hd. unfold fits. rewrite It.
  destruct (value_at_site_key si v ls Hsi) as [E1 E2].
  constructor; [rewrite E1; lia|].
  apply Forall_forall. intros l Hl. rewrite (E2 l Hl).
  rewrite Forall_forall in Hd. specialize (Hd l Hl). lia.
Qed.

Lemma site_key_same (t : ITensor) (si : Index) v ls ivs :
  inds t = si :: ls → si ∉ ls →
  same_entry t ((si, v) :: all_ones ls) ivs ↔
  value_at ivs si = v ∧ Forall (fun l => value_at ivs l = 1) ls.
Proof.
  intros It Hsi. unfold same_entry. rewrite It.
  destruct (value_at_site_key si v ls Hsi) as [E1 E2].
  rewrite Forall_cons, E1, !Forall_forall. split.
  - intros [H1 H2]. split; [done|]. intros l Hl. rewrite <- (H2 l Hl). by apply E2.
  - intros [H1 H2]. split; [done|]. intros l Hl. rewrite (H2 l Hl). by apply E2.
Qed.

(** The entries of the tensor the constructor leaves at a site. *)
Lemma site_tensor_entry (si : Index) ls q ivs :
  element_laws K →
  2 ≤ dim si → Forall (fun l => 1 ≤ dim l) ls → si ∉ ls →
  elt (site_tensor si ls q) ivs =
    if decide (Forall (fun l => value_at ivs l = 1) ls)
    then if decide (value_at ivs si = 2) then snd q
         else if decide (value_at ivs si = 1) then fst q else C0
    else C0.
Proof.
  intros L Hd Hdl Hsi. unfold site_tensor.
  set (t0 := mkITensor (si :: ls)).
  set (t1 := tset t0 ((si, 1) :: all_ones ls) (fst q)).
  assert (I0 : inds t0 = si :: ls) by apply (inds_mkITensor K L).
  assert (I1 : inds t1 = si :: ls).
  { unfold t1. by rewrite (inds_tset K L). }
  destruct (decide (Forall (fun l => value_at ivs l = 1) ls)) as [F|F].
  - destruct (decide (value_at ivs si = 2)) as [E2|E2].
    { apply (elt_tset_same K L);
        [by rewrite I1 | apply site_key_fits; (done || lia) |].
      by apply site_key_same. }
    rewrite (elt_tset_other K L);
      [| by rewrite I1 | apply site_key_fits; (done || lia) |].
    2:{ rewrite site_key_same by done. by intros [? _]. }
    unfold t1. destruct (decide (value_at ivs si = 1)) as [E1|E1].
    { apply (elt_tset_same K L);
        [by rewrite I0 | apply site_key_fits; (done || lia) |].
      by apply site_key_same. }
    rewrite (elt_tset_other K L);
      [| by rewrite I0 | apply site_key_fits; (done || lia) |].
    2:{ rewrite site_key_same by done. by intros [? _]. }
    apply (elt_mkITensor K L).
  - rewrite (elt_tset_other K L);
      [| by rewrite I1 | apply site_key_fits; (done || lia) |].
    2:{ rewrite site_key_same by done. by intros [_ ?]. }
    unfold t1. rewrite (elt_tset_other K L);
      [| by rewrite I0 | apply site_key_fits; (done || lia) |].
    2:{ rewrite site_key_same by done. by intros [_ ?]. }
    apply (elt_mkITensor K L).
Qed.

End SiteTensor.

(** X3 — the tensor the constructor's two [set]s leave at a site with site
    index [si], link indices [ls] and amplitudes [(alpha, beta)]: its indices
    are [si] followed by [ls]; the entry at [si = 1] with every link at 1
    is [alpha], the entry at [si = 2] with every link at 1 is [beta], and
    every other entry is zero. *)
Theorem site_tensor_holds_amplitudes `{K : TensorKernel}
    (si : Index) (ls : list Index) (q : Cplx * Cplx) :
  element_laws K →
  2 ≤ dim si → Forall (fun l => 1 ≤ dim l) ls → si ∉ ls →
  inds (site_tensor si ls q) = si :: ls ∧
  elt (site_tensor si ls q) ((si, 1) :: all_ones ls) = fst q ∧
  elt (site_tensor si ls q) ((si, 2) :: all_ones ls) = snd q ∧
  ∀ ivs,
    (value_at ivs si ≠ 1 ∧ value_at ivs si ≠ 2) ∨
    (∃ l, l ∈ ls ∧ value_at ivs l ≠ 1) →
    elt (site_tensor si ls q) ivs = C0.
Proof.
  intros L Hd Hdl Hsi.
  destruct (value_at_site_key si 1 ls Hsi) as [A1 B1].
  destruct (value_at_site_key si 2 ls Hsi) as [A2 B2].
  split; [unfold site_tensor; by rewrite !(inds_tset K L), (inds_mkITensor K L)|].
  split; [|split].
  - rewrite site_tensor_entry by done.
    rewrite decide_True by (by apply Forall_forall).
    rewrite A1. rewrite decide_False by done. by rewrite decide_True.
  - rewrite site_tensor_entry by done.
    rewrite decide_True by (by apply Forall_forall).
    rewrite A2. by rewrite decide_True.
  - intros ivs H. rewrite site_tensor_entry by done.
    destruct (decide (Forall _ ls)) as [F|F]; [|done].
    destruct H as [[H1 H2]|(l & Hl & Hv)].
    + rewrite decide_False by done. by rewrite decide_False.
    + rewrite Forall_forall in F. by specialize (F l Hl).
Qed.

Lemma site_tensor_holds_amplitudes_witness :
  Ref.tensor_inds
    (site_tensor (K := Ref.kernel) Scenario.site0
       [Ref.mkIndex 1 1 0 "LinkInd"] Scenario.ket0)
    = [Scenario.site0; Ref.mkIndex 1 1 0 "LinkInd"] ∧
  Ref.tensor_elt
    (site_tensor (K := Ref.kernel) Scenario.site0
       [Ref.mkIndex 1 1 0 "LinkInd"] Scenario.ket0)
    [(Scenario.site0, 1); (Ref.mkIndex 1 1 0 "LinkInd", 1)] = Ref.c1 ∧
  Ref.tensor_elt
    (site_tensor (K := Ref.kernel) Scenario.site0
       [Ref.mkIndex 1 1 0 "LinkInd"] Scenario.ket0)
    [(Scenario.site0, 2); (Ref.mkIndex 1 1 0 "LinkInd", 1)] = Ref.c0 ∧
  ∀ ivs,
    (@value_at _ Ref.index_eq_dec ivs Scenario.site0 ≠ 1 ∧
     @value_at _ Ref.index_eq_dec ivs Scenario.site0 ≠ 2) ∨
    (∃ l, l ∈ [Ref.mkIndex 1 1 0 "LinkInd"] ∧
          @value_at _ Ref.index_eq_dec ivs l ≠ 1) →
    Ref.tensor_elt
      (site_tensor (K := Ref.kernel) Scenario.site0
         [Ref.mkIndex 1 1 0 "LinkInd"] Scenario.ket0) ivs = Ref.c0.
Proof.
  apply (site_tensor_holds_amplitudes (K := Ref.kernel) Scenario.site0
           [Ref.mkIndex 1 1 0 "LinkInd"] Scenario.ket0).
  - exact ref_element_laws.
  - simpl. lia.
  - repeat constructor.
  - by_evaluation.
Defined.

(** ** Where the constructor stops *)

(** X4 — the constructor stops on [assert(false)] at the first site whose
    number of neighbours is not 1, 2 or 3, when the sites before it have
    their indices, links and amplitudes. *)
Theorem constructor_rejects_bad_degree `{K : TensorKernel}
    (topo : CircuitTopology) (init_qbits : list (Cplx * Cplx))
    (physical_indices : list Index) (w : World) (k : nat) :
  k < numberOfBits topo →
  (∀ i, i < k → site_ready topo i) →
  ¬ (1 ≤ length (neighborsOf topo k) ∧ length (neighborsOf topo k) ≤ 3) →
  k ≤ length init_qbits →
  physical_indices = [] ∨ k ≤ length physical_indices →
  QCircuit_new topo init_qbits physical_indices w = Abort "false".
Proof. intros. by apply (QCircuit_new_bad_degree _ _ _ _ k). Qed.

Lemma constructor_rejects_bad_degree_witness :
  QCircuit_new (K := Ref.kernel) Scenario.star5
    [Scenario.ket0; Scenario.ket0; Scenario.ket0; Scenario.ket0; Scenario.ket0]
    [] 0 = Abort "false".
Proof.
  apply (constructor_rejects_bad_degree (K := Ref.kernel) Scenario.star5
           [Scenario.ket0; Scenario.ket0; Scenario.ket0; Scenario.ket0;
            Scenario.ket0] [] 0 1).
  - simpl. lia.
  - intros i Hi. assert (i = 0) as -> by lia. by_evaluation.
  - simpl. lia.
  - simpl. lia.
  - by left.
Defined.



Lemma find_if_miss x l pos :
  x ∉ site <$> l →
  find_if (fun n => site n =? x) l pos = OutOfRange "list" (pos + length l).
Proof.
  revert pos. induction l as [|n l IH]; simpl; intros pos H.
  - by rewrite Nat.add_0_r.
  - apply not_elem_of_cons in H as [H1 H2].
    destruct (Nat.eqb_spec (site n) x) as [E|E]; [congruence|].
    rewrite IH by done. f_equal. lia.
Qed.

Lemma decomposePsi_off_edge `{K : TensorKernel} (c : QCircuit) args w :
  ¬ adjacent (topology c) (fst (cursor c)) (snd (cursor c)) →
  decomposePsi args c w =
    OutOfRange "list" (length (neighborsOf (topology c) (fst (cursor c)))).
Proof.
  intros H. unfold decomposePsi. by rewrite find_if_miss.
Qed.

(** X6 — the constructor does not check that sites 0 and 1 are neighbours:
    on a topology where they are not it still returns a circuit, with the
    cursor on (0, 1) and [Psi = M[0] * M[1]]; on that circuit
    [decomposePsi] finds no neighbour [cursor.second] in the list of
    [cursor.first] and dereferences the end of the list. *)
Theorem constructor_ignores_cursor_edge `{K : TensorKernel}
    (topo : CircuitTopology) (init_qbits : list (Cplx * Cplx))
    (physical_indices : list Index) (w : World) :
  (∀ i, i < numberOfBits topo → site_ready topo i) →
  2 ≤ numberOfBits topo →
  numberOfBits topo ≤ length init_qbits →
  physical_indices = [] ∨ numberOfBits topo ≤ length physical_indices →
  ¬ adjacent topo 0 1 →
  ∃ c w',
    QCircuit_new topo init_qbits physical_indices w = Ok (c, w') ∧
    cursor c = (0, 1) ∧
    (∃ m0 m1, M c !! 0 = Some m0 ∧ M c !! 1 = Some m1 ∧ Psi c = tmul m0 m1) ∧
    ∀ args w0,
      decomposePsi args c w0 =
        OutOfRange "list" (length (neighborsOf topo 0)).
Proof.
  intros Hready HN Hq Hphys Hadj.
  destruct (QCircuit_new_built topo init_qbits physical_indices w)
    as (c & w' & Hrun & Htopo & Hcur & _ & _ & _ & _ & _ & HPsi); [done..|].
  exists c, w'. do 3 (split; [done|]).
  intros args w0. rewrite decomposePsi_off_edge; rewrite Htopo, Hcur; done.
Qed.

Lemma constructor_ignores_cursor_edge_witness :
  ∃ c w',
    QCircuit_new (K := Ref.kernel) Scenario.apart3
      [Scenario.ket0; Scenario.ket0; Scenario.ket0] [] 0 = Ok (c, w') ∧
    cursor c = (0, 1) ∧
    (∃ m0 m1, M c !! 0 = Some m0 ∧ M c !! 1 = Some m1 ∧
              Psi c = Ref.tensor_mul m0 m1) ∧
    ∀ args w0,
      decomposePsi (K := Ref.kernel) args c w0 = OutOfRange "list" 1.
Proof.
  apply (constructor_ignores_cursor_edge (K := Ref.kernel) Scenario.apart3
           [Scenario.ket0; Scenario.ket0; Scenario.ket0] [] 0).
  - apply topology_ok_ready, topology_okb_sound. vm_compute. reflexivity.
  - simpl. lia.
  - simpl. lia.
  - by left.
  - unfold adjacent. by_evaluation.
Defined.

(** ** The cursor operations keep the contracted configuration *)

Section Moves.
Context {K : TensorKernel}.

Lemma link_between_unique t i j e e' :
  topology_ok t → i < numberOfBits t →
  link_between t i j e → link_between t i j e' → e = e'.
Proof.
  intros Ht Hi H H'. pose proof (topo_simple _ Ht i Hi) as Hnd.
  unfold link_between in *.
  induction (neighborsOf t i) as [|n l IH]; [by apply elem_of_nil in H|].
  simpl in Hnd. apply NoDup_cons in Hnd as [Hn Hnd].
  apply elem_of_cons in H as [H|H]; apply elem_of_cons in H' as [H'|H'].
  - congruence.
  - exfalso. apply Hn. subst n. simpl.
    change j with (site (Build_Neighbor j e')). by apply list_elem_of_fmap_2.
  - exfalso. apply Hn. subst n. simpl.
    change j with (site (Build_Neighbor j e)). by apply list_elem_of_fmap_2.
  - by apply IH.
Qed.

Lemma adjacent_back t i j :
  topology_ok t → i < numberOfBits t → adjacent t i j → adjacent t j i.
Proof.
  intros Ht Hi H. destruct (adjacent_link _ _ _ H) as [e He].
  apply (link_adjacent _ _ _ e). by apply link_back.
Qed.

Lemma adjacent_in_range t i j :
  topology_ok t → i < numberOfBits t → adjacent t i j → j < numberOfBits t.
Proof.
  intros Ht Hi (n & -> & Hn)%list_elem_of_fmap_1.
  by apply (topo_sites _ Ht i).
Qed.

(** [decomposePsi] on a contracted configuration returns, and what it
    leaves differs from what it found at three places only. *)
Lemma decomposePsi_result (c : QCircuit) args w :
  state_ok c →
  ∃ c' w' e U SV,
    decomposePsi args c w = Ok (tt, c', w') ∧
    link_between (topology c) (fst (cursor c)) (snd (cursor c)) e ∧
    c' = mkQCircuit (topology c) (<[e := commonIndex U SV.1]> (a c)) (s c)
           (<[snd (cursor c) := SV.2]> (<[fst (cursor c) := U]> (M c)))
           (Psi c) (cursor c).
Proof.
  intros Hok.
  destruct (decomposePsi_run c args w Hok) as (ixs & e & _ & He & Hc').
  destruct (svd (Psi c) (mkITensor ixs) nullITensor nullITensor args w)
    as [[[[spec U] Sv] V] w0] eqn:Hsvd.
  eexists _, w0, e, U, (Sv, tmul (tdivr Sv (norm Sv)) V).
  split; [exact (Hc' _ _ _ _ _ eq_refl)|]. done.
Qed.

(** The two ways [shift_to] returns. *)
Lemma shift_to_result_A (c : QCircuit) ind args w :
  state_ok c →
  ind ≠ fst (cursor c) → ind ≠ snd (cursor c) →
  adjacent (topology c) (fst (cursor c)) ind →
  ¬ adjacent (topology c) (snd (cursor c)) ind →
  ∃ spec c' w' e ix V psi,
    shift_to ind args c w = Ok (spec, c', w') ∧
    link_between (topology c) (fst (cursor c)) (snd (cursor c)) e ∧
    c' = mkQCircuit (topology c) (<[e := ix]> (a c)) (s c)
           (<[snd (cursor c) := V]> (M c)) psi (ind, fst (cursor c)).
Proof.
  intros Hok E1 E2 A1 A2.
  destruct (shift_to_run_A c ind args w Hok E1 E2 A1 A2)
    as (ixs & e & m & _ & He & _ & _ & Hc').
  destruct (svd (Psi c) nullITensor nullITensor (mkITensor ixs) args w)
    as [[[[spec U] Sv] V] w0] eqn:Hsvd.
  eexists spec, _, w0, e, _, _, _.
  split; [exact (Hc' _ _ _ _ _ eq_refl)|]. done.
Qed.

Lemma shift_to_result_B (c : QCircuit) ind args w :
  state_ok c →
  ind ≠ fst (cursor c) → ind ≠ snd (cursor c) →
  adjacent (topology c) (snd (cursor c)) ind →
  ∃ spec c' w' e ix U psi,
    shift_to ind args c w = Ok (spec, c', w') ∧
    link_between (topology c) (fst (cursor c)) (snd (cursor c)) e ∧
    c' = mkQCircuit (topology c) (<[e := ix]> (a c)) (s c)
           (<[fst (cursor c) := U]> (M c)) psi (snd (cursor c), ind).
Proof.
  intros Hok E1 E2 A2.
  destruct (shift_to_run_B c ind args w Hok E1 E2 A2)
    as (ixs & e & m & _ & He & _ & _ & Hc').
  destruct (svd (Psi c) (mkITensor ixs) nullITensor nullITensor args w)
    as [[[[spec U] Sv] V] w0] eqn:Hsvd.
  eexists spec, _, w0, e, _, _, _.
  split; [exact (Hc' _ _ _ _ _ eq_refl)|]. done.
Qed.

(** A returning [shift_to] went one of the two ways. *)
Lemma shift_to_cases (c : QCircuit) ind args w spec c' w' :
  state_ok c →
  shift_to ind args c w = Ok (spec, c', w') →
  ind ≠ fst (cursor c) ∧ ind ≠ snd (cursor c) ∧
  ∃ e ix t psi,
    link_between (topology c) (fst (cursor c)) (snd (cursor c)) e ∧
    ((adjacent (topology c) (fst (cursor c)) ind ∧
      ¬ adjacent (topology c) (snd (cursor c)) ind ∧
      c' = mkQCircuit (topology c) (<[e := ix]> (a c)) (s c)
             (<[snd (cursor c) := t]> (M c)) psi (ind, fst (cursor c))) ∨
     (adjacent (topology c) (snd (cursor c)) ind ∧
      c' = mkQCircuit (topology c) (<[e := ix]> (a c)) (s c)
             (<[fst (cursor c) := t]> (M c)) psi (snd (cursor c), ind))).
Proof.
  intros Hok Hrun.
  destruct (decide (ind = fst (cursor c))) as [E1|E1].
  { destruct (shift_to_abort c ind args w) as [msg E]; [by left | congruence]. }
  destruct (decide (ind = snd (cursor c))) as [E2|E2].
  { destruct (shift_to_abort c ind args w) as [msg E];
      [by right; left | congruence]. }
  do 2 (split; [done|]).
  destruct (decide (adjacent (topology c) (snd (cursor c)) ind)) as [A2|A2].
  - destruct (shift_to_result_B c ind args w Hok E1 E2 A2)
      as (spec0 & c0 & w0 & e & ix & U & psi & Hrun0 & He & ->).
    rewrite Hrun0 in Hrun. injection Hrun as _ <- _.
    exists e, ix, U, psi. split; [done|]. by right.
  - destruct (decide (adjacent (topology c) (fst (cursor c)) ind)) as [A1|A1].
    + destruct (shift_to_result_A c ind args w Hok E1 E2 A1 A2)
        as (spec0 & c0 & w0 & e & ix & V & psi & Hrun0 & He & ->).
      rewrite Hrun0 in Hrun. injection Hrun as _ <- _.
      exists e, ix, V, psi. split; [done|]. by left.
    + destruct (shift_to_abort c ind args w) as [msg E]; [|congruence].
      right. right. done.
Qed.

End Moves.

(** X7 — [decomposePsi] on a contracted configuration always returns, and
    leaves a contracted configuration: the topology, the site indices, the
    cursor and [Psi] are the ones it found; of the site tensors only
    [M[first]] and [M[second]] are written, and of the link indices only the
    one the topology gives to the cursor edge. *)
Theorem decomposePsi_is_local `{K : TensorKernel} (c : QCircuit) (args : Args)
    (w : World) :
  state_ok c →
  ∃ c' w',
    decomposePsi args c w = Ok (tt, c', w') ∧
    state_ok c' ∧
    topology c' = topology c ∧ s c' = s c ∧
    cursor c' = cursor c ∧ Psi c' = Psi c ∧
    (∀ i, i ≠ fst (cursor c) → i ≠ snd (cursor c) → M c' !! i = M c !! i) ∧
    (∀ e, ¬ link_between (topology c) (fst (cursor c)) (snd (cursor c)) e →
          a c' !! e = a c !! e).
Proof.
  intros Hok.
  destruct (decomposePsi_result c args w Hok)
    as (c' & w' & e & U & SV & Hrun & He & ->).
  eexists _, w'. split; [exact Hrun|]. simpl.
  split; [by apply (decomposePsi_state_ok c args w tt _ w')|].
  do 4 (split; [done|]). split.
  - intros i H1 H2. by rewrite !list_lookup_insert_ne.
  - intros e' He'. rewrite list_lookup_insert_ne; [done|]. by intros <-.
Qed.

Lemma decomposePsi_is_local_witness :
  ∃ c' w',
    decomposePsi (K := Ref.kernel) (Ref.mkArgs 2 0) Scenario.chain4_state 7
      = Ok (tt, c', w') ∧
    state_ok c' ∧
    topology c' = topology Scenario.chain4_state ∧
    s c' = s Scenario.chain4_state ∧
    cursor c' = cursor Scenario.chain4_state ∧
    Psi c' = Psi Scenario.chain4_state ∧
    (∀ i, i ≠ fst (cursor Scenario.chain4_state) →
          i ≠ snd (cursor Scenario.chain4_state) →
          M c' !! i = M Scenario.chain4_state !! i) ∧
    (∀ e, ¬ link_between (topology Scenario.chain4_state)
              (fst (cursor Scenario.chain4_state))
              (snd (cursor Scenario.chain4_state)) e →
          a c' !! e = a Scenario.chain4_state !! e).
Proof.
  apply (decomposePsi_is_local (K := Ref.kernel) Scenario.chain4_state
           (Ref.mkArgs 2 0) 7).
  apply state_okb_sound. vm_compute. reflexivity.
Defined.

(** X8 — on a contracted configuration [shift_to(ind)] returns exactly when
    [ind] is not under the cursor and is a neighbour of one of its two
    sites. *)
Theorem shift_to_returns_exactly_when `{K : TensorKernel} (c : QCircuit)
    (ind : nat) (args : Args) (w : World) :
  state_ok c →
  (∃ spec c' w', shift_to ind args c w = Ok (spec, c', w')) ↔
  ind ≠ fst (cursor c) ∧ ind ≠ snd (cursor c) ∧
  (adjacent (topology c) (fst (cursor c)) ind ∨
   adjacent (topology c) (snd (cursor c)) ind).
Proof.
  intros Hok. split.
  - intros (spec & c' & w' & Hrun).
    destruct (shift_to_cases c ind args w spec c' w' Hok Hrun)
      as (E1 & E2 & e & ix & t & psi & _ & [(A1 & _)|(A2 & _)]).
    + do 2 (split; [done|]). by left.
    + do 2 (split; [done|]). by right.
  - intros (E1 & E2 & Hadj).
    destruct (decide (adjacent (topology c) (snd (cursor c)) ind)) as [A2|A2].
    + destruct (shift_to_result_B c ind args w Hok E1 E2 A2)
        as (spec & c' & w' & _ & _ & _ & _ & Hrun & _).
      by exists spec, c', w'.
    + destruct Hadj as [A1|]; [|done].
      destruct (shift_to_result_A c ind args w Hok E1 E2 A1 A2)
        as (spec & c' & w' & _ & _ & _ & _ & Hrun & _).
      by exists spec, c', w'.
Qed.

Lemma shift_to_returns_exactly_when_witness :
  (∃ spec c' w',
     shift_to (K := Ref.kernel) 2 (Ref.mkArgs 2 0) Scenario.chain4_state 7
       = Ok (spec, c', w')) ↔
  2 ≠ fst (cursor Scenario.chain4_state) ∧
  2 ≠ snd (cursor Scenario.chain4_state) ∧
  (adjacent (topology Scenario.chain4_state)
     (fst (cursor Scenario.chain4_state)) 2 ∨
   adjacent (topology Scenario.chain4_state)
     (snd (cursor Scenario.chain4_state)) 2).
Proof.
  apply (shift_to_returns_exactly_when (K := Ref.kernel) Scenario.chain4_state
           2 (Ref.mkArgs 2 0) 7).
  apply state_okb_sound. vm_compute. reflexivity.
Defined.

(** X9 — a [shift_to(ind)] that returns leaves a contracted configuration
    on the same topology and site indices.  The new cursor keeps one site of
    the old one and has [ind] in the place of the other: [(ind, first)] or
    [(second, ind)]; its two sites differ.  The only site tensor written is
    the one of the site the cursor has left, and the only link index written
    is the one of the old cursor edge. *)
Theorem shift_to_is_local `{K : TensorKernel} (c : QCircuit) (ind : nat)
    (args : Args) (w : World) (spec : Spectrum) (c' : QCircuit) (w' : World) :
  state_ok c →
  shift_to ind args c w = Ok (spec, c', w') →
  state_ok c' ∧
  topology c' = topology c ∧ s c' = s c ∧
  fst (cursor c') ≠ snd (cursor c') ∧
  (∃ left,
     (cursor c' = (ind, fst (cursor c)) ∧ left = snd (cursor c) ∨
      cursor c' = (snd (cursor c), ind) ∧ left = fst (cursor c)) ∧
     ∀ i, i ≠ left → M c' !! i = M c !! i) ∧
  (∀ e, ¬ link_between (topology c) (fst (cursor c)) (snd (cursor c)) e →
        a c' !! e = a c !! e).
Proof.
  intros Hok Hrun.
  pose proof (shift_to_state_ok c ind args w spec c' w' Hok Hrun) as Hok'.
  destruct (shift_to_cases c ind args w spec c' w' Hok Hrun)
    as (E1 & E2 & e & ix & t & psi & He & [(A1 & A2 & ->)|(A2 & ->)]); simpl.
  - do 4 (split; [done|]). split.
    + exists (snd (cursor c)). split; [by left|].
      intros i Hi. by rewrite list_lookup_insert_ne.
    + intros e' He'. rewrite list_lookup_insert_ne; [done|]. by intros <-.
  - do 3 (split; [done|]). split; [by intros <-|]. split.
    + exists (fst (cursor c)). split; [by right|].
      intros i Hi. by rewrite list_lookup_insert_ne.
    + intros e' He'. rewrite list_lookup_insert_ne; [done|]. by intros <-.
Qed.

Lemma shift_to_is_local_witness :
  state_ok Scenario.chain3_moved.1.2 ∧
  topology Scenario.chain3_moved.1.2 = topology Scenario.chain3_state ∧
  s Scenario.chain3_moved.1.2 = s Scenario.chain3_state ∧
  fst (cursor Scenario.chain3_moved.1.2)
    ≠ snd (cursor Scenario.chain3_moved.1.2) ∧
  (∃ left,
     (cursor Scenario.chain3_moved.1.2
        = (2, fst (cursor Scenario.chain3_state)) ∧
      left = snd (cursor Scenario.chain3_state) ∨
      cursor Scenario.chain3_moved.1.2
        = (snd (cursor Scenario.chain3_state), 2) ∧
      left = fst (cursor Scenario.chain3_state)) ∧
     ∀ i, i ≠ left →
          M Scenario.chain3_moved.1.2 !! i = M Scenario.chain3_state !! i) ∧
  (∀ e, ¬ link_between (topology Scenario.chain3_state)
            (fst (cursor Scenario.chain3_state))
            (snd (cursor Scenario.chain3_state)) e →
        a Scenario.chain3_moved.1.2 !! e = a Scenario.chain3_state !! e).
Proof.
  apply (shift_to_is_local (K := Ref.kernel) Scenario.chain3_state 2
           (Ref.mkArgs 2 0) 5 Scenario.chain3_moved.1.1
           Scenario.chain3_moved.1.2 Scenario.chain3_moved.2).
  - apply state_okb_sound. vm_compute. reflexivity.
  - vm_compute. reflexivity.
Defined.

(** X10 — there and back: on a contracted configuration whose cursor sites
    differ, after a [shift_to(ind)] to a site that is a neighbour of only
    one of the two cursor sites, a [shift_to] to the site the cursor has
    left returns and puts the cursor back on the pair it came from, in the
    same order. *)
Theorem shift_to_and_back `{K : TensorKernel} (c : QCircuit) (ind : nat)
    (args args' : Args) (w : World) (spec : Spectrum) (c1 : QCircuit)
    (w1 : World) :
  state_ok c →
  fst (cursor c) ≠ snd (cursor c) →
  ¬ (adjacent (topology c) (fst (cursor c)) ind ∧
     adjacent (topology c) (snd (cursor c)) ind) →
  shift_to ind args c w = Ok (spec, c1, w1) →
  ∃ back spec2 c2 w2,
    (back = fst (cursor c) ∨ back = snd (cursor c)) ∧
    back ≠ fst (cursor c1) ∧ back ≠ snd (cursor c1) ∧
    shift_to back args' c1 w1 = Ok (spec2, c2, w2) ∧
    cursor c2 = cursor c ∧
    topology c2 = topology c ∧ s c2 = s c.
Proof.
  intros Hok Hne Htri Hrun. pose proof (ok_topology c Hok) as Ht.
  pose proof (shift_to_state_ok c ind args w spec c1 w1 Hok Hrun) as Hok1.
  destruct (shift_to_cases c ind args w spec c1 w1 Hok Hrun)
    as (E1 & E2 & e & ix & t & psi & He & [(A1 & A2 & ->)|(A2 & ->)]).
  - (* the cursor is (ind, first): back to second, through first *)
    destruct (shift_to_result_B _ (snd (cursor c)) args' w1 Hok1)
      as (spec2 & c2 & w2 & e2 & ix2 & U2 & psi2 & Hrun2 & _ & ->); simpl.
    + congruence.
    + congruence.
    + apply (ok_edge c Hok).
    + eexists (snd (cursor c)), spec2, _, w2.
      split; [by right|]. split; [congruence|]. split; [congruence|].
      split; [exact Hrun2|]. simpl. by destruct (cursor c).
  - (* the cursor is (second, ind): back to first, through second *)
    assert (A1 : ¬ adjacent (topology c) ind (fst (cursor c))).
    { intros A. apply Htri. split; [|done].
      apply adjacent_back; [done | | done].
      by apply (adjacent_in_range _ _ _ Ht (ok_second c Hok)). }
    destruct (shift_to_result_A _ (fst (cursor c)) args' w1 Hok1)
      as (spec2 & c2 & w2 & e2 & ix2 & V2 & psi2 & Hrun2 & _ & ->); simpl.
    + congruence.
    + congruence.
    + apply adjacent_back; [done | apply (ok_first c Hok) | apply (ok_edge c Hok)].
    + done.
    + eexists (fst (cursor c)), spec2, _, w2.
      split; [by left|]. split; [congruence|]. split; [congruence|].
      split; [exact Hrun2|]. simpl. by destruct (cursor c).
Qed.

Lemma shift_to_and_back_witness :
  ∃ back spec2 c2 w2,
    (back = fst (cursor Scenario.chain3_state) ∨
     back = snd (cursor Scenario.chain3_state)) ∧
    back ≠ fst (cursor Scenario.chain3_moved.1.2) ∧
    back ≠ snd (cursor Scenario.chain3_moved.1.2) ∧
    shift_to (K := Ref.kernel) back (Ref.mkArgs 1 0)
      Scenario.chain3_moved.1.2 Scenario.chain3_moved.2
      = Ok (spec2, c2, w2) ∧
    cursor c2 = cursor Scenario.chain3_state ∧
    topology c2 = topology Scenario.chain3_state ∧
    s c2 = s Scenario.chain3_state.
Proof.
  apply (shift_to_and_back (K := Ref.kernel) Scenario.chain3_state 2
           (Ref.mkArgs 2 0) (Ref.mkArgs 1 0) 5 Scenario.chain3_moved.1.1
           Scenario.chain3_moved.1.2 Scenario.chain3_moved.2).
  - apply state_okb_sound. vm_compute. reflexivity.
  - vm_compute. lia.
  - intros [H _]. revert H. unfold adjacent. by_evaluation.
  - vm_compute. reflexivity.
Defined.

(** ** What [apply] accepts *)

Section ApplyChecks.
Context {K : TensorKernel}.

Lemma check_elems_bad (c : QCircuit) sf ss l :
  s c !! fst (cursor c) = Some sf →
  s c !! snd (cursor c) = Some ss →
  (∃ i, i ∈ l ∧ i ∉ [sf; ss; primeI sf; primeI ss]) →
  check_elems c l =
    Abort ("elem == s[cursor.first] || elem == s[cursor.second] || "
           ++ "elem == prime(s[cursor.first]) || elem == prime(s[cursor.second])").
Proof.
  intros Hf Hs. induction l as [|i l IH]; intros (j & Hj & Hbad).
  { by apply elem_of_nil in Hj. }
  simpl. unfold check_elem.
  rewrite (vec_at_Some _ _ _ _ Hf). simpl.
  destruct (decide (i ∈ [sf; ss; primeI sf; primeI ss])) as [Hi|Hi].
  - assert (Hrest : ∃ i, i ∈ l ∧ i ∉ [sf; ss; primeI sf; primeI ss]).
    { exists j. split; [|done].
      apply elem_of_cons in Hj as [->|Hj]; done. }
    destruct (bool_decide_reflect (i = sf)) as [E|E]; [by apply IH|].
    rewrite (vec_at_Some _ _ _ _ Hs). simpl.
    replace (bool_decide (i = ss) || bool_decide (i = primeI sf)
             || bool_decide (i = primeI ss)) with true; [by apply IH|].
    symmetry. rewrite !orb_true_iff, !bool_decide_eq_true.
    rewrite !elem_of_cons, elem_of_nil in Hi. tauto.
  - rewrite !elem_of_cons, elem_of_nil in Hi.
    rewrite bool_decide_eq_false_2 by tauto.
    rewrite (vec_at_Some _ _ _ _ Hs). simpl.
    rewrite !bool_decide_eq_false_2 by tauto. done.
Qed.

Lemma apply_wrong_rank (op : ITensor) (c : QCircuit) :
  length (inds op) ≠ 4 → apply op c = Abort "op.inds().size() == 4".
Proof.
  intros H. unfold apply. by rewrite (proj2 (Nat.eqb_neq _ _) H).
Qed.

End ApplyChecks.

(** X11 — [apply(op)], for a cursor whose two sites have site indices [sf]
    and [ss]: an [op] whose number of indices is not four fails the first
    assertion; an [op] of four indices, one of them none of [sf], [ss],
    [prime(sf)], [prime(ss)], fails the second; any other [op] is applied.
    The check is one of membership: it does not ask that the four indices
    differ. *)
Theorem apply_accepts_exactly `{K : TensorKernel} (c : QCircuit) (op : ITensor)
    (sf ss : Index) :
  s c !! fst (cursor c) = Some sf →
  s c !! snd (cursor c) = Some ss →
  (length (inds op) ≠ 4 → apply op c = Abort "op.inds().size() == 4") ∧
  (length (inds op) = 4 →
   (∃ i, i ∈ inds op ∧ i ∉ [sf; ss; primeI sf; primeI ss]) →
   apply op c =
     Abort ("elem == s[cursor.first] || elem == s[cursor.second] || "
            ++ "elem == prime(s[cursor.first]) || elem == prime(s[cursor.second])")) ∧
  (length (inds op) = 4 →
   (∀ i, i ∈ inds op → i ∈ [sf; ss; primeI sf; primeI ss]) →
   apply op c =
     Ok (tt, mkQCircuit (topology c) (a c) (s c) (M c)
               (tmul op (primeTs (Psi c) [sf; ss])) (cursor c))).
Proof.
  intros Hf Hs. split; [apply apply_wrong_rank|]. split.
  - intros Hlen Hbad. unfold apply. rewrite Hlen. simpl.
    by rewrite (check_elems_bad c sf ss).
  - intros Hlen Hin. by apply apply_run.
Qed.

Lemma apply_accepts_exactly_witness :
  (length (Ref.tensor_inds (Scenario.rot Scenario.site0 Scenario.site1)) ≠ 4 →
   apply (K := Ref.kernel) (Scenario.rot Scenario.site0 Scenario.site1)
     Scenario.chain2_state = Abort "op.inds().size() == 4") ∧
  (length (Ref.tensor_inds (Scenario.rot Scenario.site0 Scenario.site1)) = 4 →
   (∃ i, i ∈ Ref.tensor_inds (Scenario.rot Scenario.site0 Scenario.site1) ∧
         i ∉ [Scenario.site0; Scenario.site1; Ref.prime_index Scenario.site0;
              Ref.prime_index Scenario.site1]) →
   apply (K := Ref.kernel) (Scenario.rot Scenario.site0 Scenario.site1)
     Scenario.chain2_state =
     Abort ("elem == s[cursor.first] || elem == s[cursor.second] || "
            ++ "elem == prime(s[cursor.first]) || elem == prime(s[cursor.second])")) ∧
  (length (Ref.tensor_inds (Scenario.rot Scenario.site0 Scenario.site1)) = 4 →
   (∀ i, i ∈ Ref.tensor_inds (Scenario.rot Scenario.site0 Scenario.site1) →
         i ∈ [Scenario.site0; Scenario.site1; Ref.prime_index Scenario.site0;
              Ref.prime_index Scenario.site1]) →
   apply (K := Ref.kernel) (Scenario.rot Scenario.site0 Scenario.site1)
     Scenario.chain2_state =
     Ok (tt, mkQCircuit (topology Scenario.chain2_state)
               (a Scenario.chain2_state) (s Scenario.chain2_state)
               (M Scenario.chain2_state)
               (Ref.tensor_mul (Scenario.rot Scenario.site0 Scenario.site1)
                  (Ref.tensor_prime_some (Psi Scenario.chain2_state)
                     [Scenario.site0; Scenario.site1]))
               (cursor Scenario.chain2_state))).
Proof.
  apply (apply_accepts_exactly (K := Ref.kernel) Scenario.chain2_state
           (Scenario.rot Scenario.site0 Scenario.site1)
           Scenario.site0 Scenario.site1).
  - vm_compute. reflexivity.
  - vm_compute. reflexivity.
Defined.

Section GateIndices.
Context {K : TensorKernel}.

Lemma one_site_gate_inds (g : Index → ITensor) (sx : Index) :
  element_laws K → g ∈ one_site_gates → inds (g sx) = [sx; primeI sx].
Proof.
  intros L Hg. unfold one_site_gates in Hg.
  rewrite !elem_of_cons, elem_of_nil in Hg.
  destruct Hg as [->|[->|[->|[->|[->|[->|[->|[->|[]]]]]]]]];
    cbv [Id X Y Z proj_0 proj_1 proj_0_to_1 proj_1_to_0];
    by rewrite ?(inds_tset K L), (inds_mkITensor K L).
Qed.

End GateIndices.

(** X12 — the one-site gates and [apply]: each of [Id], [X], [Y], [Z] and
    the four projectors is a tensor on the two indices [sx] and [prime(sx)],
    so [apply] refuses it alone, whatever the circuit; the product of one of
    them on [s[first]] with one of them on [s[second]] has the four indices
    [apply] asks for, and is applied. *)
Theorem apply_takes_products_of_one_site_gates `{K : TensorKernel}
    (c : QCircuit) (g1 g2 : Index → ITensor) (sf ss : Index) :
  element_laws K → contraction_index_law K →
  g1 ∈ one_site_gates → g2 ∈ one_site_gates →
  s c !! fst (cursor c) = Some sf →
  s c !! snd (cursor c) = Some ss →
  NoDup [sf; primeI sf; ss; primeI ss] →
  (∀ sx, apply (g1 sx) c = Abort "op.inds().size() == 4") ∧
  inds (tmul (g1 sf) (g2 ss)) = [sf; primeI sf; ss; primeI ss] ∧
  apply (tmul (g1 sf) (g2 ss)) c =
    Ok (tt, mkQCircuit (topology c) (a c) (s c) (M c)
              (tmul (tmul (g1 sf) (g2 ss)) (primeTs (Psi c) [sf; ss]))
              (cursor c)).
Proof.
  intros L Hmul Hg1 Hg2 Hf Hs Hnd.
  assert (I1 : inds (g1 sf) = [sf; primeI sf]) by by apply one_site_gate_inds.
  assert (I2 : inds (g2 ss) = [ss; primeI ss]) by by apply one_site_gate_inds.
  assert (I12 : inds (tmul (g1 sf) (g2 ss)) = [sf; primeI sf; ss; primeI ss]).
  { rewrite Hmul by (by rewrite ?I1, ?I2). rewrite I1, I2.
    apply NoDup_cons in Hnd as [N1 Hnd]. apply NoDup_cons in Hnd as [N2 Hnd].
    rewrite !not_elem_of_cons in N1. rewrite !not_elem_of_cons in N2.
    destruct N1 as (N12 & N13 & N14 & _). destruct N2 as (N23 & N24 & _).
    rewrite !filter_cons_True, !filter_nil; [done | ..];
      rewrite !elem_of_cons, elem_of_nil; intros [?|[?|[]]]; congruence. }
  split; [|split; [done|]].
  - intros sx. apply apply_wrong_rank.
    by rewrite (one_site_gate_inds g1 sx L Hg1).
  - apply apply_run; [done | done | by rewrite I12 |].
    intros i. rewrite I12, !elem_of_cons, !elem_of_nil. tauto.
Qed.

Lemma apply_takes_products_of_one_site_gates_witness :
  (∀ sx, apply (K := Ref.kernel) (X (K := Ref.kernel) sx) Scenario.chain2_state
         = Abort "op.inds().size() == 4") ∧
  Ref.tensor_inds
    (Ref.tensor_mul (X (K := Ref.kernel) Scenario.site0)
       (Z (K := Ref.kernel) Scenario.site1))
    = [Scenario.site0; Ref.prime_index Scenario.site0;
       Scenario.site1; Ref.prime_index Scenario.site1] ∧
  apply (K := Ref.kernel)
    (Ref.tensor_mul (X (K := Ref.kernel) Scenario.site0)
       (Z (K := Ref.kernel) Scenario.site1)) Scenario.chain2_state =
    Ok (tt, mkQCircuit (topology Scenario.chain2_state)
              (a Scenario.chain2_state) (s Scenario.chain2_state)
              (M Scenario.chain2_state)
              (Ref.tensor_mul
                 (Ref.tensor_mul (X (K := Ref.kernel) Scenario.site0)
                    (Z (K := Ref.kernel) Scenario.site1))
                 (Ref.tensor_prime_some (Psi Scenario.chain2_state)
                    [Scenario.site0; Scenario.site1]))
              (cursor Scenario.chain2_state)).
Proof.
  apply (apply_takes_products_of_one_site_gates (K := Ref.kernel)
           Scenario.chain2_state X Z Scenario.site0 Scenario.site1).
  - exact ref_element_laws.
  - exact ref_contraction_index.
  - unfold one_site_gates. rewrite !elem_of_cons. tauto.
  - unfold one_site_gates. rewrite !elem_of_cons. tauto.
  - vm_compute. reflexivity.
  - vm_compute. reflexivity.
  - by_evaluation.
Defined.

(** ** The accessors *)

Section Accessors.
Context {K : TensorKernel}.

Lemma Mref_in_range (c : QCircuit) i :
  length (M c) = size c → i < size c →
  ∃ m, Mref c i = Ok m ∧ M c !! i = Some m.
Proof.
  intros HM Hi. destruct (lookup_lt_is_Some_2 (M c) i) as [m Hm]; [lia|].
  exists m. split; [|done]. unfold Mref.
  rewrite (proj2 (Nat.ltb_lt _ _) Hi). simpl. by apply vec_at_Some.
Qed.

Lemma site_ref_in_range (c : QCircuit) i :
  size c ≤ length (s c) → i < size c →
  ∃ sx, site_ref c i = Ok sx ∧ s c !! i = Some sx.
Proof.
  intros Hs Hi. destruct (lookup_lt_is_Some_2 (s c) i) as [sx Hsx]; [lia|].
  exists sx. split; [|done]. unfold site_ref.
  rewrite (proj2 (Nat.ltb_lt _ _) Hi). simpl. by apply vec_at_Some.
Qed.

Lemma primeAll_state_ok (c : QCircuit) : state_ok c → state_ok (primeAll c).
Proof.
  intros []. split; simpl; rewrite ?length_map; done.
Qed.

End Accessors.

(** X13 — the accessors [Mref(i)] and [site(i)] on a contracted
    configuration of [N] sites: for [i < N] they return [M[i]] and [s[i]];
    for [i >= N] they stop on their assertion, [site(i)] also when the list
    of site indices is longer than [N] and has an entry at [i]. *)
Theorem accessors_are_bounded `{K : TensorKernel} (c : QCircuit) (i : nat) :
  state_ok c →
  (i < size c →
   ∃ m sx, Mref c i = Ok m ∧ M c !! i = Some m ∧
           site_ref c i = Ok sx ∧ s c !! i = Some sx) ∧
  (size c ≤ i →
   Mref c i = Abort "0 <= i && i < this->size()" ∧
   site_ref c i = Abort "0 <= i && i < this->size()").
Proof.
  intros Hok. split.
  - intros Hi.
    destruct (Mref_in_range c i (ok_M c Hok) Hi) as (m & H1 & H2).
    destruct (site_ref_in_range c i (ok_s c Hok) Hi) as (sx & H3 & H4).
    by exists m, sx.
  - intros Hi. unfold Mref, site_ref.
    by rewrite (proj2 (Nat.ltb_ge _ _) Hi).
Qed.

Lemma accessors_are_bounded_witness :
  (2 < size (K := Ref.kernel) Scenario.chain4_state →
   ∃ m sx, Mref (K := Ref.kernel) Scenario.chain4_state 2 = Ok m ∧
           M Scenario.chain4_state !! 2 = Some m ∧
           site_ref (K := Ref.kernel) Scenario.chain4_state 2 = Ok sx ∧
           s Scenario.chain4_state !! 2 = Some sx) ∧
  (size (K := Ref.kernel) Scenario.chain4_state ≤ 2 →
   Mref (K := Ref.kernel) Scenario.chain4_state 2
     = Abort "0 <= i && i < this->size()" ∧
   site_ref (K := Ref.kernel) Scenario.chain4_state 2
     = Abort "0 <= i && i < this->size()").
Proof.
  apply (accessors_are_bounded (K := Ref.kernel) Scenario.chain4_state 2).
  apply state_okb_sound. vm_compute. reflexivity.
Defined.

(** ** [overlap] *)

Section Overlap.
Context {K : TensorKernel}.

(** The loop of [overlap] reads the three vectors in range and contracts
    what is left of them. *)
Lemma overlap_loop_chain (c1 c2 : QCircuit) op n from ret_t :
  length (M c1) = size c1 → length (M c2) = size c2 →
  size c1 = size c2 → length op = size c1 →
  from + n = size c1 →
  overlap_loop c1 c2 op n from ret_t =
    Ok (overlap_rest (drop from (M c1)) (drop from op) (drop from (M c2)) ret_t).
Proof.
  intros H1 H2 H12 Hop. revert from ret_t.
  induction n as [|n IH]; intros from ret_t Hn.
  - simpl. rewrite (drop_ge (M c1)) by lia. done.
  - simpl.
    destruct (Mref_in_range c1 from H1) as (m1 & -> & E1); [lia|].
    destruct (lookup_lt_is_Some_2 op from) as [o Eo]; [lia|].
    simpl. rewrite (vec_at_Some _ _ _ _ Eo). simpl.
    destruct (Mref_in_range c2 from H2) as (m2 & -> & E2); [lia|].
    simpl. rewrite IH by lia.
    by rewrite (drop_S _ _ _ E1), (drop_S _ _ _ Eo), (drop_S _ _ _ E2).
Qed.

(** With one operator for each site of both circuits [overlap] passes its
    assertion and every bounds check, and ends in [cplx()] of the chain over
    the site tensors that the two calls of [decomposePsi] leave. *)
Lemma overlap_run (c1 c2 : QCircuit) op args w c1' w1 c2' w2 :
  state_ok c1 → state_ok c2 →
  length op = size c1 → length op = size c2 →
  decomposePsi args c1 w = Ok (tt, c1', w1) →
  decomposePsi args c2 w1 = Ok (tt, c2', w2) →
  ∃ T,
    overlap_chain (M c1') op (map primeT (M c2')) = Some T ∧
    overlap c1 op c2 args w = obind (cplx_or_stop T) (fun z => Ok (z, w2)).
Proof.
  intros Hok1 Hok2 L1 L2 R1 R2.
  pose proof (decomposePsi_state_ok c1 args w tt c1' w1 Hok1 R1) as Hok1'.
  pose proof (decomposePsi_state_ok c2 args w1 tt c2' w2 Hok2 R2) as Hok2'.
  assert (S1 : size c1' = size c1).
  { destruct (decomposePsi_result c1 args w Hok1)
      as (c0 & w0 & ? & ? & ? & R0' & _ & ->).
    rewrite R1 in R0'. by injection R0' as -> _. }
  assert (S2 : size c2' = size c2).
  { destruct (decomposePsi_result c2 args w1 Hok2)
      as (c0 & w0 & ? & ? & ? & R0' & _ & ->).
    rewrite R2 in R0'. by injection R0' as -> _. }
  pose proof (primeAll_state_ok c2' Hok2') as Hok2''.
  assert (S2' : size (primeAll c2') = size c2) by done.
  assert (HN : 0 < size c1).
  { rewrite <- S1. pose proof (ok_first c1' Hok1'). unfold size. lia. }
  destruct (Mref_in_range c1' 0 (ok_M c1' Hok1')) as (m1 & Q1 & E1); [lia|].
  destruct (lookup_lt_is_Some_2 op 0) as [o Eo]; [lia|].
  destruct (Mref_in_range (primeAll c2') 0 (ok_M _ Hok2'')) as (m2 & Q2 & E2);
    [lia|].
  exists (overlap_rest (drop 1 (M c1')) (drop 1 op) (drop 1 (map primeT (M c2')))
            (tmul (tmul (dag m1) o) m2)).
  split.
  - change (M (primeAll c2')) with (map primeT (M c2')) in E2.
    destruct (M c1') as [|x1 r1]; [done|].
    destruct op as [|xo ro]; [done|].
    destruct (map primeT (M c2')) as [|x2 r2]; [done|].
    simpl in E1, Eo, E2. by injection E1 as ->; injection Eo as ->;
      injection E2 as ->.
  - unfold overlap.
    rewrite (proj2 (Nat.eqb_eq _ _) L1), (proj2 (Nat.eqb_eq _ _) L2). simpl.
    rewrite R1. simpl. rewrite R2. simpl. rewrite Q1. simpl.
    rewrite (vec_at_Some _ _ _ _ Eo). simpl. rewrite Q2. simpl.
    rewrite (overlap_loop_chain c1' (primeAll c2') op (size c1' - 1) 1);
      [done | apply (ok_M c1' Hok1') | apply (ok_M _ Hok2'') | lia.. ].
Qed.

Lemma overlap_wrong_length (c1 c2 : QCircuit) op args w :
  length op ≠ size c1 ∨ length op ≠ size c2 →
  overlap c1 op c2 args w =
    Abort "op.size() == circuit1.size() && op.size() == circuit2.size()".
Proof.
  intros H. unfold overlap.
  replace ((length op =? size c1) && (length op =? size c2)) with false; [done|].
  symmetry. apply andb_false_iff.
  destruct H as [H|H]; [left | right]; by apply Nat.eqb_neq.
Qed.

Lemma cplx_or_stop_scalar (t : ITensor) :
  inds t = [] → cplx_or_stop t = Ok (cplx t).
Proof. unfold cplx_or_stop. by intros ->. Qed.

Lemma cplx_or_stop_open (t : ITensor) :
  inds t ≠ [] →
  cplx_or_stop t = Abort "cplx() of an ITensor that is not a scalar".
Proof. unfold cplx_or_stop. by destruct (inds t). Qed.

End Overlap.

(** X15 — [overlap(circuit1, op, circuit2)] on two circuits in the
    contracted configuration.  With a list [op] of another length than the
    number of sites of either circuit it stops on its assertion.  With one
    operator for each site of both, the two calls of [decomposePsi] return,
    every read of [M] and of [op] is in range, and the call ends in
    [ret_t.cplx()] of the chain contracted over the site tensors of the first
    circuit and the primed ones of the second: it returns that scalar when
    the chain has no index left and stops in [cplx()] when it has one.
    Nothing checks that the two circuits share their site indices or that
    [op[i]] is a tensor on [s[i]] and its prime. *)
Theorem overlap_returns_exactly_when `{K : TensorKernel}
    (circuit1 circuit2 : QCircuit) (op : list ITensor) (args : Args)
    (w : World) :
  state_ok circuit1 → state_ok circuit2 →
  (length op ≠ size circuit1 ∨ length op ≠ size circuit2 →
   overlap circuit1 op circuit2 args w =
     Abort "op.size() == circuit1.size() && op.size() == circuit2.size()") ∧
  (length op = size circuit1 ∧ length op = size circuit2 →
   ∃ c1' w1 c2' w2 T,
     decomposePsi args circuit1 w = Ok (tt, c1', w1) ∧
     decomposePsi args circuit2 w1 = Ok (tt, c2', w2) ∧
     overlap_chain (M c1') op (map primeT (M c2')) = Some T ∧
     (inds T = [] → overlap circuit1 op circuit2 args w = Ok (cplx T, w2)) ∧
     (inds T ≠ [] →
      overlap circuit1 op circuit2 args w =
        Abort "cplx() of an ITensor that is not a scalar")).
Proof.
  intros Hok1 Hok2. split; [apply overlap_wrong_length|].
  intros [L1 L2].
  destruct (decomposePsi_result circuit1 args w Hok1)
    as (c1' & w1 & _ & _ & _ & R1 & _ & _).
  destruct (decomposePsi_result circuit2 args w1 Hok2)
    as (c2' & w2 & _ & _ & _ & R2 & _ & _).
  destruct (overlap_run circuit1 circuit2 op args w c1' w1 c2' w2
              Hok1 Hok2 L1 L2 R1 R2) as (T & HT & Hrun).
  exists c1', w1, c2', w2, T. do 3 (split; [done|]). split.
  - intros HI. by rewrite Hrun, cplx_or_stop_scalar.
  - intros HI. by rewrite Hrun, cplx_or_stop_open.
Qed.

Lemma overlap_returns_exactly_when_witness :
  (length (Scenario.identities Scenario.chain2_state)
     ≠ size (K := Ref.kernel) Scenario.chain2_state ∨
   length (Scenario.identities Scenario.chain2_state)
     ≠ size (K := Ref.kernel) Scenario.chain2_again →
   overlap (K := Ref.kernel) Scenario.chain2_state
     (Scenario.identities Scenario.chain2_state) Scenario.chain2_again
     (Ref.mkArgs 2 0) 6 =
     Abort "op.size() == circuit1.size() && op.size() == circuit2.size()") ∧
  (length (Scenario.identities Scenario.chain2_state)
     = size (K := Ref.kernel) Scenario.chain2_state ∧
   length (Scenario.identities Scenario.chain2_state)
     = size (K := Ref.kernel) Scenario.chain2_again →
   ∃ c1' w1 c2' w2 T,
     decomposePsi (K := Ref.kernel) (Ref.mkArgs 2 0) Scenario.chain2_state 6
       = Ok (tt, c1', w1) ∧
     decomposePsi (K := Ref.kernel) (Ref.mkArgs 2 0) Scenario.chain2_again w1
       = Ok (tt, c2', w2) ∧
     overlap_chain (K := Ref.kernel) (M c1')
       (Scenario.identities Scenario.chain2_state)
       (map Ref.tensor_prime (M c2')) = Some T ∧
     (Ref.tensor_inds T = [] →
      overlap (K := Ref.kernel) Scenario.chain2_state
        (Scenario.identities Scenario.chain2_state) Scenario.chain2_again
        (Ref.mkArgs 2 0) 6 = Ok (Ref.tensor_cplx T, w2)) ∧
     (Ref.tensor_inds T ≠ [] →
      overlap (K := Ref.kernel) Scenario.chain2_state
        (Scenario.identities Scenario.chain2_state) Scenario.chain2_again
        (Ref.mkArgs 2 0) 6 =
        Abort "cplx() of an ITensor that is not a scalar")).
Proof.
  apply (overlap_returns_exactly_when (K := Ref.kernel)
           Scenario.chain2_state Scenario.chain2_again
           (Scenario.identities Scenario.chain2_state) (Ref.mkArgs 2 0) 6).
  - apply state_okb_sound. vm_compute. reflexivity.
  - apply state_okb_sound. vm_compute. reflexivity.
Defined.

(** On the reference kernel: a circuit with itself returns; two circuits
    that were built one after the other have no index in common, the chain
    keeps its indices open, and [overlap] stops in [cplx()]. *)
Example overlap_needs_shared_site_indices :
  overlap (K := Ref.kernel) Scenario.chain2_state
    (Scenario.identities Scenario.chain2_state) Scenario.chain2_state
    (Ref.mkArgs 2 0) 6 = Ok (Ref.c1, 10) ∧
  overlap (K := Ref.kernel) Scenario.chain2_state
    (Scenario.identities Scenario.chain2_state) Scenario.chain2_again
    (Ref.mkArgs 2 0) 6 = Abort "cplx() of an ITensor that is not a scalar".
Proof. split; vm_compute; reflexivity. Qed.




(** ** The entries of the one-site gates *)

Section GateEntries.
Context {K : TensorKernel}.

(** The entries of a tensor on [{sx, prime(sx)}] made by one [set]. *)
Lemma one_set_entry (sx : Index) u v z q :
  element_laws K →
  1 ≤ u ≤ dim sx → 1 ≤ v ≤ dim sx →
  elt (tset (mkITensor [sx; primeI sx]) [(sx, u); (primeI sx, v)] z) q =
  if decide ((value_at q sx, value_at q (primeI sx)) = (u, v)) then z else C0.
Proof.
  intros L Hu Hv.
  assert (Hp : sx ≠ primeI sx) by (intros E; by apply (primeI_fresh K L sx)).
  pose proof (dim_primeI K L sx) as Hd.
  set (t0 := mkITensor [sx; primeI sx]).
  assert (I0 : inds t0 = [sx; primeI sx]) by apply (inds_mkITensor K L).
  assert (Hfit : fits t0 [(sx, u); (primeI sx, v)]).
  { unfold fits. rewrite I0, !Forall_cons, Forall_nil.
    destruct (value_at_pair sx (primeI sx) u v Hp) as [-> ->].
    rewrite Hd. lia. }
  assert (Hsame : same_entry t0 [(sx, u); (primeI sx, v)] q ↔
                  (value_at q sx, value_at q (primeI sx)) = (u, v)).
  { unfold same_entry. rewrite I0, !Forall_cons, Forall_nil.
    destruct (value_at_pair sx (primeI sx) u v Hp) as [-> ->]. split.
    - by intros (-> & -> & _).
    - by intros [= -> ->]. }
  destruct (decide (_ = (u, v))) as [E|E].
  - apply (elt_tset_same K L); [by rewrite I0 | done | by apply Hsame].
  - rewrite (elt_tset_other K L); [| by rewrite I0 | done | by rewrite Hsame].
    apply (elt_mkITensor K L).
Qed.

Lemma row_unprimed_values (sx : Index) r c :
  element_laws K →
  (value_at [(sx, r); (primeI sx, c)] sx,
   value_at [(sx, r); (primeI sx, c)] (primeI sx)) = (r, c).
Proof.
  intros L.
  assert (Hp : sx ≠ primeI sx) by (intros E; by apply (primeI_fresh K L sx)).
  by destruct (value_at_pair sx (primeI sx) r c Hp) as [-> ->].
Qed.

End GateEntries.

(** X16 — [Id], [X] and [Z] on a site index [sx] of dimension two or more
    are tensors on [sx] and [prime(sx)].  With the unprimed index as the row
    and the primed one as the column: [Id] has 1 at (1,1) and (2,2); [X] has
    1 at (1,2) and (2,1); [Z] has 1 at (1,1) and -1 at (2,2); their other
    entries are zero. *)
Theorem Id_X_Z_entries `{K : TensorKernel} (sx : Index) :
  element_laws K →
  2 ≤ dim sx →
  (inds (Id sx) = [sx; primeI sx] ∧
   ∀ r c, entry_row_unprimed (Id sx) sx r c =
     if decide ((r, c) = (1, 1) ∨ (r, c) = (2, 2)) then C1 else C0) ∧
  (inds (X sx) = [sx; primeI sx] ∧
   ∀ r c, entry_row_unprimed (X sx) sx r c =
     if decide ((r, c) = (1, 2) ∨ (r, c) = (2, 1)) then C1 else C0) ∧
  (inds (Z sx) = [sx; primeI sx] ∧
   ∀ r c, entry_row_unprimed (Z sx) sx r c =
     if decide ((r, c) = (1, 1)) then C1
     else if decide ((r, c) = (2, 2)) then Copp C1 else C0).
Proof.
  intros L Hd. unfold entry_row_unprimed.
  split; [|split]; (split;
    [cbv [Id X Z]; by rewrite !(inds_tset K L), (inds_mkITensor K L)|]);
    intros r c; cbv [Id X Z];
    rewrite two_sets_entry by (done || lia);
    rewrite (row_unprimed_values sx r c L).
  - destruct (decide ((r, c) = (2, 2))) as [E|E].
    { rewrite decide_True; [done | by right]. }
    destruct (decide ((r, c) = (1, 1))) as [E'|E'].
    { rewrite decide_True; [done | by left]. }
    rewrite decide_False; [done | tauto].
  - destruct (decide ((r, c) = (2, 1))) as [E|E].
    { rewrite decide_True; [done | by right]. }
    destruct (decide ((r, c) = (1, 2))) as [E'|E'].
    { rewrite decide_True; [done | by left]. }
    rewrite decide_False; [done | tauto].
  - destruct (decide ((r, c) = (2, 2))) as [E|E].
    { rewrite decide_False by (rewrite E; done). done. }
    done.
Qed.

Lemma Id_X_Z_entries_witness :
  (Ref.tensor_inds (Id (K := Ref.kernel) Scenario.site0)
     = [Scenario.site0; Ref.prime_index Scenario.site0] ∧
   ∀ r c, entry_row_unprimed (K := Ref.kernel)
            (Id (K := Ref.kernel) Scenario.site0) Scenario.site0 r c =
     if decide ((r, c) = (1, 1) ∨ (r, c) = (2, 2)) then Ref.c1 else Ref.c0) ∧
  (Ref.tensor_inds (X (K := Ref.kernel) Scenario.site0)
     = [Scenario.site0; Ref.prime_index Scenario.site0] ∧
   ∀ r c, entry_row_unprimed (K := Ref.kernel)
            (X (K := Ref.kernel) Scenario.site0) Scenario.site0 r c =
     if decide ((r, c) = (1, 2) ∨ (r, c) = (2, 1)) then Ref.c1 else Ref.c0) ∧
  (Ref.tensor_inds (Z (K := Ref.kernel) Scenario.site0)
     = [Scenario.site0; Ref.prime_index Scenario.site0] ∧
   ∀ r c, entry_row_unprimed (K := Ref.kernel)
            (Z (K := Ref.kernel) Scenario.site0) Scenario.site0 r c =
     if decide ((r, c) = (1, 1)) then Ref.c1
     else if decide ((r, c) = (2, 2)) then Ref.copp Ref.c1 else Ref.c0).
Proof.
  apply (Id_X_Z_entries (K := Ref.kernel) Scenario.site0).
  - exact ref_element_laws.
  - simpl. lia.
Defined.

(** X17 — the four projectors on a site index [sx] of dimension two or more
    are tensors on [sx] and [prime(sx)] with a single entry 1 and zeros
    elsewhere.  With the unprimed index as the row and the primed one as the
    column the entry is at (1,1) for [proj_0], at (2,2) for [proj_1], at
    (2,1) for [proj_0_to_1] and at (1,2) for [proj_1_to_0]. *)
Theorem projector_entries `{K : TensorKernel} (sx : Index) :
  element_laws K →
  2 ≤ dim sx →
  (∀ r c, entry_row_unprimed (proj_0 sx) sx r c =
     if decide ((r, c) = (1, 1)) then C1 else C0) ∧
  (∀ r c, entry_row_unprimed (proj_1 sx) sx r c =
     if decide ((r, c) = (2, 2)) then C1 else C0) ∧
  (∀ r c, entry_row_unprimed (proj_0_to_1 sx) sx r c =
     if decide ((r, c) = (2, 1)) then C1 else C0) ∧
  (∀ r c, entry_row_unprimed (proj_1_to_0 sx) sx r c =
     if decide ((r, c) = (1, 2)) then C1 else C0).
Proof.
  intros L Hd. unfold entry_row_unprimed.
  split; [|split; [|split]]; intros r c;
    cbv [proj_0 proj_1 proj_0_to_1 proj_1_to_0];
    rewrite one_set_entry by (done || lia);
    by rewrite (row_unprimed_values sx r c L).
Qed.

Lemma projector_entries_witness :
  (∀ r c, entry_row_unprimed (K := Ref.kernel)
            (proj_0 (K := Ref.kernel) Scenario.site0) Scenario.site0 r c =
     if decide ((r, c) = (1, 1)) then Ref.c1 else Ref.c0) ∧
  (∀ r c, entry_row_unprimed (K := Ref.kernel)
            (proj_1 (K := Ref.kernel) Scenario.site0) Scenario.site0 r c =
     if decide ((r, c) = (2, 2)) then Ref.c1 else Ref.c0) ∧
  (∀ r c, entry_row_unprimed (K := Ref.kernel)
            (proj_0_to_1 (K := Ref.kernel) Scenario.site0) Scenario.site0 r c =
     if decide ((r, c) = (2, 1)) then Ref.c1 else Ref.c0) ∧
  (∀ r c, entry_row_unprimed (K := Ref.kernel)
            (proj_1_to_0 (K := Ref.kernel) Scenario.site0) Scenario.site0 r c =
     if decide ((r, c) = (1, 2)) then Ref.c1 else Ref.c0).
Proof.
  apply (projector_entries (K := Ref.kernel) Scenario.site0).
  - exact ref_element_laws.
  - simpl. lia.
Defined.

(** ** The gates written as sums and products *)

Section LinearGates.
Context {K : TensorKernel} {L : TensorLinear K}.

Lemma value_at_quad (x1 x2 x3 x4 : Index) v1 v2 v3 v4 :
  NoDup [x1; x2; x3; x4] →
  value_at [(x1, v1); (x2, v2); (x3, v3); (x4, v4)] x1 = v1 ∧
  value_at [(x1, v1); (x2, v2); (x3, v3); (x4, v4)] x2 = v2 ∧
  value_at [(x1, v1); (x2, v2); (x3, v3); (x4, v4)] x3 = v3 ∧
  value_at [(x1, v1); (x2, v2); (x3, v3); (x4, v4)] x4 = v4.
Proof.
  intros Hnd.
  apply NoDup_cons in Hnd as [N1 Hnd]. apply NoDup_cons in Hnd as [N2 Hnd].
  apply NoDup_cons in Hnd as [N3 _].
  rewrite !not_elem_of_cons in N1. rewrite !not_elem_of_cons in N2.
  rewrite !not_elem_of_cons in N3.
  destruct N1 as (N12 & N13 & N14 & _). destruct N2 as (N23 & N24 & _).
  destruct N3 as (N34 & _).
  simpl. repeat split.
  - by rewrite decide_True.
  - rewrite (decide_False (P := x1 = x2)) by done. by rewrite decide_True.
  - rewrite (decide_False (P := x1 = x3)) by done.
    rewrite (decide_False (P := x2 = x3)) by done. by rewrite decide_True.
  - rewrite (decide_False (P := x1 = x4)) by done.
    rewrite (decide_False (P := x2 = x4)) by done.
    rewrite (decide_False (P := x3 = x4)) by done. by rewrite decide_True.
Qed.

Lemma one_site_gate_made (g : Index → ITensor) (sx : Index) :
  g ∈ one_site_gates → made (g sx).
Proof.
  intros Hg. unfold one_site_gates in Hg.
  rewrite !elem_of_cons, elem_of_nil in Hg.
  destruct Hg as [->|[->|[->|[->|[->|[->|[->|[->|[]]]]]]]]];
    cbv [Id X Y Z proj_0 proj_1 proj_0_to_1 proj_1_to_0];
    repeat apply made_set; apply made_new.
Qed.

(** The entries of the gates made by two [set]s are among the values of the
    gates. *)
Lemma two_sets_value (sx : Index) u1 v1 z1 u2 v2 z2 q :
  element_laws K →
  1 ≤ u1 ≤ dim sx → 1 ≤ v1 ≤ dim sx → 1 ≤ u2 ≤ dim sx → 1 ≤ v2 ≤ dim sx →
  z1 ∈ gate_values → z2 ∈ gate_values →
  elt (tset (tset (mkITensor [sx; primeI sx]) [(sx, u1); (primeI sx, v1)] z1)
         [(sx, u2); (primeI sx, v2)] z2) q ∈ gate_values.
Proof.
  intros E ? ? ? ? H1 H2. rewrite two_sets_entry by done.
  repeat destruct (decide _); try done. unfold gate_values. by left.
Qed.

Lemma gate_value_C0 : C0 ∈ gate_values.
Proof. unfold gate_values. rewrite !elem_of_cons. tauto. Qed.

Lemma gate_value_C1 : C1 ∈ gate_values.
Proof. unfold gate_values. rewrite !elem_of_cons. tauto. Qed.

Lemma gate_value_opp_C1 : Copp C1 ∈ gate_values.
Proof. unfold gate_values. rewrite !elem_of_cons. tauto. Qed.

Lemma gate_value_Ci : Ci ∈ gate_values.
Proof. unfold gate_values. rewrite !elem_of_cons. tauto. Qed.

Lemma gate_value_opp_Ci : Copp Ci ∈ gate_values.
Proof. unfold gate_values. rewrite !elem_of_cons. tauto. Qed.

(** Every entry of [H]. *)
Lemma H_entry (sx : Index) q :
  element_laws K → linear_laws K L → 2 ≤ dim sx →
  elt (Gate.H sx) q =
    if decide ((value_at q sx, value_at q (primeI sx)) = (1, 2))
    then Cscale inv_sqrt2 (Copp C1)
    else if decide ((value_at q sx, value_at q (primeI sx)) = (1, 1) ∨
                    (value_at q sx, value_at q (primeI sx)) = (2, 1) ∨
                    (value_at q sx, value_at q (primeI sx)) = (2, 2))
         then Cscale inv_sqrt2 C1
         else C0.
Proof.
  intros E LL Hd.
  assert (Ig : ∀ g, g ∈ one_site_gates → inds (g sx) = [sx; primeI sx]).
  { intros g Hg. by apply one_site_gate_inds. }
  assert (I0 : inds (proj_0 sx) = [sx; primeI sx]).
  { apply Ig. unfold one_site_gates. rewrite !elem_of_cons. tauto. }
  assert (I1 : inds (proj_1 sx) = [sx; primeI sx]).
  { apply Ig. unfold one_site_gates. rewrite !elem_of_cons. tauto. }
  assert (I01 : inds (proj_0_to_1 sx) = [sx; primeI sx]).
  { apply Ig. unfold one_site_gates. rewrite !elem_of_cons. tauto. }
  assert (I10 : inds (proj_1_to_0 sx) = [sx; primeI sx]).
  { apply Ig. unfold one_site_gates. rewrite !elem_of_cons. tauto. }
  assert (Ia : inds (tadd (proj_0 sx) (proj_0_to_1 sx)) = [sx; primeI sx]).
  { rewrite (inds_tadd K L LL); rewrite ?I0, ?I01; done. }
  assert (Is : inds (tsub (proj_1 sx) (proj_1_to_0 sx)) = [sx; primeI sx]).
  { rewrite (inds_tsub K L LL); rewrite ?I1, ?I10; done. }
  unfold Gate.H.
  rewrite (elt_tadd K L LL)
    by (rewrite !(inds_tscale K L LL), ?Ia, ?Is; done).
  rewrite !(elt_tscale K L LL).
  rewrite (elt_tadd K L LL) by (rewrite ?I0, ?I01; done).
  rewrite (elt_tsub K L LL) by (rewrite ?I1, ?I10; done).
  cbv [proj_0 proj_1 proj_0_to_1 proj_1_to_0].
  rewrite !one_set_entry by (done || lia).
  pose proof gate_value_C0 as V0. pose proof gate_value_C1 as V1.
  destruct (value_at q sx) as [|[|[|a]]];
    destruct (value_at q (primeI sx)) as [|[|[|b]]];
    repeat (rewrite decide_True by (done || tauto || (right; tauto)));
    repeat first
      [ rewrite (decide_False (P := (_, _) = (_, _))) by (intros [=]; lia)
      | rewrite (decide_True (P := (_, _) = (_, _))) by done
      | rewrite (decide_True (P := _ ∨ _)) by tauto
      | rewrite (decide_False (P := _ ∨ _))
          by (intros [[=]|[[=]|[=]]]; lia) ];
    rewrite ?(Cadd_C0_r K L LL) by done;
    rewrite ?(Cadd_C0_l K L LL) by done;
    rewrite ?(Csub_C0_r K L LL) by done;
    rewrite ?(Csub_C0_C1 K L LL);
    rewrite ?(Cscale_C0 K L LL);
    rewrite ?(Cadd_scaled_r K L LL), ?(Cadd_scaled_l K L LL);
    rewrite ?(Cadd_C0_r K L LL) by done;
    done.
Qed.

Lemma H_inds (sx : Index) :
  element_laws K → linear_laws K L →
  inds (Gate.H sx) = [sx; primeI sx].
Proof.
  intros E LL.
  assert (Ig : ∀ g, g ∈ one_site_gates → inds (g sx) = [sx; primeI sx]).
  { intros g Hg. by apply one_site_gate_inds. }
  assert (I0 : inds (proj_0 sx) = [sx; primeI sx]).
  { apply Ig. unfold one_site_gates. rewrite !elem_of_cons. tauto. }
  assert (I1 : inds (proj_1 sx) = [sx; primeI sx]).
  { apply Ig. unfold one_site_gates. rewrite !elem_of_cons. tauto. }
  assert (I01 : inds (proj_0_to_1 sx) = [sx; primeI sx]).
  { apply Ig. unfold one_site_gates. rewrite !elem_of_cons. tauto. }
  assert (I10 : inds (proj_1_to_0 sx) = [sx; primeI sx]).
  { apply Ig. unfold one_site_gates. rewrite !elem_of_cons. tauto. }
  assert (Ia : inds (tadd (proj_0 sx) (proj_0_to_1 sx)) = [sx; primeI sx]).
  { rewrite (inds_tadd K L LL); rewrite ?I0, ?I01; done. }
  assert (Is : inds (tsub (proj_1 sx) (proj_1_to_0 sx)) = [sx; primeI sx]).
  { rewrite (inds_tsub K L LL); rewrite ?I1, ?I10; done. }
  unfold Gate.H.
  rewrite (inds_tadd K L LL);
    rewrite !(inds_tscale K L LL), ?Ia, ?Is; done.
Qed.

(** A gate that applies [Id] or [g] to the second site as the first is in
    its state 0 or 1. *)
Lemma controlled_entry (g : Index → ITensor) (s1 s2 : Index) q :
  element_laws K → linear_laws K L → contraction_index_law K →
  NoDup [s1; primeI s1; s2; primeI s2] →
  2 ≤ dim s1 → 2 ≤ dim s2 →
  g ∈ one_site_gates →
  (∀ q, elt (g s2) q ∈ gate_values) →
  inds (tadd (tmul (proj_0 s1) (Id s2)) (tmul (proj_1 s1) (g s2)))
    = [s1; primeI s1; s2; primeI s2] ∧
  elt (tadd (tmul (proj_0 s1) (Id s2)) (tmul (proj_1 s1) (g s2))) q =
    if decide ((value_at q s1, value_at q (primeI s1)) = (1, 1))
    then elt (Id s2) q
    else if decide ((value_at q s1, value_at q (primeI s1)) = (2, 2))
         then elt (g s2) q
         else C0.
Proof.
  intros E LL Hmul Hnd Hd1 Hd2 Hg Hval.
  assert (Hgs : ∀ h, h ∈ one_site_gates →
            ∀ sx, inds (h sx) = [sx; primeI sx] ∧ made (h sx)).
  { intros h Hh sx. split;
      [by apply one_site_gate_inds | by apply one_site_gate_made]. }
  destruct (Hgs proj_0) with (sx := s1) as [I0 M0].
  { unfold one_site_gates. rewrite !elem_of_cons. tauto. }
  destruct (Hgs proj_1) with (sx := s1) as [I1 M1].
  { unfold one_site_gates. rewrite !elem_of_cons. tauto. }
  destruct (Hgs Id) with (sx := s2) as [II MI].
  { unfold one_site_gates. rewrite !elem_of_cons. tauto. }
  destruct (Hgs g Hg s2) as [Ig Mg].
  assert (Hdis : ∀ i, i ∈ [s1; primeI s1] → i ∉ [s2; primeI s2]).
  { apply NoDup_cons in Hnd as [N1 Hnd]. apply NoDup_cons in Hnd as [N2 _].
    rewrite !not_elem_of_cons in N1. rewrite !not_elem_of_cons in N2.
    intros i. rewrite !elem_of_cons, !elem_of_nil.
    intros [->|[->|[]]] [?|[?|[]]]; subst; tauto. }
  assert (Hprod : ∀ x y : ITensor,
            inds x = [s1; primeI s1] → inds y = [s2; primeI s2] →
            inds (tmul x y) = [s1; primeI s1; s2; primeI s2]).
  { intros x y Ix Iy. rewrite Hmul by (by rewrite ?Ix, ?Iy). rewrite Ix, Iy.
    rewrite !filter_cons_True, !filter_nil; [done | ..];
      first [ apply Hdis; rewrite !elem_of_cons; tauto
            | intros Hi; apply (Hdis _ Hi); rewrite !elem_of_cons; tauto ]. }
  pose proof (Hprod _ _ I0 II) as P0. pose proof (Hprod _ _ I1 Ig) as P1.
  split.
  { rewrite (inds_tadd K L LL); rewrite ?P0, ?P1; done. }
  rewrite (elt_tadd K L LL) by (rewrite ?P0, ?P1; done).
  rewrite !(elt_outer K L LL); try done;
    rewrite ?I0, ?I1, ?II, ?Ig; try done.
  assert (VI : elt (Id s2) q ∈ gate_values).
  { unfold Id. apply two_sets_value;
      (done || lia || apply gate_value_C1). }
  cbv [proj_0 proj_1]. rewrite !one_set_entry by (done || lia).
  destruct (decide (_ = (1, 1))) as [E1|E1].
  - rewrite decide_False by (rewrite E1; done).
    rewrite (Cmul_C1_l K L LL), (Cmul_C0_l K L LL) by done.
    by rewrite (Cadd_C0_r K L LL).
  - destruct (decide (_ = (2, 2))) as [E2|E2].
    + rewrite (Cmul_C1_l K L LL), (Cmul_C0_l K L LL) by done.
      by rewrite (Cadd_C0_l K L LL).
    + rewrite !(Cmul_C0_l K L LL).
      rewrite (Cadd_C0_r K L LL); [done | apply gate_value_C0].
Qed.

End LinearGates.

(** ** The reference kernel obeys the laws of sums and products *)

Section RefLinear.
Import Ref.

Lemma Qred_zero q : (q == 0)%Q → Qred q = 0%Q.
Proof. intros H. by rewrite (Qred_complete q 0 H). Qed.

Lemma Qred_again q p : (p == q)%Q → Qred p = Qred q.
Proof. apply Qred_complete. Qed.

Lemma cmul_c0_l z : cmul c0 z = c0.
Proof.
  unfold cmul, c0. simpl. f_equal; apply Qred_zero; ring.
Qed.

Lemma cmul_c0_r z : cmul z c0 = c0.
Proof.
  unfold cmul, c0. simpl. f_equal; apply Qred_zero; ring.
Qed.

Lemma cscale_c0 r : cscale r c0 = c0.
Proof.
  unfold cscale, c0. simpl. f_equal; apply Qred_zero; ring.
Qed.

Lemma cadd_scaled_r r z : cadd (cscale r z) c0 = cscale r z.
Proof.
  unfold cadd, cscale, c0. simpl.
  f_equal; apply Qred_again; rewrite Qred_correct; ring.
Qed.

Lemma cadd_scaled_l r z : cadd c0 (cscale r z) = cscale r z.
Proof.
  unfold cadd, cscale, c0. simpl.
  f_equal; apply Qred_again; rewrite Qred_correct; ring.
Qed.

Lemma cmul_zero_is_c0 x y : cnonzero (cmul x y) = false → cmul x y = c0.
Proof.
  unfold cnonzero, cmul, c0. simpl. intros H.
  apply negb_false_iff, andb_true_iff in H as [H1 H2].
  apply Qeq_bool_eq in H1, H2.
  f_equal.
  - rewrite <- (Qred_zero _ H1). symmetry. apply Qred_again, Qred_correct.
  - rewrite <- (Qred_zero _ H2). symmetry. apply Qred_again, Qred_correct.
Qed.

Lemma lookup_absent k (el : list entry) :
  k ∉ map fst el → lookup_entry k el = c0.
Proof.
  induction el as [|[k0 z0] el IH]; [done|]. cbn [lookup_entry map fst].
  intros H. apply not_elem_of_cons in H as [H1 H2].
  rewrite decide_False by done. by apply IH.
Qed.

Lemma lookup_present k z (el : list entry) :
  NoDup (map fst el) → (k, z) ∈ el → lookup_entry k el = z.
Proof.
  induction el as [|[k0 z0] el IH]; cbn [lookup_entry map fst];
    intros Hnd Hin.
  { by apply elem_of_nil in Hin. }
  apply NoDup_cons in Hnd as [Hn Hnd].
  apply elem_of_cons in Hin as [[= <- <-]|Hin]; [by rewrite decide_True|].
  destruct (decide (k0 = k)) as [->|D]; [|by apply IH].
  exfalso. apply Hn. change k with (fst (k, z)).
  apply (list_elem_of_fmap_2 fst). done.
Qed.

Lemma lookup_some_entry k (el : list entry) :
  k ∈ map fst el → ∃ z, (k, z) ∈ el.
Proof.
  intros ([k0 z] & E & Hin)%list_elem_of_fmap_1. simpl in E. subst k0.
  by exists z.
Qed.

Lemma lookup_map_keys (g : list nat → complex) k ks :
  lookup_entry k (map (fun k' => (k', g k')) ks) =
    if decide (k ∈ ks) then g k else c0.
Proof.
  induction ks as [|k0 ks IH]; cbn [lookup_entry map].
  { rewrite decide_False; [done | apply not_elem_of_nil]. }
  destruct (decide (k0 = k)) as [->|D].
  - rewrite decide_True; [done | by left].
  - rewrite IH. destruct (decide (k ∈ ks)) as [Hk|Hk].
    + rewrite decide_True; [done | by right].
    + rewrite decide_False; [done|]. by intros [?|?]%elem_of_cons.
Qed.

Lemma lookup_map_entries (f : complex → complex) k (el : list entry) :
  f c0 = c0 →
  lookup_entry k (map (fun e => (fst e, f (snd e))) el) = f (lookup_entry k el).
Proof.
  intros Hf. induction el as [|[k0 z0] el IH]; cbn [lookup_entry map fst snd];
    [done|].
  by destruct (decide (k0 = k)).
Qed.

Lemma lookup_combine (f : complex → complex → complex) k ea eb :
  f c0 c0 = c0 →
  lookup_entry k (combine_entries f ea eb) =
    f (lookup_entry k ea) (lookup_entry k eb).
Proof.
  intros Hf. unfold combine_entries.
  rewrite (lookup_map_keys
             (fun k' => f (lookup_entry k' ea) (lookup_entry k' eb))).
  destruct (decide (k ∈ map fst ea ++ map fst eb)) as [Hk|Hk]; [done|].
  rewrite elem_of_app in Hk.
  rewrite !lookup_absent by tauto. done.
Qed.

Lemma combine_law (f : complex → complex → complex) (x y : tensor) q :
  f c0 c0 = c0 →
  tensor_inds x ≠ [] → tensor_inds x = tensor_inds y →
  tensor_inds (tensor_combine f x y) = tensor_inds x ∧
  tensor_elt (tensor_combine f x y) q = f (tensor_elt x q) (tensor_elt y q).
Proof.
  intros Hf Hne Heq. destruct x as [|ia ea]; [done|].
  destruct y as [|ib eb]; [simpl in *; congruence|].
  simpl in Heq. subst ib. unfold tensor_combine.
  rewrite decide_True by done. simpl. split; [done|].
  by apply lookup_combine.
Qed.

(** *** The product of two tables that share no index *)

Lemma made_tidy (t : tensor) : made (K := kernel) t → Ref_tidy t.
Proof.
  induction 1 as [ixs|t ivs z _ IH].
  - simpl. split; constructor.
  - cbv [tset kernel]. destruct t as [|ix el]; [done|].
    unfold tensor_set. destruct (key_ok ix (key_of ix ivs)); [|done].
    destruct IH as [Hnd Hlen]. simpl. split.
    + apply NoDup_cons. split.
      * intros ([k z'] & E & Hin)%list_elem_of_fmap_1. simpl in E.
        apply list_elem_of_filter in Hin as [Hne _]. simpl in Hne. congruence.
      * clear Hlen. induction el as [|[k0 z0] el IHel]; [constructor|].
        simpl in Hnd. apply NoDup_cons in Hnd as [Hn Hnd].
        destruct (decide (k0 ≠ key_of ix ivs)) as [D|D].
        -- rewrite filter_cons_True by done. simpl. apply NoDup_cons.
           split; [|by apply IHel].
           intros ([k z'] & E & Hin)%list_elem_of_fmap_1. simpl in E. subst k.
           apply list_elem_of_filter in Hin as [_ Hin]. apply Hn.
           change k0 with (fst (k0, z')). by apply (list_elem_of_fmap_2 fst).
        -- rewrite filter_cons_False by done. by apply IHel.
    + constructor; [by exists ivs|].
      rewrite Forall_forall in Hlen. apply Forall_forall.
      intros e [_ He]%list_elem_of_filter. by apply Hlen.
Qed.

Lemma val_of_key_of (ix : list index) ivs i :
  i ∈ ix → val_of ix (key_of ix ivs) i = value_at ivs i.
Proof.
  unfold key_of. induction ix as [|x ix IH]; intros Hi.
  { by apply elem_of_nil in Hi. }
  cbn [map val_of]. destruct (decide (x = i)) as [->|D]; [done|].
  apply IH. by apply elem_of_cons in Hi as [?|?].
Qed.

Lemma val_of_key (ix : list index) ivs :
  map (val_of ix (key_of ix ivs)) ix = key_of ix ivs.
Proof.
  unfold key_of at 2. apply map_ext_in. intros i Hi.
  apply val_of_key_of. by apply list_elem_of_In.
Qed.


Lemma lookup_app_l k (l1 l2 : list entry) :
  k ∉ map fst l2 → lookup_entry k (l1 ++ l2) = lookup_entry k l1.
Proof.
  intros H. induction l1 as [|[k0 z0] l1 IH]; cbn [app lookup_entry].
  - by apply lookup_absent.
  - destruct (decide (k0 = k)); [done | apply IH].
Qed.

Lemma lookup_app_r k (l1 l2 : list entry) :
  k ∉ map fst l1 → lookup_entry k (l1 ++ l2) = lookup_entry k l2.
Proof.
  induction l1 as [|[k0 z0] l1 IH]; cbn [app lookup_entry map fst];
    intros H; [done|].
  apply not_elem_of_cons in H as [H1 H2].
  rewrite decide_False by done. by apply IH.
Qed.

Lemma acc_add_new e (acc : list entry) :
  fst e ∉ map fst acc → acc_add e acc = acc ++ [e].
Proof.
  induction acc as [|e' acc IH]; cbn [acc_add map app]; intros H; [done|].
  apply not_elem_of_cons in H as [H1 H2].
  rewrite decide_False by done. by rewrite IH.
Qed.

Lemma fold_acc_add (P acc : list entry) :
  NoDup (map fst (acc ++ P)) →
  fold_left (fun acc e => acc_add e acc) P acc = acc ++ P.
Proof.
  revert acc. induction P as [|e P IH]; intros acc Hnd; cbn [fold_left].
  - by rewrite app_nil_r.
  - rewrite acc_add_new.
    2:{ rewrite map_app in Hnd. apply NoDup_app in Hnd as (_ & Hd & _).
        intros Hin. apply (Hd _ Hin). cbn [map]. by left. }
    rewrite IH; rewrite <- app_assoc; done.
Qed.

Lemma collect_nodup (P : list entry) :
  NoDup (map fst P) →
  collect P = filter (fun e => cnonzero (snd e) = true) P.
Proof. intros H. unfold collect. by rewrite fold_acc_add. Qed.

Lemma lookup_filter_nodup k (P : list entry) :
  NoDup (map fst P) →
  lookup_entry k (filter (fun e => cnonzero (snd e) = true) P) =
    if cnonzero (lookup_entry k P) then lookup_entry k P else c0.
Proof.
  intros Hnd.
  assert (HndF : NoDup (map fst (filter (fun e => cnonzero (snd e) = true) P))).
  { eapply sublist_NoDup; [exact Hnd|].
    apply (fmap_sublist fst), sublist_filter. }
  destruct (decide (k ∈ map fst P)) as [Hk|Hk].
  - destruct (lookup_some_entry _ _ Hk) as [z Hz].
    rewrite (lookup_present k z P Hnd Hz).
    destruct (cnonzero z) eqn:Ez.
    + apply lookup_present; [done|]. by apply list_elem_of_filter.
    + apply lookup_absent. intros Hin.
      destruct (lookup_some_entry _ _ Hin) as [z' Hz'].
      apply list_elem_of_filter in Hz' as [Hnz Hz']. simpl in Hnz.
      assert (z' = z).
      { rewrite <- (lookup_present k z' P Hnd Hz').
        by apply lookup_present. }
      congruence.
  - rewrite (lookup_absent k P Hk).
    replace (cnonzero c0) with false by done.
    apply lookup_absent. intros Hin. apply Hk.
    destruct (lookup_some_entry _ _ Hin) as [z' Hz'].
    apply list_elem_of_filter in Hz' as [_ Hz'].
    change k with (fst (k, z')). by apply (list_elem_of_fmap_2 fst).
Qed.

Lemma bind_singleton_map {A B : Type} (g : A → B) (l : list A) :
  l ≫= (fun x => [g x]) = map g l.
Proof. induction l as [|x l IH]; [done|]. cbn. by rewrite <- IH. Qed.

Lemma lookup_row ka za (eb : list entry) k2 :
  lookup_entry (ka ++ k2)
    (map (fun kb => (ka ++ fst kb, cmul za (snd kb))) eb)
  = cmul za (lookup_entry k2 eb).
Proof.
  induction eb as [|[k0 z0] eb IH]; cbn [map lookup_entry fst snd].
  - by rewrite cmul_c0_r.
  - destruct (decide (k0 = k2)) as [->|D]; [by rewrite decide_True|].
    rewrite decide_False; [done|]. by intros ?%app_inv_head.
Qed.

Lemma product_key_in (ea eb : list entry) k :
  k ∈ map fst
        (ea ≫= (fun ka => eb ≫= (fun kb =>
           [(fst ka ++ fst kb, cmul (snd ka) (snd kb))]))) →
  ∃ ka kb, ka ∈ ea ∧ kb ∈ eb ∧ k = fst ka ++ fst kb.
Proof.
  intros (e & -> & He)%list_elem_of_fmap_1.
  apply list_elem_of_bind in He as (ka & He & Hka).
  apply list_elem_of_bind in He as (kb & He & Hkb).
  apply list_elem_of_singleton in He as ->. by exists ka, kb.
Qed.

Lemma outer_lookup n (ea eb : list entry) k1 k2 :
  NoDup (map fst ea) → NoDup (map fst eb) →
  Forall (fun e => length (fst e) = n) ea → length k1 = n →
  NoDup (map fst
           (ea ≫= (fun ka => eb ≫= (fun kb =>
              [(fst ka ++ fst kb, cmul (snd ka) (snd kb))])))) ∧
  lookup_entry (k1 ++ k2)
    (ea ≫= (fun ka => eb ≫= (fun kb =>
       [(fst ka ++ fst kb, cmul (snd ka) (snd kb))])))
  = cmul (lookup_entry k1 ea) (lookup_entry k2 eb).
Proof.
  intros Hna Hnb Hlen Hk1.
  induction ea as [|[ka za] ea IH].
  { split; [constructor|]. cbn. by rewrite cmul_c0_l. }
  cbn [map fst] in Hna. apply NoDup_cons in Hna as [Hka Hna].
  apply Forall_cons in Hlen as [Hla Hlen]. cbn [fst] in Hla.
  destruct (IH Hna Hlen) as [IHnd IHlk]. clear IH.
  rewrite bind_cons. cbn [fst snd].
  rewrite (bind_singleton_map (fun kb => (ka ++ fst kb, cmul za (snd kb)))).
  assert (Hfar : ∀ k0 k, length k0 = n → k0 ∉ map fst ea →
            k0 ++ k ∉ map fst
              (ea ≫= (fun ka => eb ≫= (fun kb =>
                 [(fst ka ++ fst kb, cmul (snd ka) (snd kb))])))).
  { intros k0 k Hl0 Hk0 Hin.
    apply product_key_in in Hin as (ka' & kb' & Hka' & Hkb' & E).
    rewrite Forall_forall in Hlen. specialize (Hlen ka' Hka').
    apply app_inj_1 in E as [E _]; [|lia].
    apply Hk0. rewrite E. by apply (list_elem_of_fmap_2 fst). }
  assert (Hrow : ∀ k, k ∈ map fst
                   (map (fun kb => (ka ++ fst kb, cmul za (snd kb))) eb) →
                 ∃ kb, k = ka ++ kb).
  { intros k (e & -> & He)%list_elem_of_fmap_1.
    apply list_elem_of_fmap_1 in He as (kb & -> & _). by eexists. }
  split.
  - rewrite map_app. apply NoDup_app. split; [|split; [|done]].
    + rewrite map_map. cbn [fst].
      rewrite <- (map_map fst (fun k => ka ++ k)).
      assert (Hinj : Inj eq eq (app ka)).
      { intros k k' E. by apply app_inv_head in E. }
      by apply (NoDup_fmap_2 (app ka)).
    + intros k Hk. destruct (Hrow k Hk) as [kb ->]. by apply Hfar.
  - rewrite ?bind_cons. cbn [fst snd].
    rewrite ?(bind_singleton_map (fun kb => (ka ++ fst kb, cmul za (snd kb)))).
    cbn [lookup_entry]. destruct (decide (ka = k1)) as [->|D].
    + rewrite lookup_app_l by (by apply Hfar). apply lookup_row.
    + rewrite lookup_app_r; [done|].
      intros Hin. destruct (Hrow _ Hin) as [kb E].
      apply app_inj_1 in E as [E _]; [congruence | lia].
Qed.

Lemma filter_all {A : Type} (P : A → Prop) `{∀ x, Decision (P x)} (l : list A) :
  (∀ x, x ∈ l → P x) → filter P l = l.
Proof.
  induction l as [|x l IH]; intros Hl; [done|].
  rewrite filter_cons_True by (apply Hl; by left).
  rewrite IH; [done|]. intros y Hy. apply Hl. by right.
Qed.

Lemma filter_none {A : Type} (P : A → Prop) `{∀ x, Decision (P x)} (l : list A) :
  (∀ x, x ∈ l → ¬ P x) → filter P l = [].
Proof.
  induction l as [|x l IH]; intros Hl; [done|].
  rewrite filter_cons_False by (apply Hl; by left).
  apply IH. intros y Hy. apply Hl. by right.
Qed.

Lemma ref_outer (x y : tensor) q :
  made (K := kernel) x → made (K := kernel) y →
  tensor_inds x ≠ [] → tensor_inds y ≠ [] →
  (∀ i, i ∈ tensor_inds x → i ∉ tensor_inds y) →
  tensor_elt (tensor_mul x y) q = cmul (tensor_elt x q) (tensor_elt y q).
Proof.
  intros Mx My Hx Hy Hdis.
  apply made_tidy in Mx, My.
  destruct x as [|ia ea]; [done|]. destruct y as [|ib eb]; [done|].
  destruct Mx as [Hna Hka]. destruct My as [Hnb Hkb]. simpl in Hdis.
  unfold tensor_mul.
  rewrite (filter_none (fun i => in_list ib i = true) ia).
  2:{ intros i Hi. unfold in_list. rewrite bool_decide_eq_true. by apply Hdis. }
  rewrite (filter_all (fun i => in_list ib i = false) ia).
  2:{ intros i Hi. unfold in_list. rewrite bool_decide_eq_false. by apply Hdis. }
  rewrite (filter_all (fun i => in_list ia i = false) ib).
  2:{ intros i Hi. unfold in_list. rewrite bool_decide_eq_false.
      intros Hi'. by apply (Hdis i). }
  cbn [forallb].
  rewrite (Forall_bind_ext _
             (fun ka => eb ≫= (fun kb =>
                [(fst ka ++ fst kb, cmul (snd ka) (snd kb))])) ea).
  2:{ rewrite Forall_forall in Hka. apply Forall_forall. intros ka Hin.
      destruct (Hka ka Hin) as [ivs Ea].
      apply Forall_bind_ext. rewrite Forall_forall in Hkb.
      apply Forall_forall. intros kb Hinb.
      destruct (Hkb kb Hinb) as [ivs' Eb].
      rewrite Ea, Eb, !val_of_key. done. }
  destruct (outer_lookup (length ia) ea eb (key_of ia q) (key_of ib q))
    as [Hnd Hlk]; [done | done | | |].
  { rewrite Forall_forall in Hka. apply Forall_forall. intros ka Hin.
    destruct (Hka ka Hin) as [ivs ->]. unfold key_of. by rewrite length_map. }
  { unfold key_of. by rewrite length_map. }
  cbn [tensor_elt]. rewrite collect_nodup by done.
  rewrite lookup_filter_nodup by done.
  replace (key_of (ia ++ ib) q) with (key_of ia q ++ key_of ib q)
    by (unfold key_of; by rewrite map_app).
  destruct (cnonzero _) eqn:E; [exact Hlk|].
  symmetry. apply cmul_zero_is_c0. rewrite <- Hlk. exact E.
Qed.

Lemma ref_linear_laws : linear_laws kernel linear.
Proof.
  split;
    cbv [tadd tsub tscale Cadd Csub Cmul Cscale linear
         elt inds C0 C1 Ci Copp gate_values kernel].
  - intros x y Hne Heq. by apply (combine_law cadd x y []).
  - intros x y Hne Heq. by apply (combine_law csub x y []).
  - by intros r [|ix el].
  - intros x y q Hne Heq. by apply (combine_law cadd x y q).
  - intros x y q Hne Heq. by apply (combine_law csub x y q).
  - intros r [|ix el] q; cbn [tensor_scale map_entries tensor_elt].
    + by rewrite cscale_c0.
    + apply lookup_map_entries, cscale_c0.
  - apply ref_outer.
  - intros z Hz. rewrite !elem_of_cons, elem_of_nil in Hz.
    destruct Hz as [->|[->|[->|[->|[->|[]]]]]]; vm_compute; reflexivity.
  - intros z Hz. rewrite !elem_of_cons, elem_of_nil in Hz.
    destruct Hz as [->|[->|[->|[->|[->|[]]]]]]; vm_compute; reflexivity.
  - intros z Hz. rewrite !elem_of_cons, elem_of_nil in Hz.
    destruct Hz as [->|[->|[->|[->|[->|[]]]]]]; vm_compute; reflexivity.
  - vm_compute. reflexivity.
  - intros z Hz. rewrite !elem_of_cons, elem_of_nil in Hz.
    destruct Hz as [->|[->|[->|[->|[->|[]]]]]]; vm_compute; reflexivity.
  - apply cmul_c0_l.
  - apply cscale_c0.
  - apply cadd_scaled_r.
  - apply cadd_scaled_l.
Qed.

End RefLinear.

Section ControlledGates.
Context {K : TensorKernel} {L : TensorLinear K}.

Lemma controlled_inds (g : Index → ITensor) (s1 s2 : Index) :
  element_laws K → linear_laws K L → contraction_index_law K →
  NoDup [s1; primeI s1; s2; primeI s2] →
  g ∈ one_site_gates →
  inds (tadd (tmul (proj_0 s1) (Id s2)) (tmul (proj_1 s1) (g s2)))
    = [s1; primeI s1; s2; primeI s2].
Proof.
  intros E LL Hmul Hnd Hg.
  assert (Hgs : ∀ h, h ∈ one_site_gates →
            ∀ sx, inds (h sx) = [sx; primeI sx]).
  { intros h Hh sx. by apply one_site_gate_inds. }
  assert (I0 : inds (proj_0 s1) = [s1; primeI s1]).
  { apply Hgs. unfold one_site_gates. rewrite !elem_of_cons. tauto. }
  assert (I1 : inds (proj_1 s1) = [s1; primeI s1]).
  { apply Hgs. unfold one_site_gates. rewrite !elem_of_cons. tauto. }
  assert (II : inds (Id s2) = [s2; primeI s2]).
  { apply Hgs. unfold one_site_gates. rewrite !elem_of_cons. tauto. }
  pose proof (Hgs g Hg s2) as Ig.
  assert (Hdis : ∀ i, i ∈ [s1; primeI s1] → i ∉ [s2; primeI s2]).
  { apply NoDup_cons in Hnd as [N1 Hnd]. apply NoDup_cons in Hnd as [N2 _].
    rewrite !not_elem_of_cons in N1. rewrite !not_elem_of_cons in N2.
    intros i. rewrite !elem_of_cons, !elem_of_nil.
    intros [->|[->|[]]] [?|[?|[]]]; subst; tauto. }
  assert (Hprod : ∀ x y : ITensor,
            inds x = [s1; primeI s1] → inds y = [s2; primeI s2] →
            inds (tmul x y) = [s1; primeI s1; s2; primeI s2]).
  { intros x y Ix Iy. rewrite Hmul by (by rewrite ?Ix, ?Iy). rewrite Ix, Iy.
    rewrite !filter_cons_True, !filter_nil; [done | ..];
      first [ apply Hdis; rewrite !elem_of_cons; tauto
            | intros Hi; apply (Hdis _ Hi); rewrite !elem_of_cons; tauto ]. }
  rewrite (inds_tadd K L LL); rewrite ?(Hprod _ _ I0 II), ?(Hprod _ _ I1 Ig);
    done.
Qed.

(** An entry of a gate made by two [set]s depends on the values given to
    its two indices only. *)
Lemma two_sets_same (sx : Index) u1 v1 z1 u2 v2 z2 q q' :
  element_laws K →
  1 ≤ u1 ≤ dim sx → 1 ≤ v1 ≤ dim sx → 1 ≤ u2 ≤ dim sx → 1 ≤ v2 ≤ dim sx →
  value_at q sx = value_at q' sx →
  value_at q (primeI sx) = value_at q' (primeI sx) →
  elt (tset (tset (mkITensor [sx; primeI sx]) [(sx, u1); (primeI sx, v1)] z1)
         [(sx, u2); (primeI sx, v2)] z2) q =
  elt (tset (tset (mkITensor [sx; primeI sx]) [(sx, u1); (primeI sx, v1)] z1)
         [(sx, u2); (primeI sx, v2)] z2) q'.
Proof.
  intros E ? ? ? ? H1 H2. rewrite !two_sets_entry by done.
  by rewrite H1, H2.
Qed.

Lemma controlled_block (g : Index → ITensor) (s1 s2 : Index) a a' b b' :
  element_laws K → linear_laws K L → contraction_index_law K →
  NoDup [s1; primeI s1; s2; primeI s2] →
  2 ≤ dim s1 → 2 ≤ dim s2 →
  g ∈ [X; Y; Z] →
  elt (tadd (tmul (proj_0 s1) (Id s2)) (tmul (proj_1 s1) (g s2)))
      [(s1, a); (primeI s1, a'); (s2, b); (primeI s2, b')] =
    if decide ((a, a') = (1, 1)) then entry_row_unprimed (Id s2) s2 b b'
    else if decide ((a, a') = (2, 2)) then entry_row_unprimed (g s2) s2 b b'
         else C0.
Proof.
  intros E LL Hmul Hnd Hd1 Hd2 Hg.
  assert (Hp : s2 ≠ primeI s2) by (intros Eq; by apply (primeI_fresh K E s2)).
  destruct (value_at_quad s1 (primeI s1) s2 (primeI s2) a a' b b' Hnd)
    as (Q1 & Q2 & Q3 & Q4).
  destruct (value_at_pair s2 (primeI s2) b b' Hp) as [R1 R2].
  assert (Hg1 : g ∈ one_site_gates).
  { unfold one_site_gates. rewrite !elem_of_cons, elem_of_nil in Hg.
    rewrite !elem_of_cons. tauto. }
  assert (Hval : ∀ q, elt (g s2) q ∈ gate_values).
  { intros q. rewrite !elem_of_cons, elem_of_nil in Hg.
    destruct Hg as [->|[->|[->|[]]]]; cbv [X Y Z];
      apply two_sets_value;
      first [ done | lia | apply gate_value_C1 | apply gate_value_opp_C1
            | apply gate_value_Ci | apply gate_value_opp_Ci ]. }
  destruct (controlled_entry g s1 s2
              [(s1, a); (primeI s1, a'); (s2, b); (primeI s2, b')]
              E LL Hmul Hnd Hd1 Hd2 Hg1 Hval) as [_ ->].
  rewrite Q1, Q2. unfold entry_row_unprimed.
  assert (EI : elt (Id s2) [(s1, a); (primeI s1, a'); (s2, b); (primeI s2, b')]
               = elt (Id s2) [(s2, b); (primeI s2, b')]).
  { unfold Id. apply two_sets_same; try (done || lia); congruence. }
  assert (Eg : elt (g s2) [(s1, a); (primeI s1, a'); (s2, b); (primeI s2, b')]
               = elt (g s2) [(s2, b); (primeI s2, b')]).
  { rewrite !elem_of_cons, elem_of_nil in Hg.
    destruct Hg as [->|[->|[->|[]]]]; cbv [X Y Z];
      apply two_sets_same; try (done || lia); congruence. }
  by rewrite EI, Eg.
Qed.

End ControlledGates.

(** X18 — [H] on a site index [sx] of dimension two or more is a tensor on
    [sx] and [prime(sx)].  With the unprimed index as the row, the primed
    one as the column and [f] the real [1.0/sqrt(2.0)], its entries are [f]
    at (1,1), (2,1) and (2,2) and [f * (-1)] at (1,2): the entry with the
    minus sign is (1,2), and both entries of the diagonal are [f]. *)
Theorem H_entries `{K : TensorKernel} `{L : !TensorLinear K} (sx : Index) :
  element_laws K → linear_laws K L →
  2 ≤ dim sx →
  inds (Gate.H sx) = [sx; primeI sx] ∧
  ∀ r c, entry_row_unprimed (Gate.H sx) sx r c =
    if decide ((r, c) = (1, 2)) then Cscale inv_sqrt2 (Copp C1)
    else if decide ((r, c) = (1, 1) ∨ (r, c) = (2, 1) ∨ (r, c) = (2, 2))
         then Cscale inv_sqrt2 C1
         else C0.
Proof.
  intros E LL Hd. split; [by apply H_inds|].
  intros r c. unfold entry_row_unprimed.
  rewrite H_entry by done.
  by rewrite (row_unprimed_values sx r c E).
Qed.

Lemma H_entries_witness :
  Ref.tensor_inds (Gate.H (K := Ref.kernel) (L := Ref.linear) Scenario.site0)
    = [Scenario.site0; Ref.prime_index Scenario.site0] ∧
  ∀ r c, entry_row_unprimed (K := Ref.kernel)
           (Gate.H (K := Ref.kernel) (L := Ref.linear) Scenario.site0)
           Scenario.site0 r c =
    if decide ((r, c) = (1, 2))
    then Ref.cscale (7 # 10)%Q (Ref.copp Ref.c1)
    else if decide ((r, c) = (1, 1) ∨ (r, c) = (2, 1) ∨ (r, c) = (2, 2))
         then Ref.cscale (7 # 10)%Q Ref.c1
         else Ref.c0.
Proof.
  apply (H_entries (K := Ref.kernel) (L := Ref.linear) Scenario.site0).
  - exact ref_element_laws.
  - exact ref_linear_laws.
  - simpl. lia.
Defined.

(** X19 — [CNOT], [CY] and [CZ] on two site indices of dimension two or
    more, distinct with their primes: each is a tensor on [s1], [prime(s1)],
    [s2], [prime(s2)]; its entry at [s1 = a], [prime(s1) = a'], [s2 = b],
    [prime(s2) = b'] is the entry (b, b') of [Id] when (a, a') = (1, 1), the
    entry (b, b') of [X], [Y] or [Z] when (a, a') = (2, 2), and zero
    otherwise. *)
Theorem controlled_gate_entries `{K : TensorKernel} `{L : !TensorLinear K}
    (s1 s2 : Index) :
  element_laws K → linear_laws K L → contraction_index_law K →
  NoDup [s1; primeI s1; s2; primeI s2] →
  2 ≤ dim s1 → 2 ≤ dim s2 →
  (∀ G, G ∈ controlled_gates →
     inds (G s1 s2) = [s1; primeI s1; s2; primeI s2]) ∧
  (∀ a a' b b',
     elt (Gate.CNOT s1 s2) [(s1, a); (primeI s1, a'); (s2, b); (primeI s2, b')] =
       if decide ((a, a') = (1, 1)) then entry_row_unprimed (Id s2) s2 b b'
       else if decide ((a, a') = (2, 2)) then entry_row_unprimed (X s2) s2 b b'
            else C0) ∧
  (∀ a a' b b',
     elt (Gate.CY s1 s2) [(s1, a); (primeI s1, a'); (s2, b); (primeI s2, b')] =
       if decide ((a, a') = (1, 1)) then entry_row_unprimed (Id s2) s2 b b'
       else if decide ((a, a') = (2, 2)) then entry_row_unprimed (Y s2) s2 b b'
            else C0) ∧
  (∀ a a' b b',
     elt (Gate.CZ s1 s2) [(s1, a); (primeI s1, a'); (s2, b); (primeI s2, b')] =
       if decide ((a, a') = (1, 1)) then entry_row_unprimed (Id s2) s2 b b'
       else if decide ((a, a') = (2, 2)) then entry_row_unprimed (Z s2) s2 b b'
            else C0).
Proof.
  intros E LL Hmul Hnd Hd1 Hd2. split; [|split; [|split]].
  - intros G HG. unfold controlled_gates in HG.
    rewrite !elem_of_cons, elem_of_nil in HG.
    destruct HG as [->|[->|[->|[]]]]; cbv [Gate.CNOT Gate.CY Gate.CZ];
      apply controlled_inds; try done;
      unfold one_site_gates; rewrite !elem_of_cons; tauto.
  - intros a a' b b'. unfold Gate.CNOT.
    apply controlled_block; try done. rewrite !elem_of_cons. tauto.
  - intros a a' b b'. unfold Gate.CY.
    apply controlled_block; try done. rewrite !elem_of_cons. tauto.
  - intros a a' b b'. unfold Gate.CZ.
    apply controlled_block; try done. rewrite !elem_of_cons. tauto.
Qed.

Lemma controlled_gate_entries_witness :
  (∀ G, G ∈ controlled_gates (K := Ref.kernel) (L := Ref.linear) →
     Ref.tensor_inds (G Scenario.site0 Scenario.site1)
       = [Scenario.site0; Ref.prime_index Scenario.site0;
          Scenario.site1; Ref.prime_index Scenario.site1]) ∧
  (∀ a a' b b',
     Ref.tensor_elt
       (Gate.CNOT (K := Ref.kernel) (L := Ref.linear)
          Scenario.site0 Scenario.site1)
       [(Scenario.site0, a); (Ref.prime_index Scenario.site0, a');
        (Scenario.site1, b); (Ref.prime_index Scenario.site1, b')] =
       if decide ((a, a') = (1, 1))
       then entry_row_unprimed (K := Ref.kernel)
              (Id (K := Ref.kernel) Scenario.site1) Scenario.site1 b b'
       else if decide ((a, a') = (2, 2))
            then entry_row_unprimed (K := Ref.kernel)
                   (X (K := Ref.kernel) Scenario.site1) Scenario.site1 b b'
            else Ref.c0) ∧
  (∀ a a' b b',
     Ref.tensor_elt
       (Gate.CY (K := Ref.kernel) (L := Ref.linear)
          Scenario.site0 Scenario.site1)
       [(Scenario.site0, a); (Ref.prime_index Scenario.site0, a');
        (Scenario.site1, b); (Ref.prime_index Scenario.site1, b')] =
       if decide ((a, a') = (1, 1))
       then entry_row_unprimed (K := Ref.kernel)
              (Id (K := Ref.kernel) Scenario.site1) Scenario.site1 b b'
       else if decide ((a, a') = (2, 2))
            then entry_row_unprimed (K := Ref.kernel)
                   (Y (K := Ref.kernel) Scenario.site1) Scenario.site1 b b'
            else Ref.c0) ∧
  (∀ a a' b b',
     Ref.tensor_elt
       (Gate.CZ (K := Ref.kernel) (L := Ref.linear)
          Scenario.site0 Scenario.site1)
       [(Scenario.site0, a); (Ref.prime_index Scenario.site0, a');
        (Scenario.site1, b); (Ref.prime_index Scenario.site1, b')] =
       if decide ((a, a') = (1, 1))
       then entry_row_unprimed (K := Ref.kernel)
              (Id (K := Ref.kernel) Scenario.site1) Scenario.site1 b b'
       else if decide ((a, a') = (2, 2))
            then entry_row_unprimed (K := Ref.kernel)
                   (Z (K := Ref.kernel) Scenario.site1) Scenario.site1 b b'
            else Ref.c0).
Proof.
  apply (controlled_gate_entries (K := Ref.kernel) (L := Ref.linear)
           Scenario.site0 Scenario.site1).
  - exact ref_element_laws.
  - exact ref_linear_laws.
  - exact ref_contraction_index.
  - by_evaluation.
  - simpl. lia.
  - simpl. lia.
Defined.

(** X20 — the gates written as sums and [apply]: with [sf] and [ss] the
    site indices under the cursor, [apply] takes [CNOT], [CY] and [CZ] with
    the control on either of the two sites; it refuses [H] alone, a tensor
    on two indices, whatever the circuit. *)
Theorem apply_takes_controlled_gates `{K : TensorKernel} `{L : !TensorLinear K}
    (c : QCircuit) (G : Index → Index → ITensor) (sf ss : Index) :
  element_laws K → linear_laws K L → contraction_index_law K →
  G ∈ controlled_gates →
  s c !! fst (cursor c) = Some sf →
  s c !! snd (cursor c) = Some ss →
  NoDup [sf; primeI sf; ss; primeI ss] →
  apply (G sf ss) c =
    Ok (tt, mkQCircuit (topology c) (a c) (s c) (M c)
              (tmul (G sf ss) (primeTs (Psi c) [sf; ss])) (cursor c)) ∧
  apply (G ss sf) c =
    Ok (tt, mkQCircuit (topology c) (a c) (s c) (M c)
              (tmul (G ss sf) (primeTs (Psi c) [sf; ss])) (cursor c)) ∧
  ∀ sx, apply (Gate.H sx) c = Abort "op.inds().size() == 4".
Proof.
  intros E LL Hmul HG Hf Hs Hnd.
  assert (Hnd' : NoDup [ss; primeI ss; sf; primeI sf]).
  { apply (NoDup_app [sf; primeI sf] [ss; primeI ss]) in Hnd
      as (N1 & N12 & N2).
    apply (NoDup_app [ss; primeI ss] [sf; primeI sf]).
    split; [done|]. split; [|done]. intros i Hi Hi'. by apply (N12 i). }
  assert (HI : ∀ s1 s2, NoDup [s1; primeI s1; s2; primeI s2] →
            inds (G s1 s2) = [s1; primeI s1; s2; primeI s2]).
  { intros s1 s2 N. unfold controlled_gates in HG.
    rewrite !elem_of_cons, elem_of_nil in HG.
    destruct HG as [->|[->|[->|[]]]]; cbv [Gate.CNOT Gate.CY Gate.CZ];
      apply controlled_inds; try done;
      unfold one_site_gates; rewrite !elem_of_cons; tauto. }
  split; [|split].
  - apply apply_run; [done | done | by rewrite HI |].
    intros i. rewrite HI by done. rewrite !elem_of_cons, !elem_of_nil. tauto.
  - apply apply_run; [done | done | by rewrite HI |].
    intros i. rewrite HI by done. rewrite !elem_of_cons, !elem_of_nil. tauto.
  - intros sx. apply apply_wrong_rank. by rewrite H_inds.
Qed.

Lemma apply_takes_controlled_gates_witness :
  apply (K := Ref.kernel)
    (Gate.CNOT (K := Ref.kernel) (L := Ref.linear)
       Scenario.site0 Scenario.site1) Scenario.chain2_state =
    Ok (tt, mkQCircuit (topology Scenario.chain2_state)
              (a Scenario.chain2_state) (s Scenario.chain2_state)
              (M Scenario.chain2_state)
              (Ref.tensor_mul
                 (Gate.CNOT (K := Ref.kernel) (L := Ref.linear)
                    Scenario.site0 Scenario.site1)
                 (Ref.tensor_prime_some (Psi Scenario.chain2_state)
                    [Scenario.site0; Scenario.site1]))
              (cursor Scenario.chain2_state)) ∧
  apply (K := Ref.kernel)
    (Gate.CNOT (K := Ref.kernel) (L := Ref.linear)
       Scenario.site1 Scenario.site0) Scenario.chain2_state =
    Ok (tt, mkQCircuit (topology Scenario.chain2_state)
              (a Scenario.chain2_state) (s Scenario.chain2_state)
              (M Scenario.chain2_state)
              (Ref.tensor_mul
                 (Gate.CNOT (K := Ref.kernel) (L := Ref.linear)
                    Scenario.site1 Scenario.site0)
                 (Ref.tensor_prime_some (Psi Scenario.chain2_state)
                    [Scenario.site0; Scenario.site1]))
              (cursor Scenario.chain2_state)) ∧
  ∀ sx, apply (K := Ref.kernel)
          (Gate.H (K := Ref.kernel) (L := Ref.linear) sx)
          Scenario.chain2_state = Abort "op.inds().size() == 4".
Proof.
  apply (apply_takes_controlled_gates (K := Ref.kernel) (L := Ref.linear)
           Scenario.chain2_state Gate.CNOT Scenario.site0 Scenario.site1).
  - exact ref_element_laws.
  - exact ref_linear_laws.
  - exact ref_contraction_index.
  - unfold controlled_gates. rewrite !elem_of_cons. tauto.
  - vm_compute. reflexivity.
  - vm_compute. reflexivity.
  - by_evaluation.
Defined.

(** On the reference kernel [CNOT] with the control on site 0 takes |10> to
    |11> and leaves |00>. *)
Example CNOT_flips_target_under_control :
  Scenario.Psi_after
    (Gate.CNOT (K := Ref.kernel) (L := Ref.linear) Scenario.site0 Scenario.site1)
    Scenario.one_zero_state
  = Ref.Tens [Scenario.site0; Scenario.site1] [([2; 2], Ref.c1)] ∧
  Scenario.Psi_after
    (Gate.CNOT (K := Ref.kernel) (L := Ref.linear) Scenario.site0 Scenario.site1)
    Scenario.chain2_state
  = Psi Scenario.chain2_state.
Proof. split; vm_compute; reflexivity. Qed.
